(** * shm-go: the block ring of a shared-memory byte stream

    A shallow embedding of the endpoint operations of package [shm]
    (type [ReadWriteCloser]: [GetReadBuffer], [SendReadBuffer],
    [GetWriteBuffer], [SendWriteBuffer], [Read], [Write], [ReadFrom],
    [WriteTo], [Close]) and of the shared segment they act on.

    The shared segment is modelled as a typed value: a header record and
    the array of blocks that follows it.  Address arithmetic
    [blocks + blockIndex*fullBlockSize] becomes a lookup in that array; an
    index past the array is an access outside the segment.  Every
    operation is a function from the segment to a [result], which is the
    segment after the call and what the call returned, or the reason why
    the calling thread did not return.  The semantics is that of one
    thread running at a time: between two atomic accesses of a call the
    peer does not move. *)

From Stdlib Require Import NArith ZArith Lia.
From Stdlib.Strings Require Import Byte.
From stdpp Require Import base numbers list option.

Open Scope N_scope.

(** ** Errors *)

(** The error values the package returns: [io.EOF], [io.ErrClosedPipe],
    the package's own sentinel errors, and the errors of the collaborators
    (semaphore, reader, writer, munmap), which are opaque codes here. *)
Inductive error : Type :=
| EOF
| ErrClosedPipe
| ErrInvalidSharedMemory
| ErrInvalidBuffer
| ErrNotMultipleOf64
| ErrInvalidBlockIndex
| Errno (code : N).

#[global] Instance error_eq_dec : EqDecision error.
Proof. solve_decision. Defined.

(** ** Semaphores *)

(** Modelled from the spec: the semaphore collaborator (package go-sem, a
    wrapper of the POSIX calls).  [Wait] blocks until a post is available
    and consumes it, [Post] adds one.  The semaphore lives in the shared
    header; [sem_fault] is the error its calls report when the peer has
    damaged it. *)
Record Semaphore : Type := mkSem {
  sem_value : N;
  sem_fault : option N
}.

Inductive waited : Type :=
| Acquired (s : Semaphore)
| Blocked
| WaitFailed (e : error).

Definition sem_Wait (s : Semaphore) : waited :=
  match sem_fault s with
  | Some c => WaitFailed (Errno c)
  | None =>
      if sem_value s =? 0 then Blocked
      else Acquired (mkSem (sem_value s - 1) None)
  end.

Definition sem_Post (s : Semaphore) : option error * Semaphore :=
  match sem_fault s with
  | Some c => (Some (Errno c), s)
  | None => (None, mkSem (sem_value s + 1) None)
  end.

(** ** The shared segment *)

Definition eofFlagIndex : nat := 0.
Definition eofFlagMask : N := 1.

(** One block: its header and the [BlockSize] payload bytes after it.
    The index and flag words are 32 bits wide and [Size] is 64 bits wide;
    the code only copies and compares them, so the conversions
    [uint32(...)] it writes are the identity. *)
Record sharedBlock : Type := mkBlock {
  Next : N;
  Prev : N;
  DoneRead : N;
  DoneWrite : N;
  Size : N;
  Flags : list N;
  payload : list byte
}.

(** The shared header followed by the block array. *)
Record sharedMem : Type := mkMem {
  BlockCount : N;
  BlockSize : N;
  ReadStart : N;
  ReadEnd : N;
  WriteStart : N;
  WriteEnd : N;
  SemSignal : Semaphore;
  SemAvail : Semaphore;
  blocks : list sharedBlock
}.

Definition set_ReadStart (v : N) (m : sharedMem) : sharedMem :=
  mkMem (BlockCount m) (BlockSize m) v (ReadEnd m) (WriteStart m)
        (WriteEnd m) (SemSignal m) (SemAvail m) (blocks m).

Definition set_ReadEnd (v : N) (m : sharedMem) : sharedMem :=
  mkMem (BlockCount m) (BlockSize m) (ReadStart m) v (WriteStart m)
        (WriteEnd m) (SemSignal m) (SemAvail m) (blocks m).

Definition set_WriteStart (v : N) (m : sharedMem) : sharedMem :=
  mkMem (BlockCount m) (BlockSize m) (ReadStart m) (ReadEnd m) v
        (WriteEnd m) (SemSignal m) (SemAvail m) (blocks m).

Definition set_WriteEnd (v : N) (m : sharedMem) : sharedMem :=
  mkMem (BlockCount m) (BlockSize m) (ReadStart m) (ReadEnd m)
        (WriteStart m) v (SemSignal m) (SemAvail m) (blocks m).

Definition set_SemSignal (s : Semaphore) (m : sharedMem) : sharedMem :=
  mkMem (BlockCount m) (BlockSize m) (ReadStart m) (ReadEnd m)
        (WriteStart m) (WriteEnd m) s (SemAvail m) (blocks m).

Definition set_SemAvail (s : Semaphore) (m : sharedMem) : sharedMem :=
  mkMem (BlockCount m) (BlockSize m) (ReadStart m) (ReadEnd m)
        (WriteStart m) (WriteEnd m) (SemSignal m) s (blocks m).

Definition set_blocks (bs : list sharedBlock) (m : sharedMem) : sharedMem :=
  mkMem (BlockCount m) (BlockSize m) (ReadStart m) (ReadEnd m)
        (WriteStart m) (WriteEnd m) (SemSignal m) (SemAvail m) bs.

Definition set_DoneRead (v : N) (b : sharedBlock) : sharedBlock :=
  mkBlock (Next b) (Prev b) v (DoneWrite b) (Size b) (Flags b) (payload b).

Definition set_DoneWrite (v : N) (b : sharedBlock) : sharedBlock :=
  mkBlock (Next b) (Prev b) (DoneRead b) v (Size b) (Flags b) (payload b).

Definition set_Size (v : N) (b : sharedBlock) : sharedBlock :=
  mkBlock (Next b) (Prev b) (DoneRead b) (DoneWrite b) v (Flags b) (payload b).

Definition set_Flags (fs : list N) (b : sharedBlock) : sharedBlock :=
  mkBlock (Next b) (Prev b) (DoneRead b) (DoneWrite b) (Size b) fs (payload b).

Definition set_payload (d : list byte) (b : sharedBlock) : sharedBlock :=
  mkBlock (Next b) (Prev b) (DoneRead b) (DoneWrite b) (Size b) (Flags b) d.

(** The block at [blocks + blockIndex * fullBlockSize], dereferenced;
    [None] past the block array. *)
Definition block_at (i : N) (m : sharedMem) : option sharedBlock :=
  blocks m !! N.to_nat i.

(** A store through a block pointer. *)
Definition store_block (i : N) (b : sharedBlock) (m : sharedMem) : sharedMem :=
  set_blocks (<[N.to_nat i := b]> (blocks m)) m.

(** A read-modify-write through a block pointer; [None] past the block
    array. *)
Definition with_block (i : N) (f : sharedBlock -> sharedBlock) (m : sharedMem)
  : option sharedMem :=
  match block_at i m with
  | None => None
  | Some b => Some (store_block i (f b) m)
  end.

(** ** Atomic accesses *)

(** The four ring pointers of the header. *)
Inductive ringptr : Type := pReadStart | pReadEnd | pWriteStart | pWriteEnd.

Definition LoadUint32 (p : ringptr) (m : sharedMem) : N :=
  match p with
  | pReadStart => ReadStart m
  | pReadEnd => ReadEnd m
  | pWriteStart => WriteStart m
  | pWriteEnd => WriteEnd m
  end.

Definition StoreUint32 (p : ringptr) (v : N) (m : sharedMem) : sharedMem :=
  match p with
  | pReadStart => set_ReadStart v m
  | pReadEnd => set_ReadEnd v m
  | pWriteStart => set_WriteStart v m
  | pWriteEnd => set_WriteEnd v m
  end.

Definition CompareAndSwapUint32 (p : ringptr) (old new : N) (m : sharedMem)
  : bool * sharedMem :=
  if LoadUint32 p m =? old then (true, StoreUint32 p new m) else (false, m).

(** The two per-block flags that are accessed atomically. *)
Inductive doneflag : Type := fDoneRead | fDoneWrite.

Definition done_get (f : doneflag) (b : sharedBlock) : N :=
  match f with fDoneRead => DoneRead b | fDoneWrite => DoneWrite b end.

Definition done_set (f : doneflag) (v : N) (b : sharedBlock) : sharedBlock :=
  match f with fDoneRead => set_DoneRead v b | fDoneWrite => set_DoneWrite v b end.

(** [atomic.StoreUint32] on a block's [DoneRead] or [DoneWrite]; [None] when the block pointer
    leaves the block array. *)
Definition StoreDone (f : doneflag) (i : N) (v : N) (m : sharedMem)
  : option sharedMem :=
  with_block i (done_set f v) m.

(** [atomic.CompareAndSwapUint32] on a block's [DoneRead] or [DoneWrite]. *)
Definition CompareAndSwapDone (f : doneflag) (i : N) (old new : N) (m : sharedMem)
  : option (bool * sharedMem) :=
  match block_at i m with
  | None => None
  | Some b =>
      if done_get f b =? old
      then Some (true, store_block i (done_set f new b) m)
      else Some (false, m)
  end.

(** ** Results *)

Inductive semid : Type := sSignal | sAvail.

Inductive crash : Type :=
| OutsideSegment   (* a block pointer past the block array was dereferenced *)
| SliceBounds.     (* Go's run-time check of a slice expression *)

(** What a call does to the calling thread: it returns [a] and leaves the
    segment [m]; it sleeps in [Wait] on a semaphore without tokens, which
    only the peer can end; it crashes; or the model's loop bound ran out
    (the theorems show it never does). *)
Inductive result (A : Type) : Type :=
| Ret (a : A) (m : sharedMem)
| Park (s : semid) (m : sharedMem)
| Crash (c : crash) (m : sharedMem)
| OutOfFuel.

Arguments Ret {A} a m.
Arguments Park {A} s m.
Arguments Crash {A} c m.
Arguments OutOfFuel {A}.

Definition bind {A B : Type} (r : result A) (k : A -> sharedMem -> result B)
  : result B :=
  match r with
  | Ret a m => k a m
  | Park s m => Park s m
  | Crash c m => Crash c m
  | OutOfFuel => OutOfFuel
  end.

Notation "'let*' x := r 'in' k" := (bind r (fun x => k))
  (at level 10, x pattern, r at level 100, k at level 200).

(** ** The endpoint and the buffer handle *)

(** [ReadWriteCloser].  [readShared] and [writeShared] point into the
    mapping; the segment they point to is the state argument of the
    operations.  [closed] is private to the process. *)
Record ReadWriteCloser : Type := mkRW {
  name : list byte;
  fullBlockSize : N;
  closed : N
}.

(** [Buffer].  [block] is the index of the block the pointer refers to.
    [Data] is a slice of that block's payload starting at its first byte:
    it is given by its length and capacity, its bytes are the payload's.
    [Flags] points at the block's flag bytes. *)
Record Buffer : Type := mkBuffer {
  block : N;
  write : bool;
  Data_len : nat;
  Data_cap : nat
}.

(** The bytes [buf.Data] shows. *)
Definition Data (buf : Buffer) (m : sharedMem) : list byte :=
  match block_at (block buf) m with
  | Some b => take (Data_len buf) (payload b)
  | None => []
  end.

(** The array type [[1 << 30]byte] through which the payload is sliced. *)
Definition maxData : N := 2 ^ 30.

(** ** Write side *)

(** The loop of [GetWriteBuffer]; it returns the index of the block it
    acquired. *)
Fixpoint GetWriteBuffer_loop (fuel : nat) (m : sharedMem) : result (N + error) :=
  match fuel with
  | O => OutOfFuel
  | S fuel' =>
      let blockIndex := LoadUint32 pWriteStart m in
      if BlockCount m <? blockIndex then Ret (inr ErrInvalidSharedMemory) m
      else
        match block_at blockIndex m with
        | None => Crash OutsideSegment m
        | Some blk =>
            if Next blk =? LoadUint32 pReadEnd m then
              match sem_Wait (SemAvail m) with
              | WaitFailed e => Ret (inr e) m
              | Blocked => Park sAvail m
              | Acquired s => GetWriteBuffer_loop fuel' (set_SemAvail s m)
              end
            else
              match CompareAndSwapUint32 pWriteStart blockIndex (Next blk) m with
              | (true, m') => Ret (inl blockIndex) m'
              | (false, m') => GetWriteBuffer_loop fuel' m'
              end
        end
  end.

(** [GetWriteBuffer].  A retry of the loop follows a [Wait] that took a
    token, so one more iteration than [SemAvail] has tokens is all a
    single thread can run. *)
Definition GetWriteBuffer (rw : ReadWriteCloser) (m : sharedMem)
  : result (Buffer + error) :=
  if negb (closed rw =? 0) then Ret (inr ErrClosedPipe) m
  else
    let* r := GetWriteBuffer_loop (S (N.to_nat (sem_value (SemAvail m)))) m in
    fun m' =>
      match r with
      | inr e => Ret (inr e) m'
      | inl i =>
          (* data[:0:rw.writeShared.BlockSize] *)
          if maxData <? BlockSize m' then Crash SliceBounds m'
          else Ret (inl (mkBuffer i true 0 (N.to_nat (BlockSize m')))) m'
      end.

(** The loop of [SendWriteBuffer]; [len] is [len(buf.Data)]. *)
Fixpoint SendWriteBuffer_loop (fuel : nat) (len : nat) (m : sharedMem)
  : result (nat * option error) :=
  match fuel with
  | O => OutOfFuel
  | S fuel' =>
      let blockIndex := LoadUint32 pWriteEnd m in
      if BlockCount m <? blockIndex then Ret (len, Some ErrInvalidSharedMemory) m
      else
        match CompareAndSwapDone fDoneWrite blockIndex 1 0 m with
        | None => Crash OutsideSegment m
        | Some (false, m1) => Ret (len, None) m1
        | Some (true, m1) =>
            match block_at blockIndex m1 with
            | None => Crash OutsideSegment m1
            | Some blk =>
                let m2 := snd (CompareAndSwapUint32 pWriteEnd blockIndex (Next blk) m1) in
                if blockIndex =? LoadUint32 pReadStart m2 then
                  match sem_Post (SemSignal m2) with
                  | (Some e, s) => Ret (len, Some e) (set_SemSignal s m2)
                  | (None, s) => SendWriteBuffer_loop fuel' len (set_SemSignal s m2)
                  end
                else SendWriteBuffer_loop fuel' len m2
            end
        end
  end.

(** [SendWriteBuffer].  Every iteration of the loop but the last clears
    a [DoneWrite] flag that was 1, so one more iteration than there are
    blocks is all it can run. *)
Definition SendWriteBuffer (rw : ReadWriteCloser) (buf : Buffer) (m : sharedMem)
  : result (nat * option error) :=
  if negb (closed rw =? 0) then Ret (O, Some ErrClosedPipe) m
  else if negb (write buf) then Ret (O, Some ErrInvalidBuffer) m
  else
    match with_block (block buf) (set_Size (N.of_nat (Data_len buf))) m with
    | None => Crash OutsideSegment m
    | Some m1 =>
        match StoreDone fDoneWrite (block buf) 1 m1 with
        | None => Crash OutsideSegment m1
        | Some m2 => SendWriteBuffer_loop (S (length (blocks m2))) (Data_len buf) m2
        end
    end.

(** [buf.Flags[k]], a byte of the block's flag array (which has
    [blockFlagsSize] bytes, at least one). *)
Definition flag_byte (k : nat) (b : sharedBlock) : N :=
  default 0 (Flags b !! k).

(** [buf.Flags[eofFlagIndex] |= eofFlagMask] and [&^= eofFlagMask]. *)
Definition set_eof (b : sharedBlock) : sharedBlock :=
  set_Flags (<[eofFlagIndex := N.lor (flag_byte eofFlagIndex b) eofFlagMask]> (Flags b)) b.

Definition clear_eof (b : sharedBlock) : sharedBlock :=
  set_Flags (<[eofFlagIndex := N.ldiff (flag_byte eofFlagIndex b) eofFlagMask]> (Flags b)) b.

(** [buf.Flags[eofFlagIndex]&eofFlagMask != 0]. *)
Definition is_eof (b : sharedBlock) : bool :=
  negb (N.land (flag_byte eofFlagIndex b) eofFlagMask =? 0).

(** [copy(buf.Data[:cap(buf.Data)], src)] for a source of at most
    [cap(buf.Data)] bytes: the front of the payload is overwritten. *)
Definition fill (src : list byte) (b : sharedBlock) : sharedBlock :=
  set_payload (src ++ drop (length src) (payload b)) b.

(** [buf.Data = buf.Data[:n]]. *)
Definition reslice (buf : Buffer) (n : nat) : Buffer :=
  mkBuffer (block buf) (write buf) n (Data_cap buf).

Definition Write (rw : ReadWriteCloser) (p : list byte) (m : sharedMem)
  : result (nat * option error) :=
  let* r := GetWriteBuffer rw m in
  fun m1 =>
    match r with
    | inr e => Ret (O, Some e) m1
    | inl buf =>
        (* n = copy(buf.Data[:cap(buf.Data)], p) *)
        let n := Nat.min (Data_cap buf) (length p) in
        match with_block (block buf) (fun b => set_eof (fill (take n p) b)) m1 with
        | None => Crash OutsideSegment m1
        | Some m2 =>
            let* r2 := SendWriteBuffer rw (reslice buf n) m2 in
            fun m3 => Ret (n, snd r2) m3
        end
    end.

(** ** Read side *)

(** The loop of [GetReadBuffer]; it returns the index of the block it
    acquired. *)
Fixpoint GetReadBuffer_loop (fuel : nat) (m : sharedMem) : result (N + error) :=
  match fuel with
  | O => OutOfFuel
  | S fuel' =>
      let blockIndex := LoadUint32 pReadStart m in
      if BlockCount m <? blockIndex then Ret (inr ErrInvalidSharedMemory) m
      else if blockIndex =? LoadUint32 pWriteEnd m then
        match sem_Wait (SemSignal m) with
        | WaitFailed e => Ret (inr e) m
        | Blocked => Park sSignal m
        | Acquired s => GetReadBuffer_loop fuel' (set_SemSignal s m)
        end
      else
        match block_at blockIndex m with
        | None => Crash OutsideSegment m
        | Some blk =>
            match CompareAndSwapUint32 pReadStart blockIndex (Next blk) m with
            | (true, m') => Ret (inl blockIndex) m'
            | (false, m') => GetReadBuffer_loop fuel' m'
            end
        end
  end.

Definition GetReadBuffer (rw : ReadWriteCloser) (m : sharedMem)
  : result (Buffer + error) :=
  if negb (closed rw =? 0) then Ret (inr ErrClosedPipe) m
  else
    let* r := GetReadBuffer_loop (S (N.to_nat (sem_value (SemSignal m)))) m in
    fun m' =>
      match r with
      | inr e => Ret (inr e) m'
      | inl i =>
          match block_at i m' with
          | None => Crash OutsideSegment m'
          | Some blk =>
              (* data[:block.Size:rw.readShared.BlockSize] *)
              if (BlockSize m' <? Size blk) || (maxData <? BlockSize m')
              then Crash SliceBounds m'
              else Ret (inl (mkBuffer i false (N.to_nat (Size blk))
                                      (N.to_nat (BlockSize m')))) m'
          end
      end.

(** The loop of [SendReadBuffer]. *)
Fixpoint SendReadBuffer_loop (fuel : nat) (m : sharedMem) : result (option error) :=
  match fuel with
  | O => OutOfFuel
  | S fuel' =>
      let blockIndex := LoadUint32 pReadEnd m in
      if BlockCount m <? blockIndex then Ret (Some ErrInvalidSharedMemory) m
      else
        match CompareAndSwapDone fDoneRead blockIndex 1 0 m with
        | None => Crash OutsideSegment m
        | Some (false, m1) => Ret None m1
        | Some (true, m1) =>
            match block_at blockIndex m1 with
            | None => Crash OutsideSegment m1
            | Some blk =>
                let m2 := snd (CompareAndSwapUint32 pReadEnd blockIndex (Next blk) m1) in
                if Prev blk =? LoadUint32 pWriteStart m2 then
                  match sem_Post (SemAvail m2) with
                  | (Some e, s) => Ret (Some e) (set_SemAvail s m2)
                  | (None, s) => SendReadBuffer_loop fuel' (set_SemAvail s m2)
                  end
                else SendReadBuffer_loop fuel' m2
            end
        end
  end.

Definition SendReadBuffer (rw : ReadWriteCloser) (buf : Buffer) (m : sharedMem)
  : result (option error) :=
  if negb (closed rw =? 0) then Ret (Some ErrClosedPipe) m
  else if write buf then Ret (Some ErrInvalidBuffer) m
  else
    match StoreDone fDoneRead (block buf) 1 m with
    | None => Crash OutsideSegment m
    | Some m1 => SendReadBuffer_loop (S (length (blocks m1))) m1
    end.

(** [Read] returns the count, the error and the caller's slice [p] as the
    call leaves it. *)
Definition Read (rw : ReadWriteCloser) (p : list byte) (m : sharedMem)
  : result (nat * option error * list byte) :=
  let* r := GetReadBuffer rw m in
  fun m1 =>
    match r with
    | inr e => Ret (O, Some e, p) m1
    | inl buf =>
        match block_at (block buf) m1 with
        | None => Crash OutsideSegment m1
        | Some blk =>
            (* n = copy(p, buf.Data) *)
            let n := Nat.min (length p) (Data_len buf) in
            let p' := take n (payload blk) ++ drop n p in
            let isEOF := is_eof blk in
            let* e := SendReadBuffer rw buf m1 in
            fun m2 =>
              match e with
              | Some err => Ret (n, Some err, p') m2
              | None => if isEOF then Ret (n, Some EOF, p') m2
                        else Ret (n, None, p') m2
              end
        end
    end.

(** ** Streams: [ReadFrom] and [WriteTo] *)

(** [io.Reader]: a source with a state of its own.  [reader_Read r k] is
    [r.Read(b)] for a slice [b] of length [k]: the bytes written to the
    front of [b] (their number is the count returned), the error, and the
    source afterwards. *)
Class Reader (R : Type) : Type :=
  reader_Read : R -> nat -> list byte * option error * R.

(** [io.Writer]: [writer_Write w d] is [w.Write(d)]. *)
Class Writer (W : Type) : Type :=
  writer_Write : W -> list byte -> nat * option error * W.

(** [n += int64(nn)] on a 64-bit signed counter. *)
Definition int64_add (n : Z) (nn : nat) : Z :=
  ((n + Z.of_nat nn + 2 ^ 63) mod 2 ^ 64 - 2 ^ 63)%Z.

(** The loop of [ReadFrom], which ends when the source reports an error
    or the end of its data; [fuel] bounds the number of blocks, [n] is
    the count so far. *)
Fixpoint ReadFrom_loop {R : Type} `{Reader R} (fuel : nat)
    (rw : ReadWriteCloser) (r : R) (n : Z) (m : sharedMem)
  : result (Z * option error * R) :=
  match fuel with
  | O => OutOfFuel
  | S fuel' =>
      let* g := GetWriteBuffer rw m in
      fun m1 =>
        match g with
        | inr e => Ret (n, Some e, r) m1
        | inl buf =>
            match reader_Read r (Data_cap buf) with
            | (data, err, r') =>
                let nn := length data in
                (* buf.Data[:nn] *)
                if (Data_cap buf <? nn)%nat then Crash SliceBounds m1
                else
                  let n1 := int64_add n nn in
                  let flag := if decide (err = Some EOF) then set_eof else clear_eof in
                  match with_block (block buf) (fun b => flag (fill data b)) m1 with
                  | None => Crash OutsideSegment m1
                  | Some m2 =>
                      let* s := SendWriteBuffer rw (reslice buf nn) m2 in
                      fun m3 =>
                        match snd s with
                        | Some putErr => Ret (n1, err, r') m3
                        | None =>
                            if decide (err = Some EOF) then Ret (n1, None, r') m3
                            else
                              match err with
                              | Some e => Ret (n1, Some e, r') m3
                              | None => ReadFrom_loop fuel' rw r' n1 m3
                              end
                        end
                  end
            end
        end
  end.

Definition ReadFrom {R : Type} `{Reader R} (fuel : nat)
    (rw : ReadWriteCloser) (r : R) (m : sharedMem)
  : result (Z * option error * R) :=
  ReadFrom_loop fuel rw r 0%Z m.

(** The loop of [WriteTo], which ends at a block with the EOF bit or at
    an error of the sink. *)
Fixpoint WriteTo_loop {W : Type} `{Writer W} (fuel : nat)
    (rw : ReadWriteCloser) (w : W) (n : Z) (m : sharedMem)
  : result (Z * option error * W) :=
  match fuel with
  | O => OutOfFuel
  | S fuel' =>
      let* g := GetReadBuffer rw m in
      fun m1 =>
        match g with
        | inr e => Ret (n, Some e, w) m1
        | inl buf =>
            match writer_Write w (Data buf m1) with
            | (nn, err, w') =>
                let n1 := int64_add n nn in
                match block_at (block buf) m1 with
                | None => Crash OutsideSegment m1
                | Some blk =>
                    let isEOF := is_eof blk in
                    let* e := SendReadBuffer rw buf m1 in
                    fun m2 =>
                      match e with
                      | Some putErr => Ret (n1, Some putErr, w') m2
                      | None =>
                          if bool_decide (err <> None) || isEOF
                          then Ret (n1, err, w') m2
                          else WriteTo_loop fuel' rw w' n1 m2
                      end
                end
            end
        end
  end.

Definition WriteTo {W : Type} `{Writer W} (fuel : nat)
    (rw : ReadWriteCloser) (w : W) (m : sharedMem)
  : result (Z * option error * W) :=
  WriteTo_loop fuel rw w 0%Z m.

(** ** Close *)

(** [Close]; [munmap] is what [unix.Munmap] answers. *)
Definition Close (munmap : option error) (rw : ReadWriteCloser)
  : option error * ReadWriteCloser :=
  if closed rw =? 0
  then (munmap, mkRW (name rw) (fullBlockSize rw) 1)
  else (None, rw).

(** ** A new segment *)

(** Modelled from the spec: the header a segment has after creation (the
    constructors are not part of these sources).  [Prev] and [Next] are
    wrapped circularly, the four pointers are 0, [DoneRead] and
    [DoneWrite] are cleared and the semaphores hold no token.  [nflags]
    is the number of flag bytes of a block, [blockFlagsSize]. *)
Definition initBlock (blockCount blockSize : N) (nflags : nat) (i : nat)
  : sharedBlock :=
  mkBlock ((N.of_nat i + 1) mod blockCount)
          ((N.of_nat i + blockCount - 1) mod blockCount)
          0 0 0
          (replicate nflags 0)
          (replicate (N.to_nat blockSize) x00).

Definition initShared (blockCount blockSize : N) (nflags : nat) : sharedMem :=
  mkMem blockCount blockSize 0 0 0 0 (mkSem 0 None) (mkSem 0 None)
        (map (initBlock blockCount blockSize nflags) (seq 0 (N.to_nat blockCount))).

(** ** The ring as the specification describes it *)

(** The block array is the one the header announces, and every [Next]
    is a block index. *)
Definition ring_ok (m : sharedMem) : Prop :=
  BlockCount m = N.of_nat (length (blocks m))
  /\ Forall (fun b => Next b < BlockCount m /\ Prev b < BlockCount m) (blocks m).

(** [SemSignal.post()] and [SemAvail.post()] on a sound semaphore. *)
Definition post_SemSignal (m : sharedMem) : sharedMem :=
  set_SemSignal (mkSem (sem_value (SemSignal m) + 1) None) m.

Definition post_SemAvail (m : sharedMem) : sharedMem :=
  set_SemAvail (mkSem (sem_value (SemAvail m) + 1) None) m.

(** Writer-release, step 3 of the specification: starting at [WriteEnd],
    while the block [C] at [WriteEnd = j] has [DoneWrite = 1], clear it,
    move [WriteEnd] to [C.Next] and, if [j == ReadStart], post
    [SemSignal]; stop at the first block whose [DoneWrite] is not 1.
    [writer_advance m js m'] relates the segment before and after and
    lists the positions [WriteEnd] has been moved past. *)
Inductive writer_advance : sharedMem -> list N -> sharedMem -> Prop :=
| writer_stop (m : sharedMem) (c : sharedBlock) :
    block_at (WriteEnd m) m = Some c ->
    DoneWrite c <> 1 ->
    writer_advance m [] m
| writer_step (m m' : sharedMem) (c : sharedBlock) (js : list N) :
    block_at (WriteEnd m) m = Some c ->
    DoneWrite c = 1 ->
    writer_advance
      (let m1 := set_WriteEnd (Next c)
                   (store_block (WriteEnd m) (set_DoneWrite 0 c) m) in
       if WriteEnd m =? ReadStart m then post_SemSignal m1 else m1)
      js m' ->
    writer_advance m (WriteEnd m :: js) m'.

(** Reader-release, the symmetric walk of [ReadEnd] over blocks whose
    [DoneRead] is 1, posting [SemAvail] for a block [B] it moves past
    when [B.Prev == WriteStart]. *)
Inductive reader_advance : sharedMem -> list sharedBlock -> sharedMem -> Prop :=
| reader_stop (m : sharedMem) (c : sharedBlock) :
    block_at (ReadEnd m) m = Some c ->
    DoneRead c <> 1 ->
    reader_advance m [] m
| reader_step (m m' : sharedMem) (c : sharedBlock) (bs : list sharedBlock) :
    block_at (ReadEnd m) m = Some c ->
    DoneRead c = 1 ->
    reader_advance
      (let m1 := set_ReadEnd (Next c)
                   (store_block (ReadEnd m) (set_DoneRead 0 c) m) in
       if Prev c =? WriteStart m then post_SemAvail m1 else m1)
      bs m' ->
    reader_advance m (c :: bs) m'.

(** [same_data m m']: every block of [m] is a block of [m'] with the same
    links, size, flag bytes and payload, and the constants of the header
    are the same. *)
Definition same_data (m m' : sharedMem) : Prop :=
  BlockCount m' = BlockCount m
  /\ BlockSize m' = BlockSize m
  /\ length (blocks m') = length (blocks m)
  /\ forall (i : N) (b : sharedBlock),
       block_at i m = Some b ->
       exists b', block_at i m' = Some b'
                  /\ Next b' = Next b /\ Prev b' = Prev b /\ Size b' = Size b
                  /\ Flags b' = Flags b /\ payload b' = payload b.

(** A well-formed ring at rest with nothing to read: writer and reader
    both stand at block [i] (whose content is [b]), the writer holds no
    block, the ring is not full, and the block after [i] is not marked
    as written. *)
Definition ring_idle (m : sharedMem) (i : N) (b : sharedBlock) : Prop :=
  ring_ok m
  /\ BlockSize m <= maxData
  /\ WriteStart m = i /\ WriteEnd m = i /\ ReadStart m = i
  /\ ReadEnd m < BlockCount m
  /\ block_at i m = Some b
  /\ Flags b <> []
  /\ Next b <> ReadEnd m
  /\ Next b <> i
  /\ (exists c, block_at (Next b) m = Some c /\ DoneWrite c <> 1)
  /\ sem_fault (SemSignal m) = None
  /\ sem_fault (SemAvail m) = None.

(** The number of blocks whose flag [f] is 1. *)
Definition pending (f : doneflag) (m : sharedMem) : nat :=
  length (filter (fun b => done_get f b = 1) (blocks m)).

(** ** The four arcs of the ring *)

(** The blocks form one cycle in index order, as segment creation links
    them. *)
Definition circular (m : sharedMem) : Prop :=
  forall (i : N) (b : sharedBlock),
    block_at i m = Some b ->
    Next b = (i + 1) mod BlockCount m
    /\ Prev b = (i + BlockCount m - 1) mod BlockCount m.

(** [ring_arcs m re rs we ws].  The counters [re <= rs <= we <= ws] say
    how many blocks the reader has released, the reader has acquired, the
    writer has published and the writer has acquired since the segment was
    created; the four pointers of the header are these counters modulo
    [BlockCount].  Blocks [re..rs) are held by the reader, [rs..we) are
    readable, [we..ws) are held by the writer, and the rest, at least one
    block, is free.  A [DoneWrite] flag is up only in the writer's arc and
    a [DoneRead] flag only in the reader's; every block has its
    [BlockSize] payload bytes and at least one flag byte, sizes fit the
    payload area and the semaphores are sound. *)
Record ring_arcs (m : sharedMem) (re rs we ws : N) : Prop := mkArcs {
  arcs_count : BlockCount m = N.of_nat (length (blocks m));
  arcs_nonempty : 0 < BlockCount m;
  arcs_circular : circular m;
  arcs_BlockSize : BlockSize m <= maxData;
  arcs_Size : forall (i : N) (b : sharedBlock),
      block_at i m = Some b -> Size b <= BlockSize m;
  arcs_Flags : forall (i : N) (b : sharedBlock),
      block_at i m = Some b -> Flags b <> [];
  arcs_payload : forall (i : N) (b : sharedBlock),
      block_at i m = Some b -> length (payload b) = N.to_nat (BlockSize m);
  arcs_ReadEnd : ReadEnd m = re mod BlockCount m;
  arcs_ReadStart : ReadStart m = rs mod BlockCount m;
  arcs_WriteEnd : WriteEnd m = we mod BlockCount m;
  arcs_WriteStart : WriteStart m = ws mod BlockCount m;
  arcs_order : re <= rs /\ rs <= we /\ we <= ws /\ ws < re + BlockCount m;
  arcs_DoneWrite : forall (i : N) (b : sharedBlock),
      block_at i m = Some b -> DoneWrite b = 1 ->
      exists c, we <= c /\ c < ws /\ i = c mod BlockCount m;
  arcs_DoneRead : forall (i : N) (b : sharedBlock),
      block_at i m = Some b -> DoneRead b = 1 ->
      exists c, re <= c /\ c < rs /\ i = c mod BlockCount m;
  arcs_SemSignal : sem_fault (SemSignal m) = None;
  arcs_SemAvail : sem_fault (SemAvail m) = None
}.

(** The ring between two calls: the arcs are in order and neither
    release loop has work left, that is, the blocks at [WriteEnd] and at
    [ReadEnd] are not marked as finished. *)
Definition ring_inv (m : sharedMem) (re rs we ws : N) : Prop :=
  ring_arcs m re rs we ws
  /\ (forall b, block_at (WriteEnd m) m = Some b -> DoneWrite b <> 1)
  /\ (forall b, block_at (ReadEnd m) m = Some b -> DoneRead b <> 1).

(** ** The ring as a queue of messages *)

(** What a block carries for the reader: the payload cut to [Size] and
    the EOF bit. *)
Definition message (b : sharedBlock) : list byte * bool :=
  (take (N.to_nat (Size b)) (payload b), is_eof b).

(** The messages of the [n] blocks at positions [c], [c + 1], ... *)
Fixpoint messages (m : sharedMem) (c : N) (n : nat) : list (list byte * bool) :=
  match n with
  | O => []
  | S n' =>
      match block_at (c mod BlockCount m) m with
      | Some b => message b :: messages m (c + 1) n'
      | None => []
      end
  end.

(** The messages of the readable arc, oldest first. *)
Definition readable (m : sharedMem) (rs we : N) : list (list byte * bool) :=
  messages m rs (N.to_nat (we - rs)).

(** A caller that writes the slices of a list one after the other with
    [Write], and one that reads into the slices of a list one after the
    other with [Read]. *)
Fixpoint Write_each (rw : ReadWriteCloser) (ps : list (list byte)) (m : sharedMem)
  : result (list (nat * option error)) :=
  match ps with
  | [] => Ret [] m
  | p :: ps' =>
      let* r := Write rw p m in
      fun m1 =>
        let* rs := Write_each rw ps' m1 in
        fun m2 => Ret (r :: rs) m2
  end.

Fixpoint Read_each (rw : ReadWriteCloser) (qs : list (list byte)) (m : sharedMem)
  : result (list (nat * option error * list byte)) :=
  match qs with
  | [] => Ret [] m
  | q :: qs' =>
      let* r := Read rw q m in
      fun m1 =>
        let* rs := Read_each rw qs' m1 in
        fun m2 => Ret (r :: rs) m2
  end.

(** A function on blocks that changes flag bytes only and leaves a
    flag array non-empty, as [set_eof] and [clear_eof] do. *)
Definition flag_update (f : sharedBlock -> sharedBlock) : Prop :=
  forall b, f b = set_Flags (Flags (f b)) b /\ (Flags b <> [] -> Flags (f b) <> []).

(** What [Read(q)] returns for a message: the count, the error and the
    slice [q] afterwards. *)
Definition deliver (q : list byte) (msg : list byte * bool)
  : nat * option error * list byte :=
  let n := Nat.min (length q) (length (fst msg)) in
  (n, if snd msg then Some EOF else None, take n (fst msg) ++ drop n q).

(** The message [Write(p)] makes on a ring with blocks of [bs] bytes. *)
Definition written (bs : N) (p : list byte) : list byte * bool :=
  (take (Nat.min (N.to_nat bs) (length p)) p, true).

(** ** Sources and sinks on their own *)

(** The calls [r.Read] that [ReadFrom] makes on a source, each with a
    slice of [cap] bytes, up to and including the first that reports an
    error or the end of the data: what each returned, and the source
    afterwards.  [None] when [fuel] calls do not reach that point. *)
Fixpoint drain {R : Type} `{Reader R} (fuel : nat) (r : R) (cap : nat)
  : option (list (list byte * option error) * R) :=
  match fuel with
  | O => None
  | S fuel' =>
      match reader_Read r cap with
      | (data, Some e, r') => Some ([(data, Some e)], r')
      | (data, None, r') =>
          match drain fuel' r' cap with
          | Some (l, r'') => Some ((data, None) :: l, r'')
          | None => None
          end
      end
  end.

(** The error [ReadFrom] returns after these calls: that of the last
    one, unless it is [io.EOF]. *)
Fixpoint final_error (chunks : list (list byte * option error)) : option error :=
  match chunks with
  | [] => None
  | [(_, err)] =>
      match err with
      | Some e => if decide (e = EOF) then None else Some e
      | None => None
      end
  | _ :: rest => final_error rest
  end.

(** The message [ReadFrom] makes of what one call returned. *)
Definition chunk_message (c : list byte * option error) : list byte * bool :=
  (fst c, bool_decide (snd c = Some EOF)).

(** The count [ReadFrom] and [WriteTo] keep. *)
Definition count_all (n : Z) (lens : list nat) : Z := fold_left int64_add lens n.

(** The calls [w.Write] that [WriteTo] makes for a list of messages, up
    to and including the first message with the EOF bit or the first
    call that reports an error: how many messages were taken, the count,
    the error and the sink afterwards.  [None] when the messages run out
    before that. *)
Fixpoint feed {W : Type} `{Writer W} (w : W) (msgs : list (list byte * bool)) (n : Z)
  : option (nat * Z * option error * W) :=
  match msgs with
  | [] => None
  | (d, eof) :: rest =>
      match writer_Write w d with
      | (nn, err, w') =>
          let n1 := int64_add n nn in
          if bool_decide (err <> None) || eof then Some (1%nat, n1, err, w')
          else
            match feed w' rest n1 with
            | Some (k, n2, e, w'') => Some (S k, n2, e, w'')
            | None => None
            end
      end
  end.

(** ** The counter of the demonstration program *)

(** The counter mode of the demonstration program keeps a byte array
    [ctr] and, before each block it sends, runs
    [for i := 0; i < len(ctr); i++ { if ctr[i]++; ctr[i] != 0 { break } }].
    A byte is a number below 256 and [ctr[i]++] wraps around. *)
Fixpoint ctr_incr (ctr : list N) : list N :=
  match ctr with
  | [] => []
  | b :: rest =>
      let b' := (b + 1) mod 256 in
      if b' =? 0 then b' :: ctr_incr rest else b' :: rest
  end.

(** The number a byte array holds, least significant byte first. *)
Fixpoint le_value (ctr : list N) : N :=
  match ctr with
  | [] => 0
  | b :: rest => b + 256 * le_value rest
  end.

(** ** Sample endpoints and segments *)

Definition rw_open : ReadWriteCloser := mkRW [] 0 0.

(** The segment of the first end-to-end scenario: 4 blocks of 64 bytes. *)
Definition ring4 : sharedMem := initShared 4 64 1.

Definition hello : list byte := [x68; x65; x6c; x6c; x6f].

(** [ring4] after the writer has written [hello] with [Write]. *)
Definition ring4_hello : sharedMem :=
  match Write rw_open hello ring4 with
  | Ret _ m => m
  | _ => ring4
  end.

(** A source that hands out the bytes of a list and then reports
    [io.EOF], in the manner of [bytes.Reader]. *)
#[global] Instance bytes_Reader : Reader (list byte) :=
  fun r k =>
    match r with
    | [] => ([], Some EOF, [])
    | _ => (take k r, None, drop k r)
    end.

(** A sink that keeps all it is given, in the manner of [bytes.Buffer]. *)
#[global] Instance bytes_Writer : Writer (list byte) :=
  fun w d => (length d, None, w ++ d).

(** A source that fails at its first call, after it has given the
    bytes of [hello]. *)
Inductive failing_source : Type := FailingSource.

#[global] Instance failing_Reader : Reader failing_source :=
  fun r k => (take k hello, Some (Errno 5), r).

(** The segment an operation leaves, for the sample segments below. *)
Definition segment_after {A : Type} (r : result A) (m0 : sharedMem) : sharedMem :=
  match r with
  | Ret _ m => m
  | Park _ m => m
  | Crash _ m => m
  | OutOfFuel => m0
  end.

(** A segment of one block. *)
Definition ring1 : sharedMem := initShared 1 64 1.

(** [ring4] after the writer has acquired block 0. *)
Definition ring4_leased : sharedMem :=
  segment_after (GetWriteBuffer rw_open ring4) ring4.

(** [ring4] after three calls of [Write]: the ring is full. *)
Definition ring4_full : sharedMem :=
  segment_after (Write_each rw_open [hello; hello; hello] ring4) ring4.

(** [ring4_hello] after the reader has acquired block 0. *)
Definition ring4_reading : sharedMem :=
  segment_after (GetReadBuffer rw_open ring4_hello) ring4_hello.

(** [ring4] after [ReadFrom] on the failing source: one block without the
    EOF bit. *)
Definition ring4_partial : sharedMem :=
  segment_after (ReadFrom 1 rw_open FailingSource ring4) ring4.

(** A slice of eight bytes to read into. *)
Definition slice8 : list byte := replicate 8 x00.

(** A proof of [ring_ok] for a given segment, by evaluation. *)
Ltac ring_ok_by_computation :=
  split; [vm_compute; reflexivity | vm_compute; repeat constructor].

(** * Properties *)

(** ** Records and lookups *)

Lemma set_SemAvail_same (m : sharedMem) : set_SemAvail (SemAvail m) m = m.
Proof. by destruct m. Qed.

Lemma set_SemSignal_same (m : sharedMem) : set_SemSignal (SemSignal m) m = m.
Proof. by destruct m. Qed.

Lemma block_at_store_eq (i : N) (b c : sharedBlock) (m : sharedMem) :
  block_at i m = Some c -> block_at i (store_block i b m) = Some b.
Proof.
  unfold block_at, store_block; simpl; intros Hc.
  apply list_lookup_insert_eq. by eapply lookup_lt_Some.
Qed.

Lemma block_at_store_ne (i j : N) (b : sharedBlock) (m : sharedMem) :
  i <> j -> block_at j (store_block i b m) = block_at j m.
Proof.
  unfold block_at, store_block; simpl; intros Hij.
  apply list_lookup_insert_ne. lia.
Qed.

Lemma block_at_lt (i : N) (b : sharedBlock) (m : sharedMem) :
  block_at i m = Some b -> i < N.of_nat (length (blocks m)).
Proof. unfold block_at; intros H%lookup_lt_Some. lia. Qed.


(** ** The acquire loops, run by one thread *)

(** A full ring stays full while the writer waits: every token of
    [SemAvail] is consumed and the thread then sleeps. *)
Lemma GetWriteBuffer_loop_full (k : nat) :
  forall (m : sharedMem) (b : sharedBlock),
    WriteStart m <= BlockCount m ->
    block_at (WriteStart m) m = Some b ->
    Next b = ReadEnd m ->
    SemAvail m = mkSem (N.of_nat k) None ->
    GetWriteBuffer_loop (S k) m = Park sAvail (set_SemAvail (mkSem 0 None) m).
Proof.
  induction k as [|k IH]; intros m b Hle Hb Hfull Hsem.
  - simpl. destruct (N.ltb_spec (BlockCount m) (WriteStart m)); [lia|].
    rewrite Hb, Hfull, N.eqb_refl. unfold sem_Wait. rewrite Hsem; simpl.
    change (N.of_nat 0) with 0 in Hsem. by rewrite <- Hsem, set_SemAvail_same.
  - remember (S k) as k1 eqn:Hk1.
    cbn [GetWriteBuffer_loop LoadUint32].
    destruct (N.ltb_spec (BlockCount m) (WriteStart m)); [lia|].
    rewrite Hb, Hfull, N.eqb_refl. unfold sem_Wait. rewrite Hsem.
    cbn [sem_fault sem_value].
    destruct (N.eqb_spec (N.of_nat k1) 0); [lia|]. subst k1.
    rewrite (IH _ b); try done.
    simpl. f_equal. f_equal. lia.
Qed.

(** An empty ring stays empty while the reader waits. *)
Lemma GetReadBuffer_loop_empty (k : nat) :
  forall (m : sharedMem),
    ReadStart m <= BlockCount m ->
    ReadStart m = WriteEnd m ->
    SemSignal m = mkSem (N.of_nat k) None ->
    GetReadBuffer_loop (S k) m = Park sSignal (set_SemSignal (mkSem 0 None) m).
Proof.
  induction k as [|k IH]; intros m Hle Hempty Hsem.
  - simpl. destruct (N.ltb_spec (BlockCount m) (ReadStart m)); [lia|].
    rewrite Hempty, N.eqb_refl. unfold sem_Wait. rewrite Hsem; simpl.
    change (N.of_nat 0) with 0 in Hsem. by rewrite <- Hsem, set_SemSignal_same.
  - remember (S k) as k1 eqn:Hk1.
    cbn [GetReadBuffer_loop LoadUint32].
    destruct (N.ltb_spec (BlockCount m) (ReadStart m)); [lia|].
    rewrite Hempty, N.eqb_refl. unfold sem_Wait. rewrite Hsem.
    cbn [sem_fault sem_value].
    destruct (N.eqb_spec (N.of_nat k1) 0); [lia|]. subst k1.
    rewrite IH; try done.
    simpl. f_equal. f_equal. lia.
Qed.

(** ** Acquiring a block *)

(** [GetWriteBuffer] run by one thread, in closed form. *)
Lemma GetWriteBuffer_sequential
    (rw : ReadWriteCloser) (m : sharedMem) (i : N) (b : sharedBlock) :
  closed rw = 0 ->
  WriteStart m = i ->
  i <= BlockCount m ->
  block_at i m = Some b ->
  BlockSize m <= maxData ->
  GetWriteBuffer rw m =
    (if Next b =? ReadEnd m then
       match sem_fault (SemAvail m) with
       | Some c => Ret (inr (Errno c)) m
       | None => Park sAvail (set_SemAvail (mkSem 0 None) m)
       end
     else Ret (inl (mkBuffer i true 0 (N.to_nat (BlockSize m))))
              (set_WriteStart (Next b) m)).
Proof.
  intros Hopen Hi Hle Hb Hsize. subst i.
  unfold GetWriteBuffer. rewrite Hopen. cbn [N.eqb negb].
  destruct (N.eqb_spec (Next b) (ReadEnd m)) as [Hfull|Hfree].
  - destruct (SemAvail m) as [v [c|]] eqn:Hsem.
    + remember (S (N.to_nat v)) as k. destruct k; [lia|].
      cbn [GetWriteBuffer_loop LoadUint32 sem_fault].
      destruct (N.ltb_spec (BlockCount m) (WriteStart m)); [lia|].
      rewrite Hb, Hfull, N.eqb_refl. unfold sem_Wait. by rewrite Hsem.
    + cbn [sem_value sem_fault].
      rewrite (GetWriteBuffer_loop_full _ m b); try done.
      by rewrite N2Nat.id.
  - remember (N.to_nat (sem_value (SemAvail m))) as k.
    cbn [GetWriteBuffer_loop LoadUint32].
    destruct (N.ltb_spec (BlockCount m) (WriteStart m)); [lia|].
    rewrite Hb. destruct (N.eqb_spec (Next b) (ReadEnd m)); [done|].
    unfold CompareAndSwapUint32. cbn [LoadUint32 StoreUint32].
    rewrite N.eqb_refl. cbn [bind set_WriteStart BlockSize].
    by destruct (N.ltb_spec maxData (BlockSize m)); [lia|].
Qed.

(** C4. Writer-acquire protocol.  On an open endpoint whose [WriteStart]
    is a valid index [i], [GetWriteBuffer] takes the waiting branch exactly
    when [block[i].Next == ReadEnd]: it then waits on [SemAvail] and, each
    time a token lets it through, retries with the ring unchanged, so it
    consumes every token and sleeps on [SemAvail] (or returns the
    semaphore's error).  Otherwise its compare-and-swap of [WriteStart]
    from [i] to [block[i].Next] succeeds and it returns a write lease on
    block [i]: empty payload slice of capacity [BlockSize], direction
    tag set. *)
Theorem GetWriteBuffer_protocol
    (rw : ReadWriteCloser) (m : sharedMem) (i : N) (b : sharedBlock) :
  closed rw = 0 ->
  WriteStart m = i ->
  i <= BlockCount m ->
  block_at i m = Some b ->
  BlockSize m <= maxData ->
  GetWriteBuffer rw m =
    (if Next b =? ReadEnd m then
       match sem_fault (SemAvail m) with
       | Some c => Ret (inr (Errno c)) m
       | None => Park sAvail (set_SemAvail (mkSem 0 None) m)
       end
     else Ret (inl (mkBuffer i true 0 (N.to_nat (BlockSize m))))
              (set_WriteStart (Next b) m))
  /\ (forall (fuel : nat) (s : Semaphore),
        Next b = ReadEnd m ->
        sem_Wait (SemAvail m) = Acquired s ->
        GetWriteBuffer_loop (S fuel) m = GetWriteBuffer_loop fuel (set_SemAvail s m))
  /\ CompareAndSwapUint32 pWriteStart i (Next b) m
     = (true, set_WriteStart (Next b) m).
Proof.
  intros Hopen Hi Hle Hb Hsize. split; [|split].
  - by apply GetWriteBuffer_sequential.
  - intros fuel s Hfull Hwait. subst i.
    cbn [GetWriteBuffer_loop LoadUint32].
    destruct (N.ltb_spec (BlockCount m) (WriteStart m)); [lia|].
    by rewrite Hb, Hfull, N.eqb_refl, Hwait.
  - subst i. unfold CompareAndSwapUint32. cbn [LoadUint32 StoreUint32].
    by rewrite N.eqb_refl.
Qed.

(** [GetReadBuffer] run by one thread, in closed form. *)
Lemma GetReadBuffer_sequential
    (rw : ReadWriteCloser) (m : sharedMem) (i : N) (b : sharedBlock) :
  closed rw = 0 ->
  ReadStart m = i ->
  i <= BlockCount m ->
  block_at i m = Some b ->
  Size b <= BlockSize m ->
  BlockSize m <= maxData ->
  GetReadBuffer rw m =
    (if i =? WriteEnd m then
       match sem_fault (SemSignal m) with
       | Some c => Ret (inr (Errno c)) m
       | None => Park sSignal (set_SemSignal (mkSem 0 None) m)
       end
     else Ret (inl (mkBuffer i false (N.to_nat (Size b)) (N.to_nat (BlockSize m))))
              (set_ReadStart (Next b) m)).
Proof.
  intros Hopen Hi Hle Hb Hsz Hsize. subst i.
  unfold GetReadBuffer. rewrite Hopen. cbn [N.eqb negb].
  destruct (N.eqb_spec (ReadStart m) (WriteEnd m)) as [Hempty|Hsome].
  - destruct (SemSignal m) as [v [c|]] eqn:Hsem.
    + remember (S (N.to_nat v)) as k. destruct k; [lia|].
      cbn [GetReadBuffer_loop LoadUint32 sem_fault].
      destruct (N.ltb_spec (BlockCount m) (ReadStart m)); [lia|].
      rewrite Hempty, N.eqb_refl. unfold sem_Wait. by rewrite Hsem.
    + cbn [sem_value sem_fault].
      rewrite (GetReadBuffer_loop_empty _ m); try done.
      by rewrite N2Nat.id.
  - remember (N.to_nat (sem_value (SemSignal m))) as k.
    cbn [GetReadBuffer_loop LoadUint32].
    destruct (N.ltb_spec (BlockCount m) (ReadStart m)); [lia|].
    destruct (N.eqb_spec (ReadStart m) (WriteEnd m)); [done|].
    rewrite Hb. unfold CompareAndSwapUint32. cbn [LoadUint32 StoreUint32].
    rewrite N.eqb_refl. cbn [bind].
    change (block_at (ReadStart m) (set_ReadStart (Next b) m))
      with (block_at (ReadStart m) m).
    rewrite Hb. cbn [set_ReadStart BlockSize].
    destruct (N.ltb_spec (BlockSize m) (Size b)); [lia|].
    by destruct (N.ltb_spec maxData (BlockSize m)); [lia|].
Qed.

(** C5. Reader-acquire protocol.  On an open endpoint whose [ReadStart]
    is a valid index [i], [GetReadBuffer] takes the waiting branch exactly
    when [i == WriteEnd]: it then waits on [SemSignal] and retries with
    the ring unchanged, so it consumes every token and sleeps on
    [SemSignal] (or returns the semaphore's error).  Otherwise its
    compare-and-swap of [ReadStart] from [i] to [block[i].Next] succeeds
    and it returns a read lease on block [i] whose payload slice is the
    block's payload cut to [block[i].Size]. *)
Theorem GetReadBuffer_protocol
    (rw : ReadWriteCloser) (m : sharedMem) (i : N) (b : sharedBlock) :
  closed rw = 0 ->
  ReadStart m = i ->
  i <= BlockCount m ->
  block_at i m = Some b ->
  Size b <= BlockSize m ->
  BlockSize m <= maxData ->
  GetReadBuffer rw m =
    (if i =? WriteEnd m then
       match sem_fault (SemSignal m) with
       | Some c => Ret (inr (Errno c)) m
       | None => Park sSignal (set_SemSignal (mkSem 0 None) m)
       end
     else Ret (inl (mkBuffer i false (N.to_nat (Size b)) (N.to_nat (BlockSize m))))
              (set_ReadStart (Next b) m))
  /\ (forall (fuel : nat) (s : Semaphore),
        i = WriteEnd m ->
        sem_Wait (SemSignal m) = Acquired s ->
        GetReadBuffer_loop (S fuel) m = GetReadBuffer_loop fuel (set_SemSignal s m))
  /\ CompareAndSwapUint32 pReadStart i (Next b) m
     = (true, set_ReadStart (Next b) m)
  /\ Data (mkBuffer i false (N.to_nat (Size b)) (N.to_nat (BlockSize m)))
          (set_ReadStart (Next b) m)
     = take (N.to_nat (Size b)) (payload b).
Proof.
  intros Hopen Hi Hle Hb Hsz Hsize. split; [|split; [|split]].
  - by apply GetReadBuffer_sequential.
  - intros fuel s Hempty Hwait. subst i.
    cbn [GetReadBuffer_loop LoadUint32].
    destruct (N.ltb_spec (BlockCount m) (ReadStart m)); [lia|].
    by rewrite Hempty, N.eqb_refl, Hwait.
  - subst i. unfold CompareAndSwapUint32. cbn [LoadUint32 StoreUint32].
    by rewrite N.eqb_refl.
  - subst i. unfold Data. cbn [block Data_len].
    change (block_at (ReadStart m) (set_ReadStart (Next b) m))
      with (block_at (ReadStart m) m).
    by rewrite Hb.
Qed.

(** ** Corrupt indices *)

Lemma with_block_Some (i : N) (f : sharedBlock -> sharedBlock) (m m1 : sharedMem) :
  with_block i f m = Some m1 ->
  exists b, block_at i m = Some b /\ m1 = store_block i (f b) m.
Proof.
  unfold with_block. destruct (block_at i m) as [b|]; [|done].
  intros [= <-]. by exists b.
Qed.

Lemma store_block_length (i : N) (b : sharedBlock) (m : sharedMem) :
  length (blocks (store_block i b m)) = length (blocks m).
Proof. unfold store_block; simpl. apply length_insert. Qed.






(** ** A closed endpoint *)

Lemma Close_closed (munmap : option error) (rw : ReadWriteCloser) :
  (closed (snd (Close munmap rw)) =? 0) = false.
Proof.
  unfold Close. destruct (N.eqb_spec (closed rw) 0) as [H|H]; simpl; [done|].
  by apply N.eqb_neq.
Qed.

(** C9. Once [Close] has run, whatever [unix.Munmap] answered, every
    buffer operation of the endpoint fails with [ErrClosedPipe] and leaves
    the shared segment as it was, and so does every stream operation:
    [Read] and [Write] return 0 bytes and [ErrClosedPipe], [ReadFrom] and
    [WriteTo] return 0 bytes and [ErrClosedPipe] without touching their
    source or sink. *)
Theorem closed_endpoint_rejects
    {R W : Type} `{Reader R} `{Writer W}
    (munmap : option error) (rw : ReadWriteCloser) (m : sharedMem)
    (buf : Buffer) (p : list byte) (r : R) (w : W) (fuel : nat) :
  let rw' := snd (Close munmap rw) in
  GetReadBuffer rw' m = Ret (inr ErrClosedPipe) m
  /\ SendReadBuffer rw' buf m = Ret (Some ErrClosedPipe) m
  /\ GetWriteBuffer rw' m = Ret (inr ErrClosedPipe) m
  /\ SendWriteBuffer rw' buf m = Ret (O, Some ErrClosedPipe) m
  /\ Read rw' p m = Ret (O, Some ErrClosedPipe, p) m
  /\ Write rw' p m = Ret (O, Some ErrClosedPipe) m
  /\ ReadFrom (S fuel) rw' r m = Ret (0%Z, Some ErrClosedPipe, r) m
  /\ WriteTo (S fuel) rw' w m = Ret (0%Z, Some ErrClosedPipe, w) m.
Proof.
  intros rw'. pose proof (Close_closed munmap rw) as Hc. fold rw' in Hc.
  assert (Hgr : GetReadBuffer rw' m = Ret (inr ErrClosedPipe) m)
    by (unfold GetReadBuffer; by rewrite Hc).
  assert (Hgw : GetWriteBuffer rw' m = Ret (inr ErrClosedPipe) m)
    by (unfold GetWriteBuffer; by rewrite Hc).
  repeat split; try done.
  - unfold SendReadBuffer. by rewrite Hc.
  - unfold SendWriteBuffer. by rewrite Hc.
  - unfold Read. by rewrite Hgr.
  - unfold Write. by rewrite Hgw.
  - unfold ReadFrom. cbn [ReadFrom_loop]. by rewrite Hgw.
  - unfold WriteTo. cbn [WriteTo_loop]. by rewrite Hgr.
Qed.

(** ** Releasing a block *)

Lemma filter_insert_drop {A : Type} (P : A -> Prop) `{!forall x, Decision (P x)}
    (l : list A) :
  forall (i : nat) (x y : A),
    l !! i = Some x -> P x -> ~ P y ->
    S (length (filter P (<[i:=y]> l))) = length (filter P l).
Proof.
  induction l as [|a l IH]; intros i x y Hi Hx Hy; [done|].
  destruct i as [|i]; simpl in *.
  - injection Hi as ->. rewrite !filter_cons.
    destruct (decide (P y)); [done|]. by destruct (decide (P x)).
  - rewrite !filter_cons. destruct (decide (P a)); simpl;
      by rewrite <- (IH i x y).
Qed.

Lemma pending_clear (f : doneflag) (j : N) (c : sharedBlock) (m : sharedMem) :
  block_at j m = Some c ->
  done_get f c = 1 ->
  S (pending f (store_block j (done_set f 0 c) m)) = pending f m.
Proof.
  intros Hc H1. unfold pending, store_block; simpl.
  apply (filter_insert_drop _ _ _ c); try done.
  by destruct f.
Qed.

Lemma pending_le (f : doneflag) (m : sharedMem) :
  (pending f m <= length (blocks m))%nat.
Proof. apply length_filter. Qed.

Lemma ring_ok_store (j : N) (c c' : sharedBlock) (m : sharedMem) :
  ring_ok m -> Next c' < BlockCount m -> Prev c' < BlockCount m ->
  ring_ok (store_block j c' m).
Proof.
  intros [Hn Hall] Hc' Hp. split; simpl.
  - by rewrite length_insert.
  - by apply Forall_insert.
Qed.

Lemma ring_ok_block (j : N) (c : sharedBlock) (m : sharedMem) :
  ring_ok m -> block_at j m = Some c ->
  Next c < BlockCount m /\ Prev c < BlockCount m.
Proof.
  intros [_ Hall] Hc. by eapply (Forall_lookup_1 _ _ _ _ Hall Hc).
Qed.

Lemma ring_ok_lookup (j : N) (m : sharedMem) :
  ring_ok m -> j < BlockCount m -> exists c, block_at j m = Some c.
Proof.
  intros [Hn _] Hj. unfold block_at.
  destruct (lookup_lt_is_Some_2 (blocks m) (N.to_nat j)) as [c Hc]; [lia|].
  by exists c.
Qed.

(** The release loop of the writer on a well-formed ring with a sound
    [SemSignal]: it returns without error, it is the walk of the
    specification, and it posts once for every position equal to
    [ReadStart]. *)
Lemma SendWriteBuffer_loop_advance (fuel : nat) :
  forall (len : nat) (m : sharedMem),
    ring_ok m ->
    WriteEnd m < BlockCount m ->
    sem_fault (SemSignal m) = None ->
    (pending fDoneWrite m < fuel)%nat ->
    exists (js : list N) (m' : sharedMem),
      SendWriteBuffer_loop fuel len m = Ret (len, None) m'
      /\ writer_advance m js m'
      /\ sem_fault (SemSignal m') = None
      /\ sem_value (SemSignal m')
         = sem_value (SemSignal m)
           + N.of_nat (length (filter (fun j => j = ReadStart m) js)).
Proof.
  induction fuel as [|fuel IH]; intros len m Hok Hend Hsem Hfuel; [lia|].
  destruct (ring_ok_lookup _ _ Hok Hend) as [c Hc].
  cbn [SendWriteBuffer_loop LoadUint32].
  destruct (N.ltb_spec (BlockCount m) (WriteEnd m)); [lia|].
  unfold CompareAndSwapDone. rewrite Hc. cbn [done_get done_set].
  destruct (N.eqb_spec (DoneWrite c) 1) as [Hdone|Hdone].
  - rewrite (block_at_store_eq _ _ c) by done.
    unfold CompareAndSwapUint32.
    cbn [LoadUint32 StoreUint32 store_block set_blocks WriteEnd set_DoneWrite Next snd].
    rewrite N.eqb_refl. cbn [snd].
    fold (store_block (WriteEnd m) (set_DoneWrite 0 c) m).
    set (m1 := set_WriteEnd (Next c) (store_block (WriteEnd m) (set_DoneWrite 0 c) m)).
    change (ReadStart m1) with (ReadStart m).
    destruct (ring_ok_block _ _ _ Hok Hc) as [Hnext Hprev].
    assert (Hok1 : ring_ok m1) by (by apply (ring_ok_store _ c)).
    assert (Hpend : S (pending fDoneWrite m1) = pending fDoneWrite m)
      by apply (pending_clear fDoneWrite _ _ _ Hc Hdone).
    destruct (N.eqb_spec (WriteEnd m) (ReadStart m)) as [Hwake|Hwake].
    + unfold sem_Post. change (SemSignal m1) with (SemSignal m). rewrite Hsem.
      destruct (IH len (post_SemSignal m1)) as (js & m' & Hrun & Hadv & Hf & Hv);
        [done|done|done|unfold pending in *; simpl in *; lia|].
      exists (WriteEnd m :: js), m'. split; [exact Hrun|]. split; [|split; [done|]].
      * eapply writer_step; [done..|]. cbn zeta. fold m1.
        by destruct (N.eqb_spec (WriteEnd m) (ReadStart m)).
      * rewrite Hv, filter_cons. cbn [post_SemSignal set_SemSignal SemSignal sem_value].
        change (ReadStart m1) with (ReadStart m).
        destruct (decide (WriteEnd m = ReadStart m)); [|done].
        change (SemSignal m1) with (SemSignal m). simpl length. lia.
    + destruct (IH len m1) as (js & m' & Hrun & Hadv & Hf & Hv);
        [done|done|done|lia|].
      exists (WriteEnd m :: js), m'. split; [exact Hrun|]. split; [|split; [done|]].
      * eapply writer_step; [done..|]. cbn zeta. fold m1.
        by destruct (N.eqb_spec (WriteEnd m) (ReadStart m)).
      * rewrite Hv, filter_cons.
        change (ReadStart m1) with (ReadStart m).
        by destruct (decide (WriteEnd m = ReadStart m)).
  - exists [], m. split; [done|]. split; [by eapply writer_stop|].
    split; [done|]. simpl. lia.
Qed.

Lemma same_data_refl (m : sharedMem) : same_data m m.
Proof. repeat split; try done. intros i b Hb. by exists b. Qed.

Lemma same_data_trans (m1 m2 m3 : sharedMem) :
  same_data m1 m2 -> same_data m2 m3 -> same_data m1 m3.
Proof.
  intros (Hc1 & Hs1 & Hl1 & H1) (Hc2 & Hs2 & Hl2 & H2).
  repeat split; try congruence.
  intros i b Hb. destruct (H1 i b Hb) as (b2 & Hb2 & ? & ? & ? & ? & ?).
  destruct (H2 i b2 Hb2) as (b3 & Hb3 & ? & ? & ? & ? & ?).
  exists b3. repeat split; congruence.
Qed.

Lemma same_data_done (f : doneflag) (j v : N) (c : sharedBlock) (m : sharedMem) :
  block_at j m = Some c ->
  same_data m (store_block j (done_set f v c) m).
Proof.
  intros Hc. repeat split; try done.
  - apply store_block_length.
  - intros i b Hb. destruct (decide (j = i)) as [->|Hne].
    + rewrite (block_at_store_eq _ _ c) by done.
      eexists; split; [done|]. assert (b = c) as -> by congruence.
      by destruct f.
    + rewrite block_at_store_ne by done. by exists b.
Qed.

Lemma same_data_header (m m' : sharedMem) :
  BlockCount m' = BlockCount m -> BlockSize m' = BlockSize m ->
  blocks m' = blocks m -> same_data m m'.
Proof.
  intros Hc Hs Hb. repeat split; try done; [by rewrite Hb|].
  intros i b Hi. exists b. unfold block_at in *. by rewrite Hb.
Qed.

Lemma same_data_ring_ok (m m' : sharedMem) :
  same_data m m' -> ring_ok m -> ring_ok m'.
Proof.
  intros (Hc & _ & Hl & Hd) [Hn Hall]. split; [congruence|].
  apply Forall_lookup. intros k b' Hb'. rewrite Hc.
  destruct (lookup_lt_is_Some_2 (blocks m) k) as [b Hb].
  { apply lookup_lt_Some in Hb'. lia. }
  destruct (Hd (N.of_nat k) b) as (b'' & Hb'' & Hnx & Hpv & _).
  { unfold block_at. by rewrite Nat2N.id. }
  unfold block_at in Hb''. rewrite Nat2N.id in Hb''.
  assert (b'' = b') as -> by congruence.
  rewrite Hnx, Hpv. by apply (Forall_lookup_1 _ _ _ _ Hall Hb).
Qed.

(** The release loops change no link, size, flag byte or payload. *)
Lemma SendWriteBuffer_loop_frame (fuel : nat) :
  forall (len : nat) (m m' : sharedMem) (r : nat * option error),
    SendWriteBuffer_loop fuel len m = Ret r m' ->
    fst r = len /\ same_data m m'.
Proof.
  induction fuel as [|fuel IH]; intros len m m' r; [done|].
  cbn [SendWriteBuffer_loop LoadUint32].
  destruct (N.ltb_spec (BlockCount m) (WriteEnd m)).
  { intros [= <- <-]. split; [done|apply same_data_refl]. }
  unfold CompareAndSwapDone.
  destruct (block_at (WriteEnd m) m) as [c|] eqn:Hc; [|done].
  destruct (N.eqb_spec (done_get fDoneWrite c) 1) as [Hdone|Hdone].
  - rewrite (block_at_store_eq _ _ c) by done.
    set (m1 := store_block (WriteEnd m) (done_set fDoneWrite 0 c) m).
    assert (H1 : same_data m m1) by (by apply same_data_done).
    set (m2 := snd (CompareAndSwapUint32 pWriteEnd (WriteEnd m)
                      (Next (done_set fDoneWrite 0 c)) m1)).
    assert (H2 : same_data m1 m2).
    { unfold m2, CompareAndSwapUint32.
      destruct (LoadUint32 pWriteEnd m1 =? WriteEnd m);
        [by apply same_data_header|apply same_data_refl]. }
    destruct (WriteEnd m =? ReadStart m2).
    + destruct (sem_Post (SemSignal m2)) as [[e|] s] eqn:Hpost.
      * intros [= <- <-]. split; [done|].
        eapply same_data_trans; [exact H1|]. eapply same_data_trans; [exact H2|].
        by apply same_data_header.
      * intros Hrun. apply IH in Hrun as [-> Hrun]. split; [done|].
        eapply same_data_trans; [exact H1|]. eapply same_data_trans; [exact H2|].
        eapply same_data_trans; [|exact Hrun]. by apply same_data_header.
    + intros Hrun. apply IH in Hrun as [-> Hrun]. split; [done|].
      eapply same_data_trans; [exact H1|]. by eapply same_data_trans.
  - intros [= <- <-]. split; [done|apply same_data_refl].
Qed.

Lemma writer_advance_stops (m m' : sharedMem) (js : list N) :
  writer_advance m js m' ->
  exists c, block_at (WriteEnd m') m' = Some c /\ DoneWrite c <> 1.
Proof. induction 1; [by exists c|done]. Qed.

(** [SendWriteBuffer] on a well-formed ring is the walk of the
    specification started after the two stores. *)
Lemma SendWriteBuffer_walk
    (rw : ReadWriteCloser) (buf : Buffer) (m : sharedMem) :
  closed rw = 0 ->
  write buf = true ->
  ring_ok m ->
  WriteEnd m < BlockCount m ->
  block buf < BlockCount m ->
  sem_fault (SemSignal m) = None ->
  exists (m1 : sharedMem) (js : list N) (m' : sharedMem),
    with_block (block buf)
      (fun b => set_DoneWrite 1 (set_Size (N.of_nat (Data_len buf)) b)) m = Some m1
    /\ SendWriteBuffer rw buf m = Ret (Data_len buf, None) m'
    /\ writer_advance m1 js m'
    /\ sem_value (SemSignal m')
       = sem_value (SemSignal m)
         + N.of_nat (length (filter (fun j => j = ReadStart m) js)).
Proof.
  intros Hopen Hdir Hok Hend Hblk Hsem.
  destruct (ring_ok_lookup _ _ Hok Hblk) as [b Hb].
  destruct (ring_ok_block _ _ _ Hok Hb) as [Hnext Hprev].
  set (b1 := set_DoneWrite 1 (set_Size (N.of_nat (Data_len buf)) b)).
  set (m1 := store_block (block buf) b1 m).
  assert (Hok1 : ring_ok m1) by (by apply (ring_ok_store _ b)).
  destruct (SendWriteBuffer_loop_advance (S (length (blocks m1))) (Data_len buf) m1)
    as (js & m' & Hrun & Hadv & Hf & Hv); try done.
  { pose proof (pending_le fDoneWrite m1). lia. }
  exists m1, js, m'. split; [|split; [|split; [done|exact Hv]]].
  - unfold with_block. by rewrite Hb.
  - unfold SendWriteBuffer, StoreDone, with_block.
    rewrite Hopen, Hdir, Hb. cbn [N.eqb negb].
    rewrite (block_at_store_eq _ _ b) by done.
    replace (store_block (block buf)
               (done_set fDoneWrite 1 (set_Size (N.of_nat (Data_len buf)) b))
               (store_block (block buf) (set_Size (N.of_nat (Data_len buf)) b) m))
      with m1; [exact Hrun|].
    unfold m1, store_block; simpl. by rewrite list_insert_insert_eq.
Qed.

(** C6. Writer-release on a well-formed ring with a sound [SemSignal].
    [SendWriteBuffer] on a write lease stores the payload length in
    [Size] and 1 in [DoneWrite] of the leased block, then runs the walk of
    the specification from that segment: it moves [WriteEnd] over the
    blocks whose [DoneWrite] is 1, clearing each by the compare-and-swap,
    and returns the payload length without error at the first block whose
    [DoneWrite] is not 1.  [SemSignal] receives one post for every
    position [j] it moved [WriteEnd] past with [j == ReadStart], and no
    other. *)
Theorem SendWriteBuffer_release
    (rw : ReadWriteCloser) (buf : Buffer) (m : sharedMem) :
  closed rw = 0 ->
  write buf = true ->
  ring_ok m ->
  WriteEnd m < BlockCount m ->
  block buf < BlockCount m ->
  sem_fault (SemSignal m) = None ->
  exists (m1 : sharedMem) (js : list N) (m' : sharedMem),
    with_block (block buf)
      (fun b => set_DoneWrite 1 (set_Size (N.of_nat (Data_len buf)) b)) m = Some m1
    /\ SendWriteBuffer rw buf m = Ret (Data_len buf, None) m'
    /\ writer_advance m1 js m'
    /\ (exists c, block_at (WriteEnd m') m' = Some c /\ DoneWrite c <> 1)
    /\ sem_value (SemSignal m')
       = sem_value (SemSignal m)
         + N.of_nat (length (filter (fun j => j = ReadStart m) js)).
Proof.
  intros Hopen Hdir Hok Hend Hblk Hsem.
  destruct (SendWriteBuffer_walk rw buf m) as (m1 & js & m' & H1 & H2 & H3 & H4);
    try done.
  exists m1, js, m'. repeat split; try done.
  by eapply writer_advance_stops.
Qed.

(** The release loop of the reader on a well-formed ring with a sound
    [SemAvail]. *)
Lemma SendReadBuffer_loop_advance (fuel : nat) :
  forall (m : sharedMem),
    ring_ok m ->
    ReadEnd m < BlockCount m ->
    sem_fault (SemAvail m) = None ->
    (pending fDoneRead m < fuel)%nat ->
    exists (bs : list sharedBlock) (m' : sharedMem),
      SendReadBuffer_loop fuel m = Ret None m'
      /\ reader_advance m bs m'
      /\ sem_fault (SemAvail m') = None
      /\ sem_value (SemAvail m')
         = sem_value (SemAvail m)
           + N.of_nat (length (filter (fun b => Prev b = WriteStart m) bs)).
Proof.
  induction fuel as [|fuel IH]; intros m Hok Hend Hsem Hfuel; [lia|].
  destruct (ring_ok_lookup _ _ Hok Hend) as [c Hc].
  cbn [SendReadBuffer_loop LoadUint32].
  destruct (N.ltb_spec (BlockCount m) (ReadEnd m)); [lia|].
  unfold CompareAndSwapDone. rewrite Hc. cbn [done_get done_set].
  destruct (N.eqb_spec (DoneRead c) 1) as [Hdone|Hdone].
  - rewrite (block_at_store_eq _ _ c) by done.
    unfold CompareAndSwapUint32.
    cbn [LoadUint32 StoreUint32 store_block set_blocks ReadEnd set_DoneRead
         Next Prev snd].
    rewrite N.eqb_refl. cbn [snd].
    fold (store_block (ReadEnd m) (set_DoneRead 0 c) m).
    set (m1 := set_ReadEnd (Next c) (store_block (ReadEnd m) (set_DoneRead 0 c) m)).
    change (WriteStart m1) with (WriteStart m).
    destruct (ring_ok_block _ _ _ Hok Hc) as [Hnext Hprev].
    assert (Hok1 : ring_ok m1) by (by apply (ring_ok_store _ c)).
    assert (Hpend : S (pending fDoneRead m1) = pending fDoneRead m)
      by apply (pending_clear fDoneRead _ _ _ Hc Hdone).
    destruct (N.eqb_spec (Prev c) (WriteStart m)) as [Hwake|Hwake].
    + unfold sem_Post. change (SemAvail m1) with (SemAvail m). rewrite Hsem.
      destruct (IH (post_SemAvail m1)) as (bs & m' & Hrun & Hadv & Hf & Hv);
        [done|done|done|unfold pending in *; simpl in *; lia|].
      exists (c :: bs), m'. split; [exact Hrun|]. split; [|split; [done|]].
      * eapply reader_step; [done..|]. cbn zeta. fold m1.
        by destruct (N.eqb_spec (Prev c) (WriteStart m)).
      * rewrite Hv, filter_cons. cbn [post_SemAvail set_SemAvail SemAvail sem_value].
        change (WriteStart m1) with (WriteStart m).
        destruct (decide (Prev c = WriteStart m)); [|done].
        change (SemAvail m1) with (SemAvail m). simpl length. lia.
    + destruct (IH m1) as (bs & m' & Hrun & Hadv & Hf & Hv);
        [done|done|done|lia|].
      exists (c :: bs), m'. split; [exact Hrun|]. split; [|split; [done|]].
      * eapply reader_step; [done..|]. cbn zeta. fold m1.
        by destruct (N.eqb_spec (Prev c) (WriteStart m)).
      * rewrite Hv, filter_cons.
        change (WriteStart m1) with (WriteStart m).
        by destruct (decide (Prev c = WriteStart m)).
  - exists [], m. split; [done|]. split; [by eapply reader_stop|].
    split; [done|]. simpl. lia.
Qed.

Lemma SendReadBuffer_loop_frame (fuel : nat) :
  forall (m m' : sharedMem) (r : option error),
    SendReadBuffer_loop fuel m = Ret r m' -> same_data m m'.
Proof.
  induction fuel as [|fuel IH]; intros m m' r; [done|].
  cbn [SendReadBuffer_loop LoadUint32].
  destruct (N.ltb_spec (BlockCount m) (ReadEnd m)).
  { intros [= <- <-]. apply same_data_refl. }
  unfold CompareAndSwapDone.
  destruct (block_at (ReadEnd m) m) as [c|] eqn:Hc; [|done].
  destruct (N.eqb_spec (done_get fDoneRead c) 1) as [Hdone|Hdone].
  - rewrite (block_at_store_eq _ _ c) by done.
    set (m1 := store_block (ReadEnd m) (done_set fDoneRead 0 c) m).
    assert (H1 : same_data m m1) by (by apply same_data_done).
    set (m2 := snd (CompareAndSwapUint32 pReadEnd (ReadEnd m)
                      (Next (done_set fDoneRead 0 c)) m1)).
    assert (H2 : same_data m1 m2).
    { unfold m2, CompareAndSwapUint32.
      destruct (LoadUint32 pReadEnd m1 =? ReadEnd m);
        [by apply same_data_header|apply same_data_refl]. }
    destruct (Prev (done_set fDoneRead 0 c) =? WriteStart m2).
    + destruct (sem_Post (SemAvail m2)) as [[e|] s] eqn:Hpost.
      * intros [= <- <-].
        eapply same_data_trans; [exact H1|]. eapply same_data_trans; [exact H2|].
        by apply same_data_header.
      * intros Hrun. apply IH in Hrun.
        eapply same_data_trans; [exact H1|]. eapply same_data_trans; [exact H2|].
        eapply same_data_trans; [|exact Hrun]. by apply same_data_header.
    + intros Hrun. apply IH in Hrun.
      eapply same_data_trans; [exact H1|]. by eapply same_data_trans.
  - intros [= <- <-]. apply same_data_refl.
Qed.

Lemma reader_advance_stops (m m' : sharedMem) (bs : list sharedBlock) :
  reader_advance m bs m' ->
  exists c, block_at (ReadEnd m') m' = Some c /\ DoneRead c <> 1.
Proof. induction 1; [by exists c|done]. Qed.

(** [SendReadBuffer] on a well-formed ring is the walk of the
    specification started after the store. *)
Lemma SendReadBuffer_walk
    (rw : ReadWriteCloser) (buf : Buffer) (m : sharedMem) :
  closed rw = 0 ->
  write buf = false ->
  ring_ok m ->
  ReadEnd m < BlockCount m ->
  block buf < BlockCount m ->
  sem_fault (SemAvail m) = None ->
  exists (m1 : sharedMem) (bs : list sharedBlock) (m' : sharedMem),
    with_block (block buf) (set_DoneRead 1) m = Some m1
    /\ SendReadBuffer rw buf m = Ret None m'
    /\ reader_advance m1 bs m'
    /\ sem_value (SemAvail m')
       = sem_value (SemAvail m)
         + N.of_nat (length (filter (fun b => Prev b = WriteStart m) bs)).
Proof.
  intros Hopen Hdir Hok Hend Hblk Hsem.
  destruct (ring_ok_lookup _ _ Hok Hblk) as [b Hb].
  destruct (ring_ok_block _ _ _ Hok Hb) as [Hnext Hprev].
  set (m1 := store_block (block buf) (set_DoneRead 1 b) m).
  assert (Hok1 : ring_ok m1) by (by apply (ring_ok_store _ b)).
  destruct (SendReadBuffer_loop_advance (S (length (blocks m1))) m1)
    as (bs & m' & Hrun & Hadv & Hf & Hv); try done.
  { pose proof (pending_le fDoneRead m1). lia. }
  exists m1, bs, m'. split; [|split; [|split; [done|exact Hv]]].
  - unfold with_block. by rewrite Hb.
  - unfold SendReadBuffer, StoreDone, with_block.
    rewrite Hopen, Hdir, Hb. cbn [N.eqb negb]. exact Hrun.
Qed.

(** C7. Reader-release on a well-formed ring with a sound [SemAvail].
    [SendReadBuffer] on a read lease stores 1 in [DoneRead] of the leased
    block, then runs the walk of the specification from that segment: it
    moves [ReadEnd] over the blocks whose [DoneRead] is 1, clearing each
    by the compare-and-swap, and returns without error at the first block
    whose [DoneRead] is not 1.  [SemAvail] receives one post for every
    block [B] it moved [ReadEnd] past with [B.Prev == WriteStart], and no
    other. *)
Theorem SendReadBuffer_release
    (rw : ReadWriteCloser) (buf : Buffer) (m : sharedMem) :
  closed rw = 0 ->
  write buf = false ->
  ring_ok m ->
  ReadEnd m < BlockCount m ->
  block buf < BlockCount m ->
  sem_fault (SemAvail m) = None ->
  exists (m1 : sharedMem) (bs : list sharedBlock) (m' : sharedMem),
    with_block (block buf) (set_DoneRead 1) m = Some m1
    /\ SendReadBuffer rw buf m = Ret None m'
    /\ reader_advance m1 bs m'
    /\ (exists c, block_at (ReadEnd m') m' = Some c /\ DoneRead c <> 1)
    /\ sem_value (SemAvail m')
       = sem_value (SemAvail m)
         + N.of_nat (length (filter (fun b => Prev b = WriteStart m) bs)).
Proof.
  intros Hopen Hdir Hok Hend Hblk Hsem.
  destruct (SendReadBuffer_walk rw buf m) as (m1 & bs & m' & H1 & H2 & H3 & H4);
    try done.
  exists m1, bs, m'. repeat split; try done.
  by eapply reader_advance_stops.
Qed.

(** ** The loop bounds are never exhausted *)

Lemma pending_CompareAndSwapUint32
    (f : doneflag) (p : ringptr) (old new : N) (m : sharedMem) :
  pending f (snd (CompareAndSwapUint32 p old new m)) = pending f m.
Proof.
  unfold CompareAndSwapUint32.
  destruct (LoadUint32 p m =? old); [|done]. by destruct p.
Qed.

Lemma GetWriteBuffer_loop_returns (k : nat) :
  forall m : sharedMem,
    sem_value (SemAvail m) <= N.of_nat k ->
    GetWriteBuffer_loop (S k) m <> OutOfFuel.
Proof.
  induction k as [|k IH]; intros m Hk.
  - cbn [GetWriteBuffer_loop LoadUint32].
    destruct (BlockCount m <? WriteStart m); [done|].
    destruct (block_at (WriteStart m) m) as [b|]; [|done].
    destruct (Next b =? ReadEnd m).
    + unfold sem_Wait. destruct (sem_fault (SemAvail m)); [done|].
      by destruct (N.eqb_spec (sem_value (SemAvail m)) 0); [|lia].
    + unfold CompareAndSwapUint32. cbn [LoadUint32]. by rewrite N.eqb_refl.
  - remember (S k) as k1 eqn:Hk1. cbn [GetWriteBuffer_loop LoadUint32].
    destruct (BlockCount m <? WriteStart m); [done|].
    destruct (block_at (WriteStart m) m) as [b|]; [|done].
    destruct (Next b =? ReadEnd m).
    + unfold sem_Wait. destruct (sem_fault (SemAvail m)); [done|].
      destruct (N.eqb_spec (sem_value (SemAvail m)) 0); [done|].
      subst k1. apply IH. simpl. lia.
    + unfold CompareAndSwapUint32. cbn [LoadUint32]. by rewrite N.eqb_refl.
Qed.

Lemma GetReadBuffer_loop_returns (k : nat) :
  forall m : sharedMem,
    sem_value (SemSignal m) <= N.of_nat k ->
    GetReadBuffer_loop (S k) m <> OutOfFuel.
Proof.
  induction k as [|k IH]; intros m Hk.
  - cbn [GetReadBuffer_loop LoadUint32].
    destruct (BlockCount m <? ReadStart m); [done|].
    destruct (ReadStart m =? WriteEnd m).
    + unfold sem_Wait. destruct (sem_fault (SemSignal m)); [done|].
      by destruct (N.eqb_spec (sem_value (SemSignal m)) 0); [|lia].
    + destruct (block_at (ReadStart m) m) as [b|]; [|done].
      unfold CompareAndSwapUint32. cbn [LoadUint32]. by rewrite N.eqb_refl.
  - remember (S k) as k1 eqn:Hk1. cbn [GetReadBuffer_loop LoadUint32].
    destruct (BlockCount m <? ReadStart m); [done|].
    destruct (ReadStart m =? WriteEnd m).
    + unfold sem_Wait. destruct (sem_fault (SemSignal m)); [done|].
      destruct (N.eqb_spec (sem_value (SemSignal m)) 0); [done|].
      subst k1. apply IH. simpl. lia.
    + destruct (block_at (ReadStart m) m) as [b|]; [|done].
      unfold CompareAndSwapUint32. cbn [LoadUint32]. by rewrite N.eqb_refl.
Qed.

Lemma SendWriteBuffer_loop_returns (fuel : nat) :
  forall (len : nat) (m : sharedMem),
    (pending fDoneWrite m < fuel)%nat ->
    SendWriteBuffer_loop fuel len m <> OutOfFuel.
Proof.
  induction fuel as [|fuel IH]; intros len m Hfuel; [lia|].
  cbn [SendWriteBuffer_loop LoadUint32].
  destruct (BlockCount m <? WriteEnd m); [done|].
  unfold CompareAndSwapDone.
  destruct (block_at (WriteEnd m) m) as [c|] eqn:Hc; [|done].
  destruct (N.eqb_spec (done_get fDoneWrite c) 1) as [Hdone|]; [|done].
  rewrite (block_at_store_eq _ _ c) by done.
  pose proof (pending_clear fDoneWrite _ _ _ Hc Hdone) as Hp.
  set (m1 := store_block (WriteEnd m) (done_set fDoneWrite 0 c) m) in *.
  pose proof (pending_CompareAndSwapUint32 fDoneWrite pWriteEnd (WriteEnd m)
                (Next (done_set fDoneWrite 0 c)) m1) as Hp2.
  set (m2 := snd (CompareAndSwapUint32 pWriteEnd (WriteEnd m)
                    (Next (done_set fDoneWrite 0 c)) m1)) in *.
  destruct (WriteEnd m =? ReadStart m2).
  - destruct (sem_Post (SemSignal m2)) as [[e|] s]; [done|].
    apply IH. change (pending fDoneWrite (set_SemSignal s m2))
      with (pending fDoneWrite m2). lia.
  - apply IH. lia.
Qed.

Lemma SendReadBuffer_loop_returns (fuel : nat) :
  forall m : sharedMem,
    (pending fDoneRead m < fuel)%nat ->
    SendReadBuffer_loop fuel m <> OutOfFuel.
Proof.
  induction fuel as [|fuel IH]; intros m Hfuel; [lia|].
  cbn [SendReadBuffer_loop LoadUint32].
  destruct (BlockCount m <? ReadEnd m); [done|].
  unfold CompareAndSwapDone.
  destruct (block_at (ReadEnd m) m) as [c|] eqn:Hc; [|done].
  destruct (N.eqb_spec (done_get fDoneRead c) 1) as [Hdone|]; [|done].
  rewrite (block_at_store_eq _ _ c) by done.
  pose proof (pending_clear fDoneRead _ _ _ Hc Hdone) as Hp.
  set (m1 := store_block (ReadEnd m) (done_set fDoneRead 0 c) m) in *.
  pose proof (pending_CompareAndSwapUint32 fDoneRead pReadEnd (ReadEnd m)
                (Next (done_set fDoneRead 0 c)) m1) as Hp2.
  set (m2 := snd (CompareAndSwapUint32 pReadEnd (ReadEnd m)
                    (Next (done_set fDoneRead 0 c)) m1)) in *.
  destruct (Prev (done_set fDoneRead 0 c) =? WriteStart m2).
  - destruct (sem_Post (SemAvail m2)) as [[e|] s]; [done|].
    apply IH. change (pending fDoneRead (set_SemAvail s m2))
      with (pending fDoneRead m2). lia.
  - apply IH. lia.
Qed.

(** The four buffer operations and the two one-block stream operations
    are total: whatever the segment holds, the bound the model gives
    their loops is enough. *)
Lemma buffer_operations_total
    (rw : ReadWriteCloser) (buf : Buffer) (p : list byte) (m : sharedMem) :
  GetWriteBuffer rw m <> OutOfFuel
  /\ GetReadBuffer rw m <> OutOfFuel
  /\ SendWriteBuffer rw buf m <> OutOfFuel
  /\ SendReadBuffer rw buf m <> OutOfFuel
  /\ Write rw p m <> OutOfFuel
  /\ Read rw p m <> OutOfFuel.
Proof.
  assert (Hgw : forall m, GetWriteBuffer rw m <> OutOfFuel).
  { intros m0. unfold GetWriteBuffer. destruct (negb (closed rw =? 0)); [done|].
    pose proof (GetWriteBuffer_loop_returns (N.to_nat (sem_value (SemAvail m0))) m0) as H.
    destruct (GetWriteBuffer_loop _ m0) as [[i|e] m1| | |]; try done.
    - cbn [bind]. by destruct (maxData <? BlockSize m1).
    - exfalso. apply H; [lia|done]. }
  assert (Hgr : forall m, GetReadBuffer rw m <> OutOfFuel).
  { intros m0. unfold GetReadBuffer. destruct (negb (closed rw =? 0)); [done|].
    pose proof (GetReadBuffer_loop_returns (N.to_nat (sem_value (SemSignal m0))) m0) as H.
    destruct (GetReadBuffer_loop _ m0) as [[i|e] m1| | |]; try done.
    - cbn [bind]. destruct (block_at i m1) as [b|]; [|done].
      by destruct ((BlockSize m1 <? Size b) || (maxData <? BlockSize m1)).
    - exfalso. apply H; [lia|done]. }
  assert (Hsw : forall buf m, SendWriteBuffer rw buf m <> OutOfFuel).
  { intros buf0 m0. unfold SendWriteBuffer, StoreDone, with_block.
    destruct (negb (closed rw =? 0)); [done|].
    destruct (negb (write buf0)); [done|].
    destruct (block_at (block buf0) m0) as [b|]; [|done].
    destruct (block_at (block buf0) (store_block _ _ m0)) as [c|]; [|done].
    apply SendWriteBuffer_loop_returns.
    match goal with |- (pending ?f ?x < _)%nat => pose proof (pending_le f x) end.
    lia. }
  assert (Hsr : forall buf m, SendReadBuffer rw buf m <> OutOfFuel).
  { intros buf0 m0. unfold SendReadBuffer, StoreDone, with_block.
    destruct (negb (closed rw =? 0)); [done|].
    destruct (write buf0); [done|].
    destruct (block_at (block buf0) m0) as [b|]; [|done].
    apply SendReadBuffer_loop_returns.
    match goal with |- (pending ?f ?x < _)%nat => pose proof (pending_le f x) end.
    lia. }
  repeat split; try done.
  - unfold Write. specialize (Hgw m).
    destruct (GetWriteBuffer rw m) as [[b|e] m1| | |]; try done. cbn [bind].
    destruct (with_block _ _ m1) as [m2|]; [|done].
    specialize (Hsw (reslice b (Nat.min (Data_cap b) (length p))) m2).
    by destruct (SendWriteBuffer rw _ m2).
  - unfold Read. specialize (Hgr m).
    destruct (GetReadBuffer rw m) as [[b|e] m1| | |]; try done. cbn [bind].
    destruct (block_at (block b) m1) as [blk|]; [|done].
    specialize (Hsr b m1).
    destruct (SendReadBuffer rw b m1) as [[e|] m2| | |]; try done. cbn [bind].
    by destruct (is_eof blk).
Qed.

(** ** The buffer handle *)

Lemma GetWriteBuffer_loop_blocks (fuel : nat) :
  forall (m m' : sharedMem) (r : N + error),
    GetWriteBuffer_loop fuel m = Ret r m' ->
    BlockSize m' = BlockSize m /\ blocks m' = blocks m.
Proof.
  induction fuel as [|fuel IH]; intros m m' r; [done|].
  cbn [GetWriteBuffer_loop LoadUint32].
  destruct (BlockCount m <? WriteStart m); [by intros [= <- <-]|].
  destruct (block_at (WriteStart m) m) as [b|]; [|done].
  destruct (Next b =? ReadEnd m).
  - destruct (sem_Wait (SemAvail m)) as [s| |e]; [|done|by intros [= <- <-]].
    intros Hrun. by apply IH in Hrun.
  - unfold CompareAndSwapUint32.
    destruct (LoadUint32 pWriteStart m =? WriteStart m); [by intros [= <- <-]|].
    intros Hrun. by apply IH in Hrun.
Qed.

Lemma GetReadBuffer_loop_blocks (fuel : nat) :
  forall (m m' : sharedMem) (r : N + error),
    GetReadBuffer_loop fuel m = Ret r m' ->
    BlockSize m' = BlockSize m /\ blocks m' = blocks m.
Proof.
  induction fuel as [|fuel IH]; intros m m' r; [done|].
  cbn [GetReadBuffer_loop LoadUint32].
  destruct (BlockCount m <? ReadStart m); [by intros [= <- <-]|].
  destruct (ReadStart m =? WriteEnd m).
  - destruct (sem_Wait (SemSignal m)) as [s| |e]; [|done|by intros [= <- <-]].
    intros Hrun. by apply IH in Hrun.
  - destruct (block_at (ReadStart m) m) as [b|]; [|done].
    unfold CompareAndSwapUint32.
    destruct (LoadUint32 pReadStart m =? ReadStart m); [by intros [= <- <-]|].
    intros Hrun. by apply IH in Hrun.
Qed.

Lemma GetWriteBuffer_shape
    (rw : ReadWriteCloser) (m m' : sharedMem) (buf : Buffer) :
  GetWriteBuffer rw m = Ret (inl buf) m' ->
  write buf = true /\ Data_len buf = O
  /\ Data_cap buf = N.to_nat (BlockSize m)
  /\ BlockSize m' = BlockSize m /\ blocks m' = blocks m.
Proof.
  unfold GetWriteBuffer. destruct (negb (closed rw =? 0)); [done|].
  destruct (GetWriteBuffer_loop _ m) as [[i|e] m0| | |] eqn:Hloop; try done.
  apply GetWriteBuffer_loop_blocks in Hloop as [Hs Hb]. cbn [bind].
  destruct (maxData <? BlockSize m0); [done|].
  intros [= <- <-]. by rewrite Hs.
Qed.

Lemma GetReadBuffer_shape
    (rw : ReadWriteCloser) (m m' : sharedMem) (buf : Buffer) :
  GetReadBuffer rw m = Ret (inl buf) m' ->
  exists b, block_at (block buf) m = Some b
            /\ write buf = false /\ Data_len buf = N.to_nat (Size b)
            /\ Data_cap buf = N.to_nat (BlockSize m)
            /\ Size b <= BlockSize m
            /\ BlockSize m' = BlockSize m /\ blocks m' = blocks m.
Proof.
  unfold GetReadBuffer. destruct (negb (closed rw =? 0)); [done|].
  destruct (GetReadBuffer_loop _ m) as [[i|e] m0| | |] eqn:Hloop; try done.
  apply GetReadBuffer_loop_blocks in Hloop as [Hs Hb]. cbn [bind].
  destruct (block_at i m0) as [b|] eqn:Hi; [|done].
  destruct (N.ltb_spec (BlockSize m0) (Size b)); [done|].
  destruct (maxData <? BlockSize m0); [done|]. cbn [orb].
  intros [= <- <-]. exists b. cbn [block write Data_len Data_cap].
  unfold block_at in *. rewrite <- Hb, <- Hs. repeat split; try done.
Qed.

Lemma SendWriteBuffer_stores
    (rw : ReadWriteCloser) (buf : Buffer) (m m' : sharedMem)
    (r : nat * option error) :
  closed rw = 0 ->
  write buf = true ->
  SendWriteBuffer rw buf m = Ret r m' ->
  fst r = Data_len buf
  /\ BlockSize m' = BlockSize m
  /\ (ring_ok m -> ring_ok m')
  /\ exists b b', block_at (block buf) m = Some b
                  /\ block_at (block buf) m' = Some b'
                  /\ Size b' = N.of_nat (Data_len buf)
                  /\ Flags b' = Flags b /\ payload b' = payload b.
Proof.
  intros Hopen Hdir. unfold SendWriteBuffer, StoreDone, with_block.
  rewrite Hopen, Hdir. cbn [N.eqb negb].
  destruct (block_at (block buf) m) as [b|] eqn:Hb; [|done].
  rewrite (block_at_store_eq _ _ b) by done.
  intros Hrun. apply SendWriteBuffer_loop_frame in Hrun as [Hn Hsame].
  pose proof Hsame as (_ & Hs & _ & Hd).
  split; [done|]. split; [done|]. split.
  - intros Hok. apply (same_data_ring_ok _ _ Hsame).
    destruct (ring_ok_block _ _ _ Hok Hb) as [Hnext Hprev].
    apply (ring_ok_store _ b); try done. by apply (ring_ok_store _ b).
  - edestruct Hd as (b' & Hb' & _ & _ & Hsz & Hfl & Hpl).
    { apply (block_at_store_eq _ _ (set_Size (N.of_nat (Data_len buf)) b)).
      by apply (block_at_store_eq _ _ b). }
    by exists b, b'.
Qed.

(** C3. The shape of a buffer handle.  A handle that [GetWriteBuffer]
    returns has a payload slice of length 0 and of capacity [BlockSize].
    A handle that [GetReadBuffer] returns has a payload slice as long as
    the [Size] field of its block.  [SendWriteBuffer] on a write lease
    stores the length of the lease's payload slice in [Size] of its block;
    so a read lease acquired afterwards on that block has a payload slice
    as long as the writer's. *)
Theorem buffer_handle_shape :
  (forall (rw : ReadWriteCloser) (m m' : sharedMem) (buf : Buffer),
      GetWriteBuffer rw m = Ret (inl buf) m' ->
      Data_len buf = O /\ Data_cap buf = N.to_nat (BlockSize m))
  /\ (forall (rw : ReadWriteCloser) (m m' : sharedMem) (buf : Buffer),
        GetReadBuffer rw m = Ret (inl buf) m' ->
        exists b, block_at (block buf) m = Some b
                  /\ Data_len buf = N.to_nat (Size b))
  /\ (forall (rw : ReadWriteCloser) (m m' : sharedMem) (wbuf : Buffer)
             (r : nat * option error),
        closed rw = 0 -> write wbuf = true ->
        SendWriteBuffer rw wbuf m = Ret r m' ->
        exists b, block_at (block wbuf) m' = Some b
                  /\ Size b = N.of_nat (Data_len wbuf))
  /\ (forall (rw rw' : ReadWriteCloser) (m m1 m2 : sharedMem)
             (wbuf rbuf : Buffer) (r : nat * option error),
        closed rw = 0 -> write wbuf = true ->
        SendWriteBuffer rw wbuf m = Ret r m1 ->
        GetReadBuffer rw' m1 = Ret (inl rbuf) m2 ->
        block rbuf = block wbuf ->
        Data_len rbuf = Data_len wbuf).
Proof.
  split; [|split; [|split]].
  - intros rw m m' buf Hget.
    by apply GetWriteBuffer_shape in Hget as (_ & ? & ? & _).
  - intros rw m m' buf Hget.
    apply GetReadBuffer_shape in Hget as (b & ? & _ & ? & _). by exists b.
  - intros rw m m' wbuf r Hopen Hdir Hsend.
    apply SendWriteBuffer_stores in Hsend as (_ & _ & _ & b & b' & _ & ? & ? & _);
      try done.
    by exists b'.
  - intros rw rw' m m1 m2 wbuf rbuf r Hopen Hdir Hsend Hget Hsame.
    apply SendWriteBuffer_stores in Hsend as (_ & _ & _ & b & b' & _ & Hb' & Hsz & _);
      try done.
    apply GetReadBuffer_shape in Hget as (c & Hc & _ & Hlen & _).
    rewrite Hsame, Hb' in Hc. injection Hc as <-.
    rewrite Hlen, Hsz. lia.
Qed.

(** ** The stream adaptor *)

Lemma is_eof_set_eof (b : sharedBlock) :
  Flags b <> [] -> is_eof (set_eof b) = true.
Proof.
  unfold is_eof, set_eof, flag_byte. cbn [Flags set_Flags].
  destruct (Flags b) as [|a l]; [done|]. intros _. simpl.
  by destruct a as [|[p|p|]].
Qed.

Lemma is_eof_Flags (b b' : sharedBlock) :
  Flags b' = Flags b -> is_eof b' = is_eof b.
Proof. unfold is_eof, flag_byte. by intros ->. Qed.

(** [Write] when a block can be acquired at once. *)
Lemma Write_block
    (rw : ReadWriteCloser) (p : list byte) (m : sharedMem)
    (i : N) (b : sharedBlock) :
  closed rw = 0 ->
  ring_ok m ->
  WriteStart m = i ->
  block_at i m = Some b ->
  Next b <> ReadEnd m ->
  WriteEnd m < BlockCount m ->
  BlockSize m <= maxData ->
  Flags b <> [] ->
  sem_fault (SemSignal m) = None ->
  let n := Nat.min (N.to_nat (BlockSize m)) (length p) in
  exists (m2 m' : sharedMem) (b' : sharedBlock),
    with_block i (fun c => set_eof (fill (take n p) c)) (set_WriteStart (Next b) m)
      = Some m2
    /\ SendWriteBuffer rw (mkBuffer i true n (N.to_nat (BlockSize m))) m2
       = Ret (n, None) m'
    /\ Write rw p m = Ret (n, None) m'
    /\ block_at i m' = Some b'
    /\ payload b' = take n p ++ drop n (payload b)
    /\ Size b' = N.of_nat n
    /\ is_eof b' = true.
Proof.
  intros Hopen Hok Hi Hb Hfree Hend Hsize Hflags Hsem n.
  assert (Hile : i <= BlockCount m).
  { apply block_at_lt in Hb. destruct Hok as [-> _]. lia. }
  pose proof (GetWriteBuffer_sequential rw m i b Hopen Hi Hile Hb Hsize) as Hget.
  destruct (N.eqb_spec (Next b) (ReadEnd m)); [done|].
  set (m1 := set_WriteStart (Next b) m) in *.
  set (b1 := set_eof (fill (take n p) b)).
  set (m2 := store_block i b1 m1).
  set (buf := mkBuffer i true n (N.to_nat (BlockSize m))).
  destruct (ring_ok_block _ _ _ Hok Hb) as [Hnext Hprev].
  assert (Hok2 : ring_ok m2).
  { by apply (ring_ok_store _ b). }
  destruct (SendWriteBuffer_walk rw buf m2)
    as (m3 & js & m' & _ & Hsend & _); try done.
  { change (BlockCount m2) with (BlockCount m). cbn [buf block].
    apply block_at_lt in Hb. destruct Hok as [-> _]. lia. }
  destruct (SendWriteBuffer_stores rw buf m2 m' _ Hopen eq_refl Hsend)
    as (_ & _ & _ & c & b' & Hc & Hb' & Hsz & Hfl & Hpl).
  assert (c = b1) as ->.
  { cbn [buf block] in Hc. unfold m2 in Hc.
    rewrite (block_at_store_eq _ _ b) in Hc by done. congruence. }
  exists m2, m', b'. split; [|split; [exact Hsend|split; [|split; [exact Hb'|]]]].
  - unfold with_block.
    change (block_at i m1) with (block_at i m). by rewrite Hb.
  - unfold Write. rewrite Hget. cbn [bind block Data_cap].
    unfold with_block. change (block_at i m1) with (block_at i m). rewrite Hb.
    fold n. fold b1. fold m2. unfold reslice. cbn [block write Data_cap].
    fold buf. by rewrite Hsend.
  - split; [|split; [exact Hsz|]].
    + rewrite Hpl. unfold b1, set_eof, fill. cbn [payload set_Flags set_payload].
      rewrite length_take. do 2 f_equal. lia.
    + rewrite (is_eof_Flags _ _ Hfl). by apply is_eof_set_eof.
Qed.


(** When only the block at [WriteEnd] is marked as written, the walk of
    the writer makes exactly one move. *)
Lemma writer_advance_one (m m' : sharedMem) (js : list N) (c d : sharedBlock) :
  block_at (WriteEnd m) m = Some c ->
  DoneWrite c = 1 ->
  Next c <> WriteEnd m ->
  block_at (Next c) m = Some d ->
  DoneWrite d <> 1 ->
  writer_advance m js m' ->
  js = [WriteEnd m]
  /\ m' = (let m1 := set_WriteEnd (Next c)
                       (store_block (WriteEnd m) (set_DoneWrite 0 c) m) in
           if WriteEnd m =? ReadStart m then post_SemSignal m1 else m1).
Proof.
  intros Hc Hdone Hne Hd Hdd Hadv.
  inversion Hadv as [m0 c0 Hc0 Hd0 | m0 m0' c0 js0 Hc0 Hd0 Hrest]; subst.
  { congruence. }
  assert (c0 = c) as -> by congruence.
  cbn zeta in *.
  set (m1 := set_WriteEnd (Next c) (store_block (WriteEnd m) (set_DoneWrite 0 c) m))
    in *.
  assert (H1 : block_at (Next c) m1 = Some d).
  { unfold m1. change (block_at (Next c) (set_WriteEnd ?v ?x))
      with (block_at (Next c) x).
    rewrite block_at_store_ne; [done|congruence]. }
  destruct (WriteEnd m =? ReadStart m).
  - inversion Hrest as [m2 c2 Hc2 Hd2 | m2 m2' c2 js2 Hc2 Hd2 Hrest2]; subst.
    + done.
    + change (block_at (WriteEnd (post_SemSignal m1)) (post_SemSignal m1))
        with (block_at (Next c) m1) in Hc2. congruence.
  - inversion Hrest as [m2 c2 Hc2 Hd2 | m2 m2' c2 js2 Hc2 Hd2 Hrest2]; subst.
    + done.
    + change (block_at (WriteEnd m1) m1) with (block_at (Next c) m1) in Hc2.
      congruence.
Qed.

(** C1. Round trip through the stream adaptor on one block.  On a ring
    at rest with nothing to read (a new segment of at least two blocks is
    one), for a payload [P] of at most [BlockSize] bytes and a slice [q]
    at least as long: [Write(P)] returns [len(P)] without error, and the
    [Read(q)] that follows on the same ring returns [len(P)] and
    [io.EOF], with [P] in the first [len(P)] bytes of [q]. *)
Theorem Write_Read_roundtrip
    (wr rd : ReadWriteCloser) (m : sharedMem) (i : N) (b : sharedBlock)
    (P q : list byte) :
  closed wr = 0 ->
  closed rd = 0 ->
  ring_idle m i b ->
  (length P <= N.to_nat (BlockSize m))%nat ->
  (length P <= length q)%nat ->
  exists (m1 m2 : sharedMem) (q' : list byte),
    Write wr P m = Ret (length P, None) m1
    /\ Read rd q m1 = Ret (length P, Some EOF, q') m2
    /\ q' = P ++ drop (length P) q
    /\ take (length P) q' = P.
Proof.
  intros Hwr Hrd (Hok & Hsize & Hws & Hwe & Hrs & Hre & Hb & Hfl & Hfree & Hne
                  & (d & Hd & Hdd) & HsS & HsA) HP Hq.
  assert (Hilt : i < BlockCount m).
  { apply block_at_lt in Hb. destruct Hok as [-> _]. lia. }
  destruct (Write_block wr P m i b)
    as (mw & m1 & b' & Hfill & Hsend & Hwrite & Hb' & Hpl & Hsz & Heof);
    try done; [by rewrite Hwe|].
  replace (Nat.min (N.to_nat (BlockSize m)) (length P)) with (length P) in * by lia.
  rewrite firstn_all in *.
  (* the segment the write leaves *)
  apply with_block_Some in Hfill as (b0 & Hb0 & ->).
  change (block_at i (set_WriteStart (Next b) m)) with (block_at i m) in Hb0.
  assert (b0 = b) as -> by congruence.
  set (b1 := set_eof (fill P b)) in *.
  set (mw := store_block i b1 (set_WriteStart (Next b) m)) in *.
  set (buf := mkBuffer i true (length P) (N.to_nat (BlockSize m))) in *.
  destruct (ring_ok_block _ _ _ Hok Hb) as [Hnext Hprev].
  assert (Hokw : ring_ok mw) by (by apply (ring_ok_store _ b)).
  destruct (SendWriteBuffer_walk wr buf mw)
    as (ms & js & m1' & Hstore & Hsend' & Hadv & _); try done;
    [change (WriteEnd m < BlockCount m); by rewrite Hwe|].
  assert (m1' = m1) as -> by congruence. clear Hsend'.
  apply with_block_Some in Hstore as (b2 & Hb2 & ->).
  cbn [buf block Data_len] in Hb2, Hadv.
  assert (b2 = b1) as ->.
  { unfold mw in Hb2. rewrite (block_at_store_eq _ _ b) in Hb2 by done. congruence. }
  set (b3 := set_DoneWrite 1 (set_Size (N.of_nat (length P)) b1)) in *.
  set (ms := store_block i b3 mw) in *.
  assert (Hd3 : block_at (Next b) ms = Some d).
  { unfold ms, mw. rewrite !block_at_store_ne by congruence. exact Hd. }
  apply (writer_advance_one ms m1 js b3 d) in Hadv as [_ Hm1]; try done;
    [|unfold ms; change (WriteEnd (store_block i b3 mw)) with (WriteEnd m);
      rewrite Hwe; by apply (block_at_store_eq _ _ b1), (block_at_store_eq _ _ b)
     |change (WriteEnd ms) with (WriteEnd m); by rewrite Hwe].
  change (WriteEnd ms) with (WriteEnd m) in Hm1.
  change (ReadStart ms) with (ReadStart m) in Hm1.
  rewrite Hwe, Hrs, N.eqb_refl in Hm1. cbn zeta in Hm1. cbn [b3 set_DoneWrite set_Size Next b1 set_eof set_Flags fill set_payload] in Hm1.
  (* the read *)
  assert (Hb1r : block_at i m1 = Some b') by exact Hb'.
  assert (Hget := GetReadBuffer_sequential rd m1 i b' Hrd).
  lapply Hget; [clear Hget; intros Hget|by rewrite Hm1].
  lapply Hget; [clear Hget; intros Hget|rewrite Hm1; cbn; lia].
  specialize (Hget Hb1r).
  lapply Hget; [clear Hget; intros Hget|rewrite Hsz, Hm1; cbn; lia].
  lapply Hget; [clear Hget; intros Hget|by rewrite Hm1].
  assert (Hwe1 : WriteEnd m1 = Next b) by (by rewrite Hm1).
  rewrite Hwe1 in Hget.
  destruct (N.eqb_spec i (Next b)) as [Heq|_]; [by symmetry in Heq|].
  set (rbuf := mkBuffer i false (N.to_nat (Size b')) (N.to_nat (BlockSize m1))) in *.
  set (mr := set_ReadStart (Next b') m1) in *.
  assert (Hok1 : ring_ok m1).
  { by destruct (SendWriteBuffer_stores wr buf mw m1 _ Hwr eq_refl Hsend)
      as (_ & _ & Hr & _); apply Hr. }
  destruct (SendReadBuffer_walk rd rbuf mr)
    as (mr1 & bs & m2 & _ & Hrel & _); try done.
  { change (ReadEnd mr) with (ReadEnd m1). change (BlockCount mr) with (BlockCount m1).
    rewrite Hm1. exact Hre. }
  { change (BlockCount mr) with (BlockCount m1). rewrite Hm1. exact Hilt. }
  { change (SemAvail mr) with (SemAvail m1). by rewrite Hm1. }
  exists m1, m2, (P ++ drop (length P) q).
  split; [exact Hwrite|]. split; [|split; [done|by rewrite take_app_length]].
  unfold Read. rewrite Hget. cbn [bind rbuf block Data_len].
  change (block_at i mr) with (block_at i m1). rewrite Hb'.
  rewrite Hsz, Nat2N.id, Nat.min_r by lia.
  fold rbuf. rewrite Hrel. cbn [bind]. rewrite Heof.
  by rewrite Hpl, take_app_length.
Qed.

(** A new segment of at least two blocks is a ring at rest with nothing
    to read. *)
Lemma initShared_idle (blockCount blockSize : N) (nflags : nat) :
  2 <= blockCount -> blockSize <= maxData -> (0 < nflags)%nat ->
  ring_idle (initShared blockCount blockSize nflags) 0
            (initBlock blockCount blockSize nflags 0).
Proof.
  intros Hbc Hbs Hnf.
  assert (Hat : forall j, j < blockCount ->
      block_at j (initShared blockCount blockSize nflags)
      = Some (initBlock blockCount blockSize nflags (N.to_nat j))).
  { intros j Hj. unfold block_at, initShared. cbn [blocks].
    rewrite list_lookup_fmap, lookup_seq_lt by lia. done. }
  assert (H1 : Next (initBlock blockCount blockSize nflags 0) = 1).
  { change (1 mod blockCount = 1). apply N.mod_small. lia. }
  unfold ring_idle. rewrite H1.
  cbn [initShared BlockCount BlockSize WriteStart WriteEnd
    ReadStart ReadEnd SemSignal SemAvail sem_fault].
  split; [|repeat split; try done; try lia].
  - split; unfold initShared; cbn [BlockCount blocks].
    + rewrite length_map, length_seq. lia.
    + apply Forall_fmap, Forall_forall. intros k _. simpl.
      split; apply N.mod_lt; lia.
  - by apply (Hat 0); lia.
  - simpl. by destruct nflags; [lia|].
  - exists (initBlock blockCount blockSize nflags 1). split; [|done].
    by apply (Hat 1); lia.
Qed.

Lemma Write_Read_roundtrip_hello :
  exists (m1 m2 : sharedMem) (q' : list byte),
    Write rw_open hello ring4 = Ret (5%nat, None) m1
    /\ Read rw_open (replicate 16 x00) m1 = Ret (5%nat, Some EOF, q') m2
    /\ q' = hello ++ drop 5 (replicate 16 x00)
    /\ take 5 q' = hello.
Proof.
  apply (Write_Read_roundtrip rw_open rw_open ring4 0 (initBlock 4 64 1 0)
           hello (replicate 16 x00) eq_refl eq_refl).
  - apply initShared_idle; [lia|by vm_compute|lia].
  - vm_compute. lia.
  - vm_compute. lia.
Defined.

(** C10. [ReadFrom] drops the error of the release.  In an iteration
    of [ReadFrom] in which a write buffer was acquired and the source's
    [Read] returned some bytes and a nil error, if [SendWriteBuffer] then
    fails with [putErr], [ReadFrom] returns the byte count accumulated so
    far, these bytes included, and a nil error: [putErr] is not
    returned. *)
Theorem ReadFrom_drops_release_error
    {R : Type} `{Reader R} (fuel : nat) (rw : ReadWriteCloser) (r r' : R)
    (n : Z) (m m1 m2 m3 : sharedMem) (buf : Buffer) (data : list byte)
    (k : nat) (putErr : error) :
  GetWriteBuffer rw m = Ret (inl buf) m1 ->
  reader_Read r (Data_cap buf) = (data, None, r') ->
  (length data <= Data_cap buf)%nat ->
  with_block (block buf) (fun b => clear_eof (fill data b)) m1 = Some m2 ->
  SendWriteBuffer rw (reslice buf (length data)) m2 = Ret (k, Some putErr) m3 ->
  ReadFrom_loop (S fuel) rw r n m
  = Ret (int64_add n (length data), None, r') m3.
Proof.
  intros Hget Hread Hlen Hfill Hsend.
  cbn [ReadFrom_loop]. rewrite Hget. cbn [bind]. rewrite Hread.
  destruct (Nat.ltb_spec (Data_cap buf) (length data)); [lia|].
  destruct (decide (None = Some EOF)) as [|_]; [done|].
  rewrite Hfill, Hsend. done.
Qed.

Lemma ReadFrom_drops_release_error_witness :
  exists m3 : sharedMem,
    SendWriteBuffer rw_open (mkBuffer 0 true 5 64)
      (store_block 0 (clear_eof (fill hello (initBlock 4 64 1 0)))
         (set_WriteStart 1 (set_WriteEnd 5 ring4)))
    = Ret (5%nat, Some ErrInvalidSharedMemory) m3
    /\ ReadFrom 1 rw_open hello (set_WriteEnd 5 ring4) = Ret (5%Z, None, []) m3.
Proof.
  eexists. split.
  - vm_compute. reflexivity.
  - unfold ReadFrom.
    eapply (ReadFrom_drops_release_error 0 rw_open hello [] 0%Z
              (set_WriteEnd 5 ring4) _ _ _ (mkBuffer 0 true 0 64) hello 5
              ErrInvalidSharedMemory).
    + vm_compute. reflexivity.
    + reflexivity.
    + vm_compute. lia.
    + vm_compute. reflexivity.
    + vm_compute. reflexivity.
Defined.

(** ** The theorems at sample inputs *)

Lemma GetWriteBuffer_protocol_witness :
  GetWriteBuffer rw_open ring4
  = Ret (inl (mkBuffer 0 true 0 64)) (set_WriteStart 1 ring4)
  /\ GetWriteBuffer rw_open (initShared 1 64 1) = Park sAvail (initShared 1 64 1).
Proof.
  split.
  - apply (GetWriteBuffer_protocol rw_open ring4 0 (initBlock 4 64 1 0)
             eq_refl eq_refl); [lia|reflexivity|by vm_compute].
  - apply (GetWriteBuffer_protocol rw_open (initShared 1 64 1) 0 (initBlock 1 64 1 0)
             eq_refl eq_refl); [lia|reflexivity|by vm_compute].
Defined.

Lemma GetReadBuffer_protocol_witness :
  GetReadBuffer rw_open ring4 = Park sSignal ring4
  /\ GetReadBuffer rw_open ring4_hello
     = Ret (inl (mkBuffer 0 false 5 64)) (set_ReadStart 1 ring4_hello).
Proof.
  split.
  - apply (GetReadBuffer_protocol rw_open ring4 0 (initBlock 4 64 1 0)
             eq_refl eq_refl); [lia|reflexivity|by vm_compute..].
  - assert (Hb : exists b, block_at 0 ring4_hello = Some b
                           /\ Size b = 5 /\ Next b = 1)
      by (eexists; split; [vm_compute; reflexivity|split; reflexivity]).
    destruct Hb as (b & Hb & Hsz & Hnx).
    destruct (GetReadBuffer_protocol rw_open ring4_hello 0 b eq_refl eq_refl)
      as (Hget & _); [lia|exact Hb|rewrite Hsz; by vm_compute|by vm_compute|].
    rewrite Hget, Hsz, Hnx. reflexivity.
Defined.

Lemma SendWriteBuffer_release_witness :
  let m := set_WriteStart 1 ring4 in
  let buf := mkBuffer 0 true 5 64 in
  exists (m1 : sharedMem) (js : list N) (m' : sharedMem),
    with_block 0 (fun b => set_DoneWrite 1 (set_Size 5 b)) m = Some m1
    /\ SendWriteBuffer rw_open buf m = Ret (5%nat, None) m'
    /\ writer_advance m1 js m'
    /\ (exists c, block_at (WriteEnd m') m' = Some c /\ DoneWrite c <> 1)
    /\ sem_value (SemSignal m')
       = 0 + N.of_nat (length (filter (fun j => j = 0) js)).
Proof.
  intros m buf.
  apply (SendWriteBuffer_release rw_open buf m eq_refl eq_refl);
    [ring_ok_by_computation|by vm_compute..].
Defined.

Lemma SendReadBuffer_release_witness :
  let m := set_ReadStart 1 ring4_hello in
  let buf := mkBuffer 0 false 5 64 in
  exists (m1 : sharedMem) (bs : list sharedBlock) (m' : sharedMem),
    with_block 0 (set_DoneRead 1) m = Some m1
    /\ SendReadBuffer rw_open buf m = Ret None m'
    /\ reader_advance m1 bs m'
    /\ (exists c, block_at (ReadEnd m') m' = Some c /\ DoneRead c <> 1)
    /\ sem_value (SemAvail m')
       = 0 + N.of_nat (length (filter (fun b => Prev b = 1) bs)).
Proof.
  intros m buf.
  apply (SendReadBuffer_release rw_open buf m eq_refl eq_refl);
    [ring_ok_by_computation|by vm_compute..].
Defined.


Lemma buffer_handle_shape_witness :
  (exists (buf : Buffer) (m' : sharedMem),
      GetWriteBuffer rw_open ring4 = Ret (inl buf) m'
      /\ Data_len buf = 0%nat /\ Data_cap buf = 64%nat)
  /\ (exists (rbuf : Buffer) (m1 m2 : sharedMem) (r : nat * option error),
        SendWriteBuffer rw_open (mkBuffer 0 true 5 64) (set_WriteStart 1 ring4)
        = Ret r m1
        /\ GetReadBuffer rw_open m1 = Ret (inl rbuf) m2
        /\ Data_len rbuf = 5%nat).
Proof.
  destruct buffer_handle_shape as (Hw & _ & _ & Hwr). split.
  - eexists _, _. split; [vm_compute; reflexivity|].
    eapply (Hw rw_open ring4). vm_compute. reflexivity.
  - eexists _, _, _, _. split; [vm_compute; reflexivity|].
    split; [vm_compute; reflexivity|].
    eapply (Hwr rw_open rw_open (set_WriteStart 1 ring4) _ _
              (mkBuffer 0 true 5 64) _ _ eq_refl eq_refl).
    + vm_compute. reflexivity.
    + vm_compute. reflexivity.
    + reflexivity.
Defined.

(** * The ring invariant *)

(** ** Indices modulo [BlockCount] *)

Lemma mod_inj_near (bc a b : N) :
  0 < bc -> a <= b -> b < a + bc -> a mod bc = b mod bc -> a = b.
Proof.
  intros Hbc Hab Hlt Heq.
  pose proof (N.div_mod a bc ltac:(lia)) as Ha.
  pose proof (N.div_mod b bc ltac:(lia)) as Hb.
  pose proof (N.mod_lt a bc ltac:(lia)).
  pose proof (N.mod_lt b bc ltac:(lia)).
  rewrite <- Heq in Hb.
  assert (a / bc = b / bc \/ a / bc < b / bc \/ b / bc < a / bc)
    as [E|[E|E]] by lia.
  - rewrite E in Ha. lia.
  - nia.
  - nia.
Qed.

Lemma mod_succ (bc a : N) : (a mod bc + 1) mod bc = (a + 1) mod bc.
Proof. by rewrite N.Div0.add_mod_idemp_l. Qed.

Lemma mod_wrap (bc a : N) : (a + bc) mod bc = a mod bc.
Proof.
  by rewrite <- N.Div0.add_mod_idemp_r, N.Div0.mod_same, N.add_0_r.
Qed.

Lemma mod_pred (bc a : N) :
  0 < bc -> (a mod bc + bc - 1) mod bc = (a + (bc - 1)) mod bc.
Proof.
  intros Hbc. rewrite <- (N.Div0.add_mod_idemp_l a). f_equal.
  generalize (a mod bc). intros x. lia.
Qed.

(** ** Consequences of the invariant *)

Section Arcs.
Context {m : sharedMem} {re rs we ws : N}.
Hypothesis Harcs : ring_arcs m re rs we ws.

Lemma arcs_lookup (c : N) :
  exists b, block_at (c mod BlockCount m) m = Some b.
Proof.
  destruct Harcs. unfold block_at.
  destruct (lookup_lt_is_Some_2 (blocks m) (N.to_nat (c mod BlockCount m)))
    as [b Hb]; [|by exists b].
  pose proof (N.mod_lt c (BlockCount m)). lia.
Qed.

Lemma arcs_ring_ok : ring_ok m.
Proof.
  destruct Harcs. split; [done|].
  apply Forall_lookup. intros k b Hb.
  destruct (arcs_circular0 (N.of_nat k) b) as [-> ->].
  { unfold block_at. by rewrite Nat2N.id. }
  split; apply N.mod_lt; lia.
Qed.

Lemma arcs_Next (c : N) (b : sharedBlock) :
  block_at (c mod BlockCount m) m = Some b ->
  Next b = (c + 1) mod BlockCount m.
Proof.
  destruct Harcs. intros Hb.
  destruct (arcs_circular0 _ _ Hb) as [-> _]. apply mod_succ.
Qed.

Lemma arcs_Prev (c : N) (b : sharedBlock) :
  block_at (c mod BlockCount m) m = Some b ->
  Prev b = (c + (BlockCount m - 1)) mod BlockCount m.
Proof.
  destruct Harcs. intros Hb.
  destruct (arcs_circular0 _ _ Hb) as [_ ->]. by apply mod_pred.
Qed.

(** Two positions less than [BlockCount] apart are different blocks. *)
Lemma arcs_distinct (a b : N) :
  a <= b -> b < a + BlockCount m ->
  a mod BlockCount m = b mod BlockCount m -> a = b.
Proof. destruct Harcs. by apply mod_inj_near. Qed.

(** The ring is full for the writer exactly when all blocks but one
    are outstanding. *)
Lemma arcs_full :
  (ws + 1) mod BlockCount m = re mod BlockCount m <-> ws + 1 = re + BlockCount m.
Proof.
  pose proof Harcs as [].
  split.
  - intros Heq. destruct (decide (ws + 1 = re + BlockCount m)); [done|].
    symmetry in Heq. apply arcs_distinct in Heq; lia.
  - intros ->. apply mod_wrap.
Qed.

(** The ring is empty for the reader exactly when nothing is
    published and unread. *)
Lemma arcs_empty :
  rs mod BlockCount m = we mod BlockCount m <-> rs = we.
Proof.
  pose proof Harcs as [].
  split; [|by intros ->]. intros Heq. apply arcs_distinct in Heq; lia.
Qed.
End Arcs.

(** ** Acquiring under the invariant *)

Lemma ring_arcs_acquire_write (m : sharedMem) (re rs we ws : N) :
  ring_arcs m re rs we ws ->
  ws + 1 < re + BlockCount m ->
  ring_arcs (set_WriteStart ((ws + 1) mod BlockCount m) m) re rs we (ws + 1).
Proof.
  intros [] Hfree. constructor; try done;
    [cbn [BlockCount set_WriteStart]; lia|].
  intros i b Hb Hd. destruct (arcs_DoneWrite0 i b Hb Hd) as (c & ? & ? & ?).
  exists c. repeat split; [done|lia|done].
Qed.

Lemma ring_arcs_acquire_read (m : sharedMem) (re rs we ws : N) :
  ring_arcs m re rs we ws ->
  rs < we ->
  ring_arcs (set_ReadStart ((rs + 1) mod BlockCount m) m) re (rs + 1) we ws.
Proof.
  intros [] Hsome. constructor; try done;
    [cbn [BlockCount set_ReadStart]; lia|].
  intros i b Hb Hd. destruct (arcs_DoneRead0 i b Hb Hd) as (c & ? & ? & ?).
  exists c. repeat split; [done|lia|done].
Qed.

Lemma ring_arcs_drain_SemAvail (m : sharedMem) (re rs we ws : N) (v : N) :
  ring_arcs m re rs we ws ->
  ring_arcs (set_SemAvail (mkSem v None) m) re rs we ws.
Proof. intros []. by constructor. Qed.

Lemma ring_arcs_drain_SemSignal (m : sharedMem) (re rs we ws : N) (v : N) :
  ring_arcs m re rs we ws ->
  ring_arcs (set_SemSignal (mkSem v None) m) re rs we ws.
Proof. intros []. by constructor. Qed.

(** [GetWriteBuffer] and the invariant. *)
Lemma GetWriteBuffer_inv
    (rw : ReadWriteCloser) (m : sharedMem) (re rs we ws : N) :
  closed rw = 0 ->
  ring_inv m re rs we ws ->
  (ws + 1 = re + BlockCount m ->
   GetWriteBuffer rw m = Park sAvail (set_SemAvail (mkSem 0 None) m)
   /\ ring_inv (set_SemAvail (mkSem 0 None) m) re rs we ws)
  /\ (ws + 1 < re + BlockCount m ->
      let m' := set_WriteStart ((ws + 1) mod BlockCount m) m in
      GetWriteBuffer rw m
      = Ret (inl (mkBuffer (ws mod BlockCount m) true 0 (N.to_nat (BlockSize m)))) m'
      /\ ring_inv m' re rs we (ws + 1)).
Proof.
  intros Hopen (Harcs & Hqw & Hqr).
  destruct (arcs_lookup Harcs ws) as [b Hb].
  pose proof (arcs_Next Harcs ws b Hb) as Hnext.
  pose proof Harcs as [].
  assert (Hget := GetWriteBuffer_sequential rw m (ws mod BlockCount m) b Hopen
                    arcs_WriteStart0).
  lapply Hget; [clear Hget; intros Hget
               |pose proof (N.mod_lt ws (BlockCount m)); lia].
  specialize (Hget Hb arcs_BlockSize0).
  rewrite Hnext, arcs_ReadEnd0, arcs_SemAvail0 in Hget.
  split.
  - intros Hfull.
    destruct (N.eqb_spec ((ws + 1) mod BlockCount m) (re mod BlockCount m))
      as [_|Hne]; [|by destruct Hne; apply (arcs_full Harcs)].
    split; [exact Hget|].
    split; [by apply ring_arcs_drain_SemAvail|by split].
  - intros Hfree m'.
    destruct (N.eqb_spec ((ws + 1) mod BlockCount m) (re mod BlockCount m))
      as [Heq|_]; [apply (arcs_full Harcs) in Heq; lia|].
    split; [exact Hget|].
    split; [by apply ring_arcs_acquire_write|by split].
Qed.

(** X1. Writer-acquire on a ring that satisfies the invariant.  The writer
    is refused exactly when [BlockCount - 1] blocks are outstanding, that
    is, acquired by the writer and not yet released by the reader: then
    [GetWriteBuffer] consumes the tokens of [SemAvail] and sleeps.
    Otherwise it returns a lease on the block after the writer's arc, the
    writer's arc grows by that block and the invariant holds again. *)
Theorem GetWriteBuffer_arcs
    (rw : ReadWriteCloser) (m : sharedMem) (re rs we ws : N) :
  closed rw = 0 ->
  ring_inv m re rs we ws ->
  (ws + 1 = re + BlockCount m ->
   GetWriteBuffer rw m = Park sAvail (set_SemAvail (mkSem 0 None) m)
   /\ ring_inv (set_SemAvail (mkSem 0 None) m) re rs we ws)
  /\ (ws + 1 < re + BlockCount m ->
      let m' := set_WriteStart ((ws + 1) mod BlockCount m) m in
      GetWriteBuffer rw m
      = Ret (inl (mkBuffer (ws mod BlockCount m) true 0 (N.to_nat (BlockSize m)))) m'
      /\ ring_inv m' re rs we (ws + 1)).
Proof. apply GetWriteBuffer_inv. Qed.

(** [GetReadBuffer] and the invariant. *)
Lemma GetReadBuffer_inv
    (rw : ReadWriteCloser) (m : sharedMem) (re rs we ws : N) :
  closed rw = 0 ->
  ring_inv m re rs we ws ->
  (rs = we ->
   GetReadBuffer rw m = Park sSignal (set_SemSignal (mkSem 0 None) m)
   /\ ring_inv (set_SemSignal (mkSem 0 None) m) re rs we ws)
  /\ (rs < we ->
      exists b,
        block_at (rs mod BlockCount m) m = Some b
        /\ let m' := set_ReadStart ((rs + 1) mod BlockCount m) m in
           GetReadBuffer rw m
           = Ret (inl (mkBuffer (rs mod BlockCount m) false (N.to_nat (Size b))
                                (N.to_nat (BlockSize m)))) m'
           /\ ring_inv m' re (rs + 1) we ws).
Proof.
  intros Hopen (Harcs & Hqw & Hqr).
  destruct (arcs_lookup Harcs rs) as [b Hb].
  pose proof (arcs_Next Harcs rs b Hb) as Hnext.
  pose proof Harcs as [].
  assert (Hget := GetReadBuffer_sequential rw m (rs mod BlockCount m) b Hopen
                    arcs_ReadStart0).
  lapply Hget; [clear Hget; intros Hget
               |pose proof (N.mod_lt rs (BlockCount m)); lia].
  specialize (Hget Hb (arcs_Size0 _ _ Hb) arcs_BlockSize0).
  rewrite Hnext, arcs_WriteEnd0, arcs_SemSignal0 in Hget.
  split.
  - intros Hempty.
    destruct (N.eqb_spec (rs mod BlockCount m) (we mod BlockCount m))
      as [_|Hne]; [|by destruct Hne; rewrite Hempty].
    split; [exact Hget|].
    split; [by apply ring_arcs_drain_SemSignal|by split].
  - intros Hsome. exists b. split; [exact Hb|]. intros m'.
    destruct (N.eqb_spec (rs mod BlockCount m) (we mod BlockCount m))
      as [Heq|_]; [apply (arcs_empty Harcs) in Heq; lia|].
    split; [exact Hget|].
    split; [by apply ring_arcs_acquire_read|by split].
Qed.

(** X2. Reader-acquire on a ring that satisfies the invariant.  The reader
    is refused exactly when no published block is unread: then
    [GetReadBuffer] consumes the tokens of [SemSignal] and sleeps.
    Otherwise it returns a lease on the oldest unread block, whose
    payload slice has the length the writer stored, and the invariant
    holds again with that block in the reader's arc. *)
Theorem GetReadBuffer_arcs
    (rw : ReadWriteCloser) (m : sharedMem) (re rs we ws : N) :
  closed rw = 0 ->
  ring_inv m re rs we ws ->
  (rs = we ->
   GetReadBuffer rw m = Park sSignal (set_SemSignal (mkSem 0 None) m)
   /\ ring_inv (set_SemSignal (mkSem 0 None) m) re rs we ws)
  /\ (rs < we ->
      exists b,
        block_at (rs mod BlockCount m) m = Some b
        /\ let m' := set_ReadStart ((rs + 1) mod BlockCount m) m in
           GetReadBuffer rw m
           = Ret (inl (mkBuffer (rs mod BlockCount m) false (N.to_nat (Size b))
                                (N.to_nat (BlockSize m)))) m'
           /\ ring_inv m' re (rs + 1) we ws).
Proof. apply GetReadBuffer_inv. Qed.

(** ** Releasing under the invariant *)

Lemma block_at_store_inv (i j : N) (c c' b' : sharedBlock) (m : sharedMem) :
  block_at j m = Some c ->
  block_at i (store_block j c' m) = Some b' ->
  (i = j /\ b' = c') \/ (i <> j /\ block_at i m = Some b').
Proof.
  intros Hc Hb'. destruct (decide (j = i)) as [->|Hne].
  - rewrite (block_at_store_eq _ _ c) in Hb' by done. left. split; congruence.
  - rewrite block_at_store_ne in Hb' by done. right. by split.
Qed.

Lemma ring_arcs_post_SemSignal (m : sharedMem) (re rs we ws : N) :
  ring_arcs m re rs we ws -> ring_arcs (post_SemSignal m) re rs we ws.
Proof. intros []. by constructor. Qed.

Lemma ring_arcs_post_SemAvail (m : sharedMem) (re rs we ws : N) :
  ring_arcs m re rs we ws -> ring_arcs (post_SemAvail m) re rs we ws.
Proof. intros []. by constructor. Qed.

(** One move of [WriteEnd] over a finished block keeps the arcs. *)
Lemma ring_arcs_advance_write
    (m : sharedMem) (re rs we ws : N) (c : sharedBlock) :
  ring_arcs m re rs we ws ->
  block_at (WriteEnd m) m = Some c ->
  DoneWrite c = 1 ->
  we < ws
  /\ ring_arcs (set_WriteEnd (Next c) (store_block (WriteEnd m) (set_DoneWrite 0 c) m))
               re rs (we + 1) ws.
Proof.
  intros Harcs Hc Hdone. pose proof Harcs as [].
  assert (Hlt : we < ws).
  { destruct (arcs_DoneWrite0 _ _ Hc Hdone) as (c0 & Hle & Hlt & Heq).
    rewrite arcs_WriteEnd0 in Heq. apply (arcs_distinct Harcs) in Heq; lia. }
  split; [exact Hlt|].
  set (m0 := store_block (WriteEnd m) (set_DoneWrite 0 c) m).
  assert (Hinv : forall i b', block_at i (set_WriteEnd (Next c) m0) = Some b' ->
            (i = WriteEnd m /\ b' = set_DoneWrite 0 c)
            \/ (i <> WriteEnd m /\ block_at i m = Some b')).
  { intros i b' Hb'. exact (block_at_store_inv i (WriteEnd m) c _ b' m Hc Hb'). }
  constructor; try done.
  - change (BlockCount m = N.of_nat
              (length (<[N.to_nat (WriteEnd m):=set_DoneWrite 0 c]> (blocks m)))).
    by rewrite length_insert.
  - intros i b' Hb'. change (BlockCount (set_WriteEnd (Next c) m0)) with (BlockCount m).
    destruct (Hinv _ _ Hb') as [[-> ->]|[_ Hb]];
      [exact (arcs_circular0 _ _ Hc)|by eapply arcs_circular0].
  - intros i b' Hb'. change (BlockSize (set_WriteEnd (Next c) m0)) with (BlockSize m).
    destruct (Hinv _ _ Hb') as [[-> ->]|[_ Hb]];
      [exact (arcs_Size0 _ _ Hc)|by eapply arcs_Size0].
  - intros i b' Hb'.
    destruct (Hinv _ _ Hb') as [[-> ->]|[_ Hb]];
      [exact (arcs_Flags0 _ _ Hc)|by eapply arcs_Flags0].
  - intros i b' Hb'.
    destruct (Hinv _ _ Hb') as [[-> ->]|[_ Hb]];
      [exact (arcs_payload0 _ _ Hc)|by eapply arcs_payload0].
  - change (Next c = (we + 1) mod BlockCount m).
    rewrite arcs_WriteEnd0 in Hc. by apply (arcs_Next Harcs).
  - change (BlockCount (set_WriteEnd (Next c) m0)) with (BlockCount m). lia.
  - intros i b' Hb' Hd.
    change (BlockCount (set_WriteEnd (Next c) m0)) with (BlockCount m).
    destruct (Hinv _ _ Hb') as [[-> ->]|[Hne Hb]]; [done|].
    destruct (arcs_DoneWrite0 _ _ Hb Hd) as (c0 & Hle & Hlt0 & Heq).
    exists c0. repeat split; try done.
    destruct (decide (c0 = we)) as [->|]; [|lia]. congruence.
  - intros i b' Hb' Hd.
    change (BlockCount (set_WriteEnd (Next c) m0)) with (BlockCount m).
    destruct (Hinv _ _ Hb') as [[-> ->]|[_ Hb]];
      [exact (arcs_DoneRead0 _ _ Hc Hd)|by eapply arcs_DoneRead0].
Qed.

(** What a release of the writer leaves alone: everything but
    [WriteEnd], [SemSignal] and [DoneWrite] flags. *)
Lemma writer_advance_frame (m m' : sharedMem) (js : list N) :
  writer_advance m js m' ->
  ReadEnd m' = ReadEnd m /\ SemAvail m' = SemAvail m
  /\ forall i b, block_at i m = Some b ->
       exists v, block_at i m' = Some (set_DoneWrite v b).
Proof.
  induction 1 as [m c Hc Hd|m m' c js Hc Hd Hrest IH].
  - repeat split; try done. intros i b Hb. exists (DoneWrite b). by destruct b.
  - cbn zeta in *.
    set (m1 := set_WriteEnd (Next c) (store_block (WriteEnd m) (set_DoneWrite 0 c) m))
      in *.
    assert (IH' : ReadEnd m' = ReadEnd m1 /\ SemAvail m' = SemAvail m1
                  /\ forall i b, block_at i m1 = Some b ->
                       exists v, block_at i m' = Some (set_DoneWrite v b)).
    { by destruct (WriteEnd m =? ReadStart m). }
    destruct IH' as (Hre & Hsa & Hblk). repeat split; try done.
    intros i b Hb. destruct (decide (WriteEnd m = i)) as [<-|Hne].
    + assert (b = c) as -> by congruence.
      destruct (Hblk (WriteEnd m) (set_DoneWrite 0 c)) as [v Hv];
        [by apply (block_at_store_eq _ _ c)|].
      exists v. by rewrite Hv.
    + apply Hblk.
      change (block_at i (store_block (WriteEnd m) (set_DoneWrite 0 c) m) = Some b).
      by rewrite block_at_store_ne.
Qed.

(** The walk of the writer under the arcs: it ends with the arcs in
    order, [WriteEnd] within the writer's arc, and one post exactly when
    it moved and the readable arc was empty. *)
Lemma writer_advance_arcs (m m' : sharedMem) (js : list N) :
  writer_advance m js m' ->
  forall (re rs we ws : N),
    ring_arcs m re rs we ws ->
    exists we',
      ring_arcs m' re rs we' ws
      /\ we' = we + N.of_nat (length js)
      /\ (forall b, block_at (WriteEnd m') m' = Some b -> DoneWrite b <> 1)
      /\ sem_value (SemSignal m')
         = sem_value (SemSignal m)
           + (if decide (we = rs /\ js <> []) then 1 else 0).
Proof.
  induction 1 as [m c Hc Hd|m m' c js Hc Hd Hrest IH]; intros re rs we ws Harcs.
  - exists we. split; [done|]. split; [simpl; lia|]. split.
    + intros b Hb. congruence.
    + destruct (decide (we = rs /\ [] <> [])) as [[_ ?]|]; [done|lia].
  - cbn zeta in *.
    destruct (ring_arcs_advance_write _ _ _ _ _ _ Harcs Hc Hd) as [Hlt Harcs1].
    set (m1 := set_WriteEnd (Next c) (store_block (WriteEnd m) (set_DoneWrite 0 c) m))
      in *.
    pose proof Harcs as [].
    destruct (N.eqb_spec (WriteEnd m) (ReadStart m)) as [Heq|Hne].
    + assert (we = rs).
      { rewrite arcs_WriteEnd0, arcs_ReadStart0 in Heq. symmetry in Heq.
        apply (arcs_distinct Harcs) in Heq; lia. }
      subst rs.
      destruct (IH re we (we + 1) ws (ring_arcs_post_SemSignal _ _ _ _ _ Harcs1))
        as (we' & Harcs' & Hwe' & Hq & Hv).
      exists we'. split; [done|]. split; [simpl length; lia|]. split; [done|].
      rewrite Hv. cbn [post_SemSignal set_SemSignal SemSignal sem_value].
      change (SemSignal m1) with (SemSignal m).
      destruct (decide (we + 1 = we /\ js <> [])) as [[? _]|_]; [lia|].
      destruct (decide (we = we /\ WriteEnd m :: js <> [])) as [_|Hn]; [lia|].
      by destruct Hn.
    + assert (we <> rs).
      { intros ->. by rewrite arcs_WriteEnd0, arcs_ReadStart0 in Hne. }
      destruct (IH re rs (we + 1) ws Harcs1) as (we' & Harcs' & Hwe' & Hq & Hv).
      exists we'. split; [done|]. split; [simpl length; lia|]. split; [done|].
      rewrite Hv. change (SemSignal m1) with (SemSignal m).
      destruct (decide (we + 1 = rs /\ js <> [])) as [[? _]|_]; [lia|].
      by destruct (decide (we = rs /\ WriteEnd m :: js <> [])) as [[? _]|_].
Qed.

Lemma writer_advance_nil (m m' : sharedMem) (js : list N) (c : sharedBlock) :
  writer_advance m js m' ->
  block_at (WriteEnd m) m = Some c ->
  (DoneWrite c <> 1 -> js = [] /\ m' = m) /\ (DoneWrite c = 1 -> js <> []).
Proof.
  intros Hadv Hc.
  inversion Hadv as [m0 c0 Hc0 Hd0 | m0 m0' c0 js0 Hc0 Hd0 Hrest]; subst.
  - split; [done|]. intros Hd. congruence.
  - split; [|done]. intros Hd. congruence.
Qed.

(** The two stores that open [SendWriteBuffer] keep the arcs when the
    lease is on a block of the writer's arc. *)
Lemma ring_arcs_store_write
    (m : sharedMem) (re rs we ws j sz : N) (bj : sharedBlock) :
  ring_arcs m re rs we ws ->
  we <= j -> j < ws ->
  block_at (j mod BlockCount m) m = Some bj ->
  sz <= BlockSize m ->
  ring_arcs (store_block (j mod BlockCount m) (set_DoneWrite 1 (set_Size sz bj)) m)
            re rs we ws.
Proof.
  intros Harcs Hle Hlt Hbj Hsz. pose proof Harcs as [].
  set (b1 := set_DoneWrite 1 (set_Size sz bj)).
  assert (Hinv : forall i b',
            block_at i (store_block (j mod BlockCount m) b1 m) = Some b' ->
            (i = j mod BlockCount m /\ b' = b1)
            \/ (i <> j mod BlockCount m /\ block_at i m = Some b')).
  { intros i b' Hb'. exact (block_at_store_inv i _ bj _ b' m Hbj Hb'). }
  constructor; try done.
  - change (BlockCount m = N.of_nat
              (length (<[N.to_nat (j mod BlockCount m):=b1]> (blocks m)))).
    by rewrite length_insert.
  - intros i b' Hb'.
    change (BlockCount (store_block (j mod BlockCount m) b1 m)) with (BlockCount m).
    destruct (Hinv _ _ Hb') as [[-> ->]|[_ Hb]];
      [exact (arcs_circular0 _ _ Hbj)|by eapply arcs_circular0].
  - intros i b' Hb'.
    change (BlockSize (store_block (j mod BlockCount m) b1 m)) with (BlockSize m).
    destruct (Hinv _ _ Hb') as [[-> ->]|[_ Hb]]; [exact Hsz|by eapply arcs_Size0].
  - intros i b' Hb'.
    destruct (Hinv _ _ Hb') as [[-> ->]|[_ Hb]];
      [exact (arcs_Flags0 _ _ Hbj)|by eapply arcs_Flags0].
  - intros i b' Hb'.
    destruct (Hinv _ _ Hb') as [[-> ->]|[_ Hb]];
      [exact (arcs_payload0 _ _ Hbj)|by eapply arcs_payload0].
  - intros i b' Hb' Hd.
    change (BlockCount (store_block (j mod BlockCount m) b1 m)) with (BlockCount m).
    destruct (Hinv _ _ Hb') as [[-> ->]|[_ Hb]];
      [by exists j|by eapply arcs_DoneWrite0].
  - intros i b' Hb' Hd.
    change (BlockCount (store_block (j mod BlockCount m) b1 m)) with (BlockCount m).
    destruct (Hinv _ _ Hb') as [[-> ->]|[_ Hb]];
      [exact (arcs_DoneRead0 _ _ Hbj Hd)|by eapply arcs_DoneRead0].
Qed.

(** [SendWriteBuffer] and the invariant. *)
Lemma SendWriteBuffer_inv
    (rw : ReadWriteCloser) (buf : Buffer) (m : sharedMem)
    (re rs we ws j : N) (bj : sharedBlock) :
  closed rw = 0 ->
  write buf = true ->
  ring_inv m re rs we ws ->
  we <= j -> j < ws ->
  block buf = j mod BlockCount m ->
  block_at (block buf) m = Some bj ->
  DoneWrite bj <> 1 ->
  N.of_nat (Data_len buf) <= BlockSize m ->
  exists (we' : N) (m' : sharedMem),
    SendWriteBuffer rw buf m = Ret (Data_len buf, None) m'
    /\ ring_inv m' re rs we' ws
    /\ (j = we -> we < we')
    /\ (j <> we -> we' = we)
    /\ sem_value (SemSignal m')
       = sem_value (SemSignal m) + (if decide (we = rs /\ j = we) then 1 else 0)
    /\ SemAvail m' = SemAvail m.
Proof.
  intros Hopen Hdir (Harcs & Hqw & Hqr) Hle Hlt Hblk Hbj Hfresh Hlen.
  pose proof Harcs as [].
  pose proof (arcs_ring_ok Harcs) as Hok.
  destruct (SendWriteBuffer_walk rw buf m Hopen Hdir Hok)
    as (m1 & js & m' & Hm1 & Hsend & Hadv & _); try done.
  { rewrite arcs_WriteEnd0. apply N.mod_lt. lia. }
  { rewrite Hblk. apply N.mod_lt. lia. }
  apply with_block_Some in Hm1 as (b0 & Hb0 & ->).
  assert (b0 = bj) as -> by congruence.
  rewrite Hblk in *.
  set (b1 := set_DoneWrite 1 (set_Size (N.of_nat (Data_len buf)) bj)) in *.
  set (m1 := store_block (j mod BlockCount m) b1 m) in *.
  assert (Harcs1 : ring_arcs m1 re rs we ws) by (by apply ring_arcs_store_write).
  destruct (writer_advance_arcs _ _ _ Hadv re rs we ws Harcs1)
    as (we' & Harcs' & Hwe' & Hq' & Hv).
  destruct (writer_advance_frame _ _ _ Hadv) as (Hre & Hsa & Hfr).
  destruct (arcs_lookup Harcs we) as [cw Hcw].
  assert (Hcases : (j = we -> js <> []) /\ (j <> we -> js = [])).
  { split.
    - intros Hj. subst j.
      destruct (writer_advance_nil _ _ _ b1 Hadv) as [_ Hne]; [|by apply Hne].
      change (WriteEnd m1) with (WriteEnd m). rewrite arcs_WriteEnd0.
      by apply (block_at_store_eq _ _ bj).
    - intros Hne.
      destruct (writer_advance_nil _ _ _ cw Hadv) as [Hnil _].
      + change (WriteEnd m1) with (WriteEnd m). rewrite arcs_WriteEnd0.
        unfold m1. rewrite block_at_store_ne; [done|].
        intros Heq. symmetry in Heq. apply (arcs_distinct Harcs) in Heq; lia.
      + apply Hnil. apply Hqw. by rewrite arcs_WriteEnd0. }
  destruct Hcases as [Hmoved Hstay].
  exists we', m'. split; [exact Hsend|]. split; [|split; [|split; [|split]]].
  - split; [exact Harcs'|]. split; [exact Hq'|].
    intros b Hb. rewrite Hre in Hb. change (ReadEnd m1) with (ReadEnd m) in Hb.
    destruct (arcs_lookup Harcs re) as [cr Hcr]. rewrite <- arcs_ReadEnd0 in Hcr.
    assert (Hcr1 : exists c1, block_at (ReadEnd m) m1 = Some c1
                              /\ DoneRead c1 = DoneRead cr).
    { destruct (decide (j mod BlockCount m = ReadEnd m)) as [Heq|Hne].
      - exists b1. split; [rewrite <- Heq; by apply (block_at_store_eq _ _ bj)|].
        rewrite <- Heq in Hcr. by assert (cr = bj) as -> by congruence.
      - exists cr. split; [|done]. unfold m1. by rewrite block_at_store_ne. }
    destruct Hcr1 as (c1 & Hc1 & Hdr).
    destruct (Hfr _ _ Hc1) as [v Hv']. rewrite Hv' in Hb. injection Hb as <-.
    cbn [DoneRead set_DoneWrite]. rewrite Hdr. by apply Hqr.
  - intros Hj. specialize (Hmoved Hj). destruct js; [done|]. simpl in Hwe'. lia.
  - intros Hne. rewrite (Hstay Hne) in Hwe'. simpl in Hwe'. lia.
  - rewrite Hv. change (SemSignal m1) with (SemSignal m). f_equal.
    destruct (decide (we = rs /\ js <> [])) as [[H1 H2]|H1];
      destruct (decide (we = rs /\ j = we)) as [[H3 H4]|H3]; try done.
    + destruct (decide (j = we)) as [Hj|Hj]; [by destruct H3|].
      by destruct H2; apply Hstay.
    + destruct H1. split; [done|by apply Hmoved].
  - by rewrite Hsa.
Qed.

(** X3. Writer-release on a ring that satisfies the invariant, for a lease
    on a block [j] of the writer's arc that has not been released yet.
    [SendWriteBuffer] returns the payload length without error and the
    invariant holds again.  If [j] is the oldest block the writer holds,
    [WriteEnd] moves past it (and past the finished blocks that follow);
    otherwise [WriteEnd] stays, so the block is not yet readable.
    [WriteEnd] never passes [WriteStart].  [SemSignal] is posted once
    exactly when a block became readable while none was, and [SemAvail]
    is not touched. *)
Theorem SendWriteBuffer_arcs
    (rw : ReadWriteCloser) (buf : Buffer) (m : sharedMem)
    (re rs we ws j : N) (bj : sharedBlock) :
  closed rw = 0 ->
  write buf = true ->
  ring_inv m re rs we ws ->
  we <= j -> j < ws ->
  block buf = j mod BlockCount m ->
  block_at (block buf) m = Some bj ->
  DoneWrite bj <> 1 ->
  N.of_nat (Data_len buf) <= BlockSize m ->
  exists (we' : N) (m' : sharedMem),
    SendWriteBuffer rw buf m = Ret (Data_len buf, None) m'
    /\ ring_inv m' re rs we' ws
    /\ (j = we -> we < we')
    /\ (j <> we -> we' = we)
    /\ sem_value (SemSignal m')
       = sem_value (SemSignal m) + (if decide (we = rs /\ j = we) then 1 else 0)
    /\ SemAvail m' = SemAvail m.
Proof. apply SendWriteBuffer_inv. Qed.

(** One move of [ReadEnd] over a finished block keeps the arcs. *)
Lemma ring_arcs_advance_read
    (m : sharedMem) (re rs we ws : N) (c : sharedBlock) :
  ring_arcs m re rs we ws ->
  block_at (ReadEnd m) m = Some c ->
  DoneRead c = 1 ->
  re < rs
  /\ ring_arcs (set_ReadEnd (Next c) (store_block (ReadEnd m) (set_DoneRead 0 c) m))
               (re + 1) rs we ws.
Proof.
  intros Harcs Hc Hdone. pose proof Harcs as [].
  assert (Hlt : re < rs).
  { destruct (arcs_DoneRead0 _ _ Hc Hdone) as (c0 & Hle & Hlt & Heq).
    rewrite arcs_ReadEnd0 in Heq. apply (arcs_distinct Harcs) in Heq; lia. }
  split; [exact Hlt|].
  set (m0 := store_block (ReadEnd m) (set_DoneRead 0 c) m).
  assert (Hinv : forall i b', block_at i (set_ReadEnd (Next c) m0) = Some b' ->
            (i = ReadEnd m /\ b' = set_DoneRead 0 c)
            \/ (i <> ReadEnd m /\ block_at i m = Some b')).
  { intros i b' Hb'. exact (block_at_store_inv i (ReadEnd m) c _ b' m Hc Hb'). }
  constructor; try done.
  - change (BlockCount m = N.of_nat
              (length (<[N.to_nat (ReadEnd m):=set_DoneRead 0 c]> (blocks m)))).
    by rewrite length_insert.
  - intros i b' Hb'. change (BlockCount (set_ReadEnd (Next c) m0)) with (BlockCount m).
    destruct (Hinv _ _ Hb') as [[-> ->]|[_ Hb]];
      [exact (arcs_circular0 _ _ Hc)|by eapply arcs_circular0].
  - intros i b' Hb'. change (BlockSize (set_ReadEnd (Next c) m0)) with (BlockSize m).
    destruct (Hinv _ _ Hb') as [[-> ->]|[_ Hb]];
      [exact (arcs_Size0 _ _ Hc)|by eapply arcs_Size0].
  - intros i b' Hb'.
    destruct (Hinv _ _ Hb') as [[-> ->]|[_ Hb]];
      [exact (arcs_Flags0 _ _ Hc)|by eapply arcs_Flags0].
  - intros i b' Hb'.
    destruct (Hinv _ _ Hb') as [[-> ->]|[_ Hb]];
      [exact (arcs_payload0 _ _ Hc)|by eapply arcs_payload0].
  - change (Next c = (re + 1) mod BlockCount m).
    rewrite arcs_ReadEnd0 in Hc. by apply (arcs_Next Harcs).
  - change (BlockCount (set_ReadEnd (Next c) m0)) with (BlockCount m). lia.
  - intros i b' Hb' Hd.
    change (BlockCount (set_ReadEnd (Next c) m0)) with (BlockCount m).
    destruct (Hinv _ _ Hb') as [[-> ->]|[_ Hb]];
      [exact (arcs_DoneWrite0 _ _ Hc Hd)|by eapply arcs_DoneWrite0].
  - intros i b' Hb' Hd.
    change (BlockCount (set_ReadEnd (Next c) m0)) with (BlockCount m).
    destruct (Hinv _ _ Hb') as [[-> ->]|[Hne Hb]]; [done|].
    destruct (arcs_DoneRead0 _ _ Hb Hd) as (c0 & Hle & Hlt0 & Heq).
    exists c0. repeat split; try done.
    destruct (decide (c0 = re)) as [->|]; [|lia]. congruence.
Qed.

(** What a release of the reader leaves alone: everything but
    [ReadEnd], [SemAvail] and [DoneRead] flags. *)
Lemma reader_advance_frame (m m' : sharedMem) (bs : list sharedBlock) :
  reader_advance m bs m' ->
  WriteEnd m' = WriteEnd m /\ SemSignal m' = SemSignal m
  /\ forall i b, block_at i m = Some b ->
       exists v, block_at i m' = Some (set_DoneRead v b).
Proof.
  induction 1 as [m c Hc Hd|m m' c bs Hc Hd Hrest IH].
  - repeat split; try done. intros i b Hb. exists (DoneRead b). by destruct b.
  - cbn zeta in *.
    set (m1 := set_ReadEnd (Next c) (store_block (ReadEnd m) (set_DoneRead 0 c) m))
      in *.
    assert (IH' : WriteEnd m' = WriteEnd m1 /\ SemSignal m' = SemSignal m1
                  /\ forall i b, block_at i m1 = Some b ->
                       exists v, block_at i m' = Some (set_DoneRead v b)).
    { by destruct (Prev c =? WriteStart m). }
    destruct IH' as (Hwe & Hss & Hblk). repeat split; try done.
    intros i b Hb. destruct (decide (ReadEnd m = i)) as [<-|Hne].
    + assert (b = c) as -> by congruence.
      destruct (Hblk (ReadEnd m) (set_DoneRead 0 c)) as [v Hv];
        [by apply (block_at_store_eq _ _ c)|].
      exists v. by rewrite Hv.
    + apply Hblk.
      change (block_at i (store_block (ReadEnd m) (set_DoneRead 0 c) m) = Some b).
      by rewrite block_at_store_ne.
Qed.

(** The walk of the reader under the arcs: one post exactly when it
    moved and the ring was full. *)
Lemma reader_advance_arcs (m m' : sharedMem) (bs : list sharedBlock) :
  reader_advance m bs m' ->
  forall (re rs we ws : N),
    ring_arcs m re rs we ws ->
    exists re',
      ring_arcs m' re' rs we ws
      /\ re' = re + N.of_nat (length bs)
      /\ (forall b, block_at (ReadEnd m') m' = Some b -> DoneRead b <> 1)
      /\ sem_value (SemAvail m')
         = sem_value (SemAvail m)
           + (if decide (ws + 1 = re + BlockCount m /\ bs <> []) then 1 else 0).
Proof.
  induction 1 as [m c Hc Hd|m m' c bs Hc Hd Hrest IH]; intros re rs we ws Harcs.
  - exists re. split; [done|]. split; [simpl; lia|]. split.
    + intros b Hb. congruence.
    + destruct (decide (ws + 1 = re + BlockCount m /\ [] <> [])) as [[_ ?]|];
        [done|lia].
  - cbn zeta in *.
    destruct (ring_arcs_advance_read _ _ _ _ _ _ Harcs Hc Hd) as [Hlt Harcs1].
    set (m1 := set_ReadEnd (Next c) (store_block (ReadEnd m) (set_DoneRead 0 c) m))
      in *.
    pose proof Harcs as [].
    assert (Hprev : Prev c = (re + (BlockCount m - 1)) mod BlockCount m).
    { rewrite arcs_ReadEnd0 in Hc. by apply (arcs_Prev Harcs). }
    destruct (N.eqb_spec (Prev c) (WriteStart m)) as [Heq|Hne].
    + assert (ws + 1 = re + BlockCount m).
      { rewrite Hprev, arcs_WriteStart0 in Heq. symmetry in Heq.
        apply (arcs_distinct Harcs) in Heq; lia. }
      destruct (IH (re + 1) rs we ws (ring_arcs_post_SemAvail _ _ _ _ _ Harcs1))
        as (re' & Harcs' & Hre' & Hq & Hv).
      exists re'. split; [done|]. split; [simpl length; lia|]. split; [done|].
      rewrite Hv. change (BlockCount (post_SemAvail m1)) with (BlockCount m).
      cbn [post_SemAvail set_SemAvail SemAvail sem_value].
      change (SemAvail m1) with (SemAvail m).
      destruct (decide (ws + 1 = re + 1 + BlockCount m /\ bs <> [])) as [[? _]|_];
        [lia|].
      destruct (decide (ws + 1 = re + BlockCount m /\ c :: bs <> [])) as [_|Hn];
        [lia|].
      by destruct Hn.
    + assert (ws + 1 <> re + BlockCount m).
      { intros Hfull. destruct Hne. rewrite Hprev, arcs_WriteStart0.
        f_equal. lia. }
      destruct (IH (re + 1) rs we ws Harcs1) as (re' & Harcs' & Hre' & Hq & Hv).
      exists re'. split; [done|]. split; [simpl length; lia|]. split; [done|].
      rewrite Hv. change (SemAvail m1) with (SemAvail m).
      change (BlockCount m1) with (BlockCount m).
      destruct (decide (ws + 1 = re + 1 + BlockCount m /\ bs <> [])) as [[? _]|_];
        [lia|].
      by destruct (decide (ws + 1 = re + BlockCount m /\ c :: bs <> []))
        as [[? _]|_].
Qed.

Lemma reader_advance_nil
    (m m' : sharedMem) (bs : list sharedBlock) (c : sharedBlock) :
  reader_advance m bs m' ->
  block_at (ReadEnd m) m = Some c ->
  (DoneRead c <> 1 -> bs = [] /\ m' = m) /\ (DoneRead c = 1 -> bs <> []).
Proof.
  intros Hadv Hc.
  inversion Hadv as [m0 c0 Hc0 Hd0 | m0 m0' c0 bs0 Hc0 Hd0 Hrest]; subst.
  - split; [done|]. intros Hd. congruence.
  - split; [|done]. intros Hd. congruence.
Qed.

(** The store that opens [SendReadBuffer] keeps the arcs when the lease
    is on a block of the reader's arc. *)
Lemma ring_arcs_store_read
    (m : sharedMem) (re rs we ws j : N) (bj : sharedBlock) :
  ring_arcs m re rs we ws ->
  re <= j -> j < rs ->
  block_at (j mod BlockCount m) m = Some bj ->
  ring_arcs (store_block (j mod BlockCount m) (set_DoneRead 1 bj) m) re rs we ws.
Proof.
  intros Harcs Hle Hlt Hbj. pose proof Harcs as [].
  set (b1 := set_DoneRead 1 bj).
  assert (Hinv : forall i b',
            block_at i (store_block (j mod BlockCount m) b1 m) = Some b' ->
            (i = j mod BlockCount m /\ b' = b1)
            \/ (i <> j mod BlockCount m /\ block_at i m = Some b')).
  { intros i b' Hb'. exact (block_at_store_inv i _ bj _ b' m Hbj Hb'). }
  constructor; try done.
  - change (BlockCount m = N.of_nat
              (length (<[N.to_nat (j mod BlockCount m):=b1]> (blocks m)))).
    by rewrite length_insert.
  - intros i b' Hb'.
    change (BlockCount (store_block (j mod BlockCount m) b1 m)) with (BlockCount m).
    destruct (Hinv _ _ Hb') as [[-> ->]|[_ Hb]];
      [exact (arcs_circular0 _ _ Hbj)|by eapply arcs_circular0].
  - intros i b' Hb'.
    change (BlockSize (store_block (j mod BlockCount m) b1 m)) with (BlockSize m).
    destruct (Hinv _ _ Hb') as [[-> ->]|[_ Hb]];
      [exact (arcs_Size0 _ _ Hbj)|by eapply arcs_Size0].
  - intros i b' Hb'.
    destruct (Hinv _ _ Hb') as [[-> ->]|[_ Hb]];
      [exact (arcs_Flags0 _ _ Hbj)|by eapply arcs_Flags0].
  - intros i b' Hb'.
    destruct (Hinv _ _ Hb') as [[-> ->]|[_ Hb]];
      [exact (arcs_payload0 _ _ Hbj)|by eapply arcs_payload0].
  - intros i b' Hb' Hd.
    change (BlockCount (store_block (j mod BlockCount m) b1 m)) with (BlockCount m).
    destruct (Hinv _ _ Hb') as [[-> ->]|[_ Hb]];
      [exact (arcs_DoneWrite0 _ _ Hbj Hd)|by eapply arcs_DoneWrite0].
  - intros i b' Hb' Hd.
    change (BlockCount (store_block (j mod BlockCount m) b1 m)) with (BlockCount m).
    destruct (Hinv _ _ Hb') as [[-> ->]|[_ Hb]];
      [by exists j|by eapply arcs_DoneRead0].
Qed.

(** [SendReadBuffer] and the invariant. *)
Lemma SendReadBuffer_inv
    (rw : ReadWriteCloser) (buf : Buffer) (m : sharedMem)
    (re rs we ws j : N) (bj : sharedBlock) :
  closed rw = 0 ->
  write buf = false ->
  ring_inv m re rs we ws ->
  re <= j -> j < rs ->
  block buf = j mod BlockCount m ->
  block_at (block buf) m = Some bj ->
  DoneRead bj <> 1 ->
  exists (re' : N) (m' : sharedMem),
    SendReadBuffer rw buf m = Ret None m'
    /\ ring_inv m' re' rs we ws
    /\ (j = re -> re < re')
    /\ (j <> re -> re' = re)
    /\ sem_value (SemAvail m')
       = sem_value (SemAvail m)
         + (if decide (ws + 1 = re + BlockCount m /\ j = re) then 1 else 0)
    /\ SemSignal m' = SemSignal m.
Proof.
  intros Hopen Hdir (Harcs & Hqw & Hqr) Hle Hlt Hblk Hbj Hfresh.
  pose proof Harcs as [].
  pose proof (arcs_ring_ok Harcs) as Hok.
  destruct (SendReadBuffer_walk rw buf m Hopen Hdir Hok)
    as (m1 & bs & m' & Hm1 & Hsend & Hadv & _); try done.
  { rewrite arcs_ReadEnd0. apply N.mod_lt. lia. }
  { rewrite Hblk. apply N.mod_lt. lia. }
  apply with_block_Some in Hm1 as (b0 & Hb0 & ->).
  assert (b0 = bj) as -> by congruence.
  rewrite Hblk in *.
  set (b1 := set_DoneRead 1 bj) in *.
  set (m1 := store_block (j mod BlockCount m) b1 m) in *.
  assert (Harcs1 : ring_arcs m1 re rs we ws) by (by apply ring_arcs_store_read).
  destruct (reader_advance_arcs _ _ _ Hadv re rs we ws Harcs1)
    as (re' & Harcs' & Hre' & Hq' & Hv).
  destruct (reader_advance_frame _ _ _ Hadv) as (Hwe & Hss & Hfr).
  destruct (arcs_lookup Harcs re) as [cr Hcr].
  assert (Hcases : (j = re -> bs <> []) /\ (j <> re -> bs = [])).
  { split.
    - intros Hj. subst j.
      destruct (reader_advance_nil _ _ _ b1 Hadv) as [_ Hne]; [|by apply Hne].
      change (ReadEnd m1) with (ReadEnd m). rewrite arcs_ReadEnd0.
      by apply (block_at_store_eq _ _ bj).
    - intros Hne.
      destruct (reader_advance_nil _ _ _ cr Hadv) as [Hnil _].
      + change (ReadEnd m1) with (ReadEnd m). rewrite arcs_ReadEnd0.
        unfold m1. rewrite block_at_store_ne; [done|].
        intros Heq. symmetry in Heq. apply (arcs_distinct Harcs) in Heq; lia.
      + apply Hnil. apply Hqr. by rewrite arcs_ReadEnd0. }
  destruct Hcases as [Hmoved Hstay].
  exists re', m'. split; [exact Hsend|]. split; [|split; [|split; [|split]]].
  - split; [exact Harcs'|]. split; [|exact Hq'].
    intros b Hb. rewrite Hwe in Hb. change (WriteEnd m1) with (WriteEnd m) in Hb.
    destruct (arcs_lookup Harcs we) as [cw Hcw]. rewrite <- arcs_WriteEnd0 in Hcw.
    assert (Hcw1 : exists c1, block_at (WriteEnd m) m1 = Some c1
                              /\ DoneWrite c1 = DoneWrite cw).
    { destruct (decide (j mod BlockCount m = WriteEnd m)) as [Heq|Hne].
      - exists b1. split; [rewrite <- Heq; by apply (block_at_store_eq _ _ bj)|].
        rewrite <- Heq in Hcw. by assert (cw = bj) as -> by congruence.
      - exists cw. split; [|done]. unfold m1. by rewrite block_at_store_ne. }
    destruct Hcw1 as (c1 & Hc1 & Hdw).
    destruct (Hfr _ _ Hc1) as [v Hv']. rewrite Hv' in Hb. injection Hb as <-.
    cbn [DoneWrite set_DoneRead]. rewrite Hdw. by apply Hqw.
  - intros Hj. specialize (Hmoved Hj). destruct bs; [done|]. simpl in Hre'. lia.
  - intros Hne. rewrite (Hstay Hne) in Hre'. simpl in Hre'. lia.
  - rewrite Hv. change (SemAvail m1) with (SemAvail m).
    change (BlockCount m1) with (BlockCount m). f_equal.
    destruct (decide (ws + 1 = re + BlockCount m /\ bs <> [])) as [[H1 H2]|H1];
      destruct (decide (ws + 1 = re + BlockCount m /\ j = re)) as [[H3 H4]|H3];
      try done.
    + destruct (decide (j = re)) as [Hj|Hj]; [by destruct H3|].
      by destruct H2; apply Hstay.
    + destruct H1. split; [done|by apply Hmoved].
  - by rewrite Hss.
Qed.

(** X4. Reader-release on a ring that satisfies the invariant, for a lease
    on a block [j] of the reader's arc that has not been released yet.
    [SendReadBuffer] returns without error and the invariant holds again.
    If [j] is the oldest block the reader holds, [ReadEnd] moves past it
    (and past the finished blocks that follow); otherwise [ReadEnd] stays,
    so the block is not yet free for the writer.  [SemAvail] is posted
    once exactly when a block became free while the ring was full, and
    [SemSignal] is not touched. *)
Theorem SendReadBuffer_arcs
    (rw : ReadWriteCloser) (buf : Buffer) (m : sharedMem)
    (re rs we ws j : N) (bj : sharedBlock) :
  closed rw = 0 ->
  write buf = false ->
  ring_inv m re rs we ws ->
  re <= j -> j < rs ->
  block buf = j mod BlockCount m ->
  block_at (block buf) m = Some bj ->
  DoneRead bj <> 1 ->
  exists (re' : N) (m' : sharedMem),
    SendReadBuffer rw buf m = Ret None m'
    /\ ring_inv m' re' rs we ws
    /\ (j = re -> re < re')
    /\ (j <> re -> re' = re)
    /\ sem_value (SemAvail m')
       = sem_value (SemAvail m)
         + (if decide (ws + 1 = re + BlockCount m /\ j = re) then 1 else 0)
    /\ SemSignal m' = SemSignal m.
Proof. apply SendReadBuffer_inv. Qed.

(** ** Blocks as messages *)

(** A store that changes neither links nor flags of completion keeps the
    invariant. *)
Lemma ring_inv_store_data
    (m : sharedMem) (re rs we ws j : N) (bj b' : sharedBlock) :
  ring_inv m re rs we ws ->
  block_at j m = Some bj ->
  Next b' = Next bj -> Prev b' = Prev bj ->
  DoneRead b' = DoneRead bj -> DoneWrite b' = DoneWrite bj ->
  Size b' <= BlockSize m ->
  Flags b' <> [] ->
  length (payload b') = N.to_nat (BlockSize m) ->
  ring_inv (store_block j b' m) re rs we ws.
Proof.
  intros (Harcs & Hqw & Hqr) Hbj Hn Hp Hdr Hdw Hsz Hfl Hpl. pose proof Harcs as [].
  assert (Hinv : forall i c, block_at i (store_block j b' m) = Some c ->
            (i = j /\ c = b') \/ (i <> j /\ block_at i m = Some c)).
  { intros i c Hc. exact (block_at_store_inv i j bj b' c m Hbj Hc). }
  split; [|split].
  - constructor; try done.
    + change (BlockCount m = N.of_nat (length (<[N.to_nat j:=b']> (blocks m)))).
      by rewrite length_insert.
    + intros i c Hc. change (BlockCount (store_block j b' m)) with (BlockCount m).
      destruct (Hinv _ _ Hc) as [[-> ->]|[_ Hb]]; [|by eapply arcs_circular0].
      rewrite Hn, Hp. exact (arcs_circular0 _ _ Hbj).
    + intros i c Hc. change (BlockSize (store_block j b' m)) with (BlockSize m).
      destruct (Hinv _ _ Hc) as [[-> ->]|[_ Hb]]; [done|by eapply arcs_Size0].
    + intros i c Hc.
      destruct (Hinv _ _ Hc) as [[-> ->]|[_ Hb]]; [done|by eapply arcs_Flags0].
    + intros i c Hc. change (BlockSize (store_block j b' m)) with (BlockSize m).
      destruct (Hinv _ _ Hc) as [[-> ->]|[_ Hb]]; [done|by eapply arcs_payload0].
    + intros i c Hc Hd. change (BlockCount (store_block j b' m)) with (BlockCount m).
      destruct (Hinv _ _ Hc) as [[-> ->]|[_ Hb]]; [|by eapply arcs_DoneWrite0].
      rewrite Hdw in Hd. exact (arcs_DoneWrite0 _ _ Hbj Hd).
    + intros i c Hc Hd. change (BlockCount (store_block j b' m)) with (BlockCount m).
      destruct (Hinv _ _ Hc) as [[-> ->]|[_ Hb]]; [|by eapply arcs_DoneRead0].
      rewrite Hdr in Hd. exact (arcs_DoneRead0 _ _ Hbj Hd).
  - intros c Hc. change (WriteEnd (store_block j b' m)) with (WriteEnd m) in Hc.
    destruct (Hinv _ _ Hc) as [[Hj ->]|[_ Hb]]; [|by apply Hqw].
    rewrite Hdw. apply Hqw. by rewrite Hj.
  - intros c Hc. change (ReadEnd (store_block j b' m)) with (ReadEnd m) in Hc.
    destruct (Hinv _ _ Hc) as [[Hj ->]|[_ Hb]]; [|by apply Hqr].
    rewrite Hdr. apply Hqr. by rewrite Hj.
Qed.

(** [SendWriteBuffer] changes no payload and no flag byte, and no [Size]
    but that of the leased block. *)
Lemma SendWriteBuffer_data
    (rw : ReadWriteCloser) (buf : Buffer) (m m' : sharedMem)
    (r : nat * option error) :
  closed rw = 0 ->
  write buf = true ->
  SendWriteBuffer rw buf m = Ret r m' ->
  BlockCount m' = BlockCount m /\ BlockSize m' = BlockSize m
  /\ forall i b, block_at i m = Some b ->
       exists b', block_at i m' = Some b'
                  /\ payload b' = payload b /\ Flags b' = Flags b
                  /\ Size b' = (if decide (i = block buf)
                                then N.of_nat (Data_len buf) else Size b).
Proof.
  intros Hopen Hdir. unfold SendWriteBuffer, StoreDone, with_block.
  rewrite Hopen, Hdir. cbn [N.eqb negb].
  destruct (block_at (block buf) m) as [bj|] eqn:Hbj; [|done].
  rewrite (block_at_store_eq _ _ bj) by done.
  intros Hrun. apply SendWriteBuffer_loop_frame in Hrun as [_ (Hc & Hs & _ & Hd)].
  split; [done|]. split; [done|].
  intros i b Hb. destruct (decide (i = block buf)) as [->|Hne].
  - assert (b = bj) as -> by congruence.
    edestruct Hd as (b' & Hb' & _ & _ & Hsz & Hfl & Hpl).
    { apply (block_at_store_eq _ _ (set_Size (N.of_nat (Data_len buf)) bj)).
      by apply (block_at_store_eq _ _ bj). }
    by exists b'.
  - edestruct Hd as (b' & Hb' & _ & _ & Hsz & Hfl & Hpl).
    { rewrite !block_at_store_ne by done. exact Hb. }
    by exists b'.
Qed.

Lemma SendReadBuffer_data
    (rw : ReadWriteCloser) (buf : Buffer) (m m' : sharedMem) (r : option error) :
  SendReadBuffer rw buf m = Ret r m' ->
  BlockCount m' = BlockCount m /\ BlockSize m' = BlockSize m
  /\ forall i b, block_at i m = Some b ->
       exists b', block_at i m' = Some b'
                  /\ payload b' = payload b /\ Flags b' = Flags b
                  /\ Size b' = Size b.
Proof.
  unfold SendReadBuffer, StoreDone, with_block.
  destruct (negb (closed rw =? 0)).
  { intros [= <- <-]. repeat split; try done. intros i b Hb. by exists b. }
  destruct (write buf).
  { intros [= <- <-]. repeat split; try done. intros i b Hb. by exists b. }
  destruct (block_at (block buf) m) as [bj|] eqn:Hbj; [|done].
  intros Hrun. apply SendReadBuffer_loop_frame in Hrun as (Hc & Hs & _ & Hd).
  split; [done|]. split; [done|].
  intros i b Hb. destruct (decide (block buf = i)) as [<-|Hne].
  - assert (b = bj) as -> by congruence.
    edestruct Hd as (b' & Hb' & _ & _ & Hsz & Hfl & Hpl);
      [by apply (block_at_store_eq _ _ bj)|].
    by exists b'.
  - edestruct Hd as (b' & Hb' & _ & _ & Hsz & Hfl & Hpl).
    { rewrite block_at_store_ne by done. exact Hb. }
    by exists b'.
Qed.

Lemma message_ext (b b' : sharedBlock) :
  payload b' = payload b -> Flags b' = Flags b -> Size b' = Size b ->
  message b' = message b.
Proof.
  intros Hp Hf Hs. unfold message. by rewrite Hp, Hs, (is_eof_Flags _ _ Hf).
Qed.

Lemma messages_ext (m m' : sharedMem) (n : nat) :
  BlockCount m' = BlockCount m ->
  forall c : N,
    (forall k : nat, (k < n)%nat ->
       exists b b', block_at ((c + N.of_nat k) mod BlockCount m) m = Some b
                    /\ block_at ((c + N.of_nat k) mod BlockCount m) m' = Some b'
                    /\ message b' = message b) ->
    messages m' c n = messages m c n.
Proof.
  intros Hbc. induction n as [|n IH]; intros c Hk; [done|].
  cbn [messages]. rewrite Hbc.
  destruct (Hk O ltac:(lia)) as (b & b' & Hb & Hb' & Hmsg).
  rewrite N.add_0_r in Hb, Hb'. rewrite Hb, Hb', Hmsg. f_equal.
  apply IH. intros k Hlt. destruct (Hk (S k) ltac:(lia)) as (d & d' & Hd & Hd' & Hm).
  exists d, d'. replace (c + 1 + N.of_nat k) with (c + N.of_nat (S k)) by lia.
  done.
Qed.

Lemma messages_S (m : sharedMem) (c : N) (n : nat) :
  messages m c (S n)
  = match block_at (c mod BlockCount m) m with
    | Some b => message b :: messages m (c + 1) n
    | None => []
    end.
Proof. done. Qed.

Lemma messages_snoc (m : sharedMem) (n : nat) :
  (forall c, exists b, block_at (c mod BlockCount m) m = Some b) ->
  forall (c : N) (b : sharedBlock),
    block_at ((c + N.of_nat n) mod BlockCount m) m = Some b ->
    messages m c (S n) = messages m c n ++ [message b].
Proof.
  intros Hall. induction n as [|n IH]; intros c b Hb.
  - rewrite N.add_0_r in Hb. cbn [messages]. by rewrite Hb.
  - destruct (Hall c) as [b0 Hb0].
    rewrite (messages_S m c (S n)), (messages_S m c n), Hb0.
    rewrite (IH (c + 1) b); [done|].
    by replace (c + 1 + N.of_nat n) with (c + N.of_nat (S n)) by lia.
Qed.

Lemma messages_length (m : sharedMem) (n : nat) :
  (forall c, exists b, block_at (c mod BlockCount m) m = Some b) ->
  forall c : N, length (messages m c n) = n.
Proof.
  intros Hall. induction n as [|n IH]; intros c; [done|].
  cbn [messages]. destruct (Hall c) as [b ->]. simpl. by rewrite IH.
Qed.

Lemma flag_update_set_eof : flag_update set_eof.
Proof.
  intros b. split; [done|]. unfold set_eof. cbn [Flags set_Flags].
  by destruct (Flags b).
Qed.

Lemma flag_update_clear_eof : flag_update clear_eof.
Proof.
  intros b. split; [done|]. unfold clear_eof. cbn [Flags set_Flags].
  by destruct (Flags b).
Qed.

Lemma fill_length (data : list byte) (b : sharedBlock) :
  (length data <= length (payload b))%nat ->
  length (payload (fill data b)) = length (payload b).
Proof.
  intros Hle. unfold fill. cbn [payload set_payload].
  rewrite length_app, length_drop. lia.
Qed.

(** ** Publishing one block *)

(** Acquire, fill, flag and release, when the writer holds no other
    block and the ring is not full: the three steps succeed, the
    invariant holds again, and the readable arc has gained one message at
    its end, the data with the flag the caller chose. *)
Lemma publish_block
    (rw : ReadWriteCloser) (m : sharedMem) (re rs ws : N) (data : list byte)
    (f : sharedBlock -> sharedBlock) :
  closed rw = 0 ->
  ring_inv m re rs ws ws ->
  ws + 1 < re + BlockCount m ->
  (length data <= N.to_nat (BlockSize m))%nat ->
  flag_update f ->
  let j := ws mod BlockCount m in
  exists (bj : sharedBlock) (m2 m' : sharedMem),
    block_at j m = Some bj
    /\ GetWriteBuffer rw m
       = Ret (inl (mkBuffer j true 0 (N.to_nat (BlockSize m))))
             (set_WriteStart ((ws + 1) mod BlockCount m) m)
    /\ with_block j (fun b => f (fill data b))
         (set_WriteStart ((ws + 1) mod BlockCount m) m) = Some m2
    /\ SendWriteBuffer rw (mkBuffer j true (length data) (N.to_nat (BlockSize m))) m2
       = Ret (length data, None) m'
    /\ ring_inv m' re rs (ws + 1) (ws + 1)
    /\ BlockCount m' = BlockCount m
    /\ BlockSize m' = BlockSize m
    /\ readable m' rs (ws + 1)
       = readable m rs ws ++ [(data, is_eof (f (fill data bj)))]
    /\ sem_value (SemSignal m')
       = sem_value (SemSignal m) + (if decide (ws = rs) then 1 else 0).
Proof.
  intros Hopen Hinv Hfree Hlen Hf j.
  destruct (GetWriteBuffer_inv rw m re rs ws ws Hopen Hinv) as [_ Hget].
  destruct (Hget Hfree) as [Hget1 Hinv1]. clear Hget.
  pose proof Hinv as (Harcs & Hqw & Hqr). pose proof Harcs as [].
  destruct (arcs_lookup Harcs ws) as [bj Hbj]. fold j in Hbj, Hget1.
  set (m1 := set_WriteStart ((ws + 1) mod BlockCount m) m) in *.
  set (b2 := f (fill data bj)).
  assert (Hb2 : b2 = set_Flags (Flags b2) (fill data bj)) by apply Hf.
  set (m2 := store_block j b2 m1).
  set (buf := mkBuffer j true (length data) (N.to_nat (BlockSize m))).
  assert (Hpl : length (payload bj) = N.to_nat (BlockSize m))
    by exact (arcs_payload0 _ _ Hbj).
  assert (Hinv2 : ring_inv m2 re rs ws (ws + 1)).
  { apply (ring_inv_store_data m1 re rs ws (ws + 1) j bj b2 Hinv1 Hbj);
      try (by rewrite Hb2).
    - rewrite Hb2. exact (arcs_Size0 _ _ Hbj).
    - apply Hf. exact (arcs_Flags0 _ _ Hbj).
    - rewrite Hb2. cbn [payload set_Flags].
      rewrite fill_length; [exact Hpl|lia]. }
  assert (Hat2 : block_at j m2 = Some b2) by (by apply (block_at_store_eq _ _ bj)).
  destruct (SendWriteBuffer_inv rw buf m2 re rs ws (ws + 1) ws b2)
    as (we' & m' & Hsend & Hinv' & Hmoved & _ & Hpost & _); try done; try lia.
  { rewrite Hb2. cbn [DoneWrite set_Flags fill set_payload].
    apply Hqw. rewrite arcs_WriteEnd0. exact Hbj. }
  { cbn [buf Data_len]. change (BlockSize m2) with (BlockSize m). lia. }
  specialize (Hmoved eq_refl).
  assert (we' = ws + 1) as ->.
  { destruct Hinv' as [[] _]. lia. }
  destruct (SendWriteBuffer_data rw buf m2 m' _ Hopen eq_refl Hsend)
    as (Hbc & Hbs & Hdata).
  exists bj, m2, m'. split; [exact Hbj|]. split; [exact Hget1|].
  split; [unfold with_block; change (block_at j m1) with (block_at j m);
          by rewrite Hbj|].
  split; [exact Hsend|].
  split; [exact Hinv'|]. split; [exact Hbc|]. split; [exact Hbs|]. split.
  - unfold readable.
    replace (N.to_nat (ws + 1 - rs)) with (S (N.to_nat (ws - rs))) by lia.
    destruct (Hdata j b2 Hat2) as (b' & Hb' & Hp' & Hf' & Hs').
    cbn [buf block Data_len] in Hs'. destruct (decide (j = j)); [|done].
    rewrite (messages_snoc m' (N.to_nat (ws - rs))
               (fun c => arcs_lookup (proj1 Hinv') c) rs b').
    2:{ replace (rs + N.of_nat (N.to_nat (ws - rs))) with ws by lia.
        by rewrite Hbc. }
    f_equal.
    + apply messages_ext; [exact Hbc|]. intros k Hk.
      destruct (arcs_lookup Harcs (rs + N.of_nat k)) as [b Hb].
      assert (Hne : (rs + N.of_nat k) mod BlockCount m <> j).
      { intros Heq. apply (arcs_distinct Harcs) in Heq; lia. }
      destruct (Hdata ((rs + N.of_nat k) mod BlockCount m) b)
        as (b0 & Hb0 & Hp0 & Hf0 & Hs0).
      { unfold m2. rewrite block_at_store_ne by done. exact Hb. }
      cbn [buf block] in Hs0.
      destruct (decide ((rs + N.of_nat k) mod BlockCount m = j)); [done|].
      exists b, b0. split; [exact Hb|]. split; [exact Hb0|].
      by apply message_ext.
    + unfold message. rewrite Hp', Hs', Nat2N.id, (is_eof_Flags _ _ Hf').
      f_equal. f_equal. rewrite Hb2. cbn [payload set_Flags fill set_payload].
      by rewrite take_app_length.
  - rewrite Hpost. change (SemSignal m2) with (SemSignal m). f_equal.
    destruct (decide (ws = rs /\ ws = ws)) as [[? _]|Hn];
      destruct (decide (ws = rs)) as [?|?]; try done.
    by destruct Hn.
Qed.

(** ** [Write] and [Read] on the queue *)

(** The message of one [Write]. *)
Lemma Write_message
    (rw : ReadWriteCloser) (p : list byte) (m : sharedMem) (re rs ws : N) :
  closed rw = 0 ->
  ring_inv m re rs ws ws ->
  ws + 1 < re + BlockCount m ->
  let n := Nat.min (N.to_nat (BlockSize m)) (length p) in
  exists m' : sharedMem,
    Write rw p m = Ret (n, None) m'
    /\ ring_inv m' re rs (ws + 1) (ws + 1)
    /\ BlockCount m' = BlockCount m /\ BlockSize m' = BlockSize m
    /\ readable m' rs (ws + 1) = readable m rs ws ++ [(take n p, true)].
Proof.
  intros Hopen Hinv Hfree n.
  assert (Hn : length (take n p) = n) by (rewrite length_take; lia).
  destruct (publish_block rw m re rs ws (take n p) set_eof Hopen Hinv Hfree)
    as (bj & m2 & m' & Hbj & Hget & Hfill & Hsend & Hinv' & Hbc & Hbs & Hq & _);
    [lia|apply flag_update_set_eof|].
  rewrite Hn in Hsend.
  exists m'. split; [|split; [exact Hinv'|split; [exact Hbc|split; [exact Hbs|]]]].
  - unfold Write. rewrite Hget. cbn [bind block Data_cap]. fold n.
    rewrite Hfill. unfold reslice. cbn [block write Data_cap].
    by rewrite Hsend.
  - rewrite Hq. do 3 f_equal. apply is_eof_set_eof.
    cbn [fill Flags set_payload]. destruct Hinv as [[] _]. by eapply arcs_Flags0.
Qed.

(** X5. [Write] appends one message.  On a ring that satisfies the
    invariant, is not full and on which the writer holds no block,
    [Write(p)] returns [n = min(len(p), BlockSize)] without error, the
    invariant holds again, and the readable arc has gained at its end the
    message made of the first [n] bytes of [p] with the EOF bit; the
    messages already there are untouched. *)
Theorem Write_enqueue
    (rw : ReadWriteCloser) (p : list byte) (m : sharedMem) (re rs ws : N) :
  closed rw = 0 ->
  ring_inv m re rs ws ws ->
  ws + 1 < re + BlockCount m ->
  let n := Nat.min (N.to_nat (BlockSize m)) (length p) in
  exists m' : sharedMem,
    Write rw p m = Ret (n, None) m'
    /\ ring_inv m' re rs (ws + 1) (ws + 1)
    /\ BlockCount m' = BlockCount m /\ BlockSize m' = BlockSize m
    /\ readable m' rs (ws + 1) = readable m rs ws ++ [(take n p, true)].
Proof. apply Write_message. Qed.

(** The message of one [Read]. *)
Lemma Read_message
    (rw : ReadWriteCloser) (q : list byte) (m : sharedMem) (rs we ws : N) :
  closed rw = 0 ->
  ring_inv m rs rs we ws ->
  rs < we ->
  exists (d : list byte) (eof : bool) (m' : sharedMem),
    readable m rs we = (d, eof) :: readable m' (rs + 1) we
    /\ (let n := Nat.min (length q) (length d) in
        Read rw q m
        = Ret (n, if eof then Some EOF else None, take n d ++ drop n q) m')
    /\ ring_inv m' (rs + 1) (rs + 1) we ws
    /\ BlockCount m' = BlockCount m /\ BlockSize m' = BlockSize m.
Proof.
  intros Hopen Hinv Hsome.
  destruct (GetReadBuffer_inv rw m rs rs we ws Hopen Hinv) as [_ Hget].
  destruct (Hget Hsome) as (b & Hb & Hget1 & Hinv1). clear Hget.
  pose proof Hinv as (Harcs & Hqw & Hqr). pose proof Harcs as [].
  set (j := rs mod BlockCount m) in *.
  set (m1 := set_ReadStart ((rs + 1) mod BlockCount m) m) in *.
  set (buf := mkBuffer j false (N.to_nat (Size b)) (N.to_nat (BlockSize m))) in *.
  destruct (SendReadBuffer_inv rw buf m1 rs (rs + 1) we ws rs b)
    as (re' & m' & Hsend & Hinv' & Hmoved & _); try done; try lia.
  { apply Hqr. rewrite arcs_ReadEnd0. exact Hb. }
  specialize (Hmoved eq_refl).
  assert (re' = rs + 1) as ->.
  { destruct Hinv' as [[] _]. lia. }
  destruct (SendReadBuffer_data rw buf m1 m' _ Hsend) as (Hbc & Hbs & Hdata).
  assert (Hlen : length (take (N.to_nat (Size b)) (payload b)) = N.to_nat (Size b)).
  { rewrite length_take, (arcs_payload0 _ _ Hb).
    pose proof (arcs_Size0 _ _ Hb). lia. }
  exists (take (N.to_nat (Size b)) (payload b)), (is_eof b), m'.
  split; [|split; [|split; [exact Hinv'|by split]]].
  - unfold readable.
    replace (N.to_nat (we - rs)) with (S (N.to_nat (we - (rs + 1)))) by lia.
    rewrite messages_S. fold j. rewrite Hb. f_equal. symmetry.
    apply messages_ext; [exact Hbc|]. intros k Hk.
    destruct (arcs_lookup Harcs (rs + 1 + N.of_nat k)) as [c Hc].
    destruct (Hdata _ _ Hc) as (c' & Hc' & Hp & Hf & Hs).
    exists c, c'. split; [exact Hc|]. split; [exact Hc'|]. by apply message_ext.
  - rewrite Hlen. cbn zeta. unfold Read. rewrite Hget1. cbn [bind buf block Data_len].
    change (block_at j m1) with (block_at j m). rewrite Hb. fold buf.
    rewrite Hsend. cbn [bind].
    rewrite take_take.
    replace (Nat.min (Nat.min (length q) (N.to_nat (Size b))) (N.to_nat (Size b)))
      with (Nat.min (length q) (N.to_nat (Size b))) by lia.
    by destruct (is_eof b).
Qed.

(** X6. [Read] removes the oldest message.  On a ring that satisfies the
    invariant, has something to read and on which the reader holds no
    block, [Read(q)] takes the first message [(d, eof)] of the readable
    arc: it returns [n = min(len(q), len(d))], puts the first [n] bytes of
    [d] at the front of [q], returns [io.EOF] exactly when [eof] is set,
    and leaves the other messages as they are.  When [q] is shorter than
    [d], the rest of [d] is dropped with the block. *)
Theorem Read_dequeue
    (rw : ReadWriteCloser) (q : list byte) (m : sharedMem) (rs we ws : N) :
  closed rw = 0 ->
  ring_inv m rs rs we ws ->
  rs < we ->
  exists (d : list byte) (eof : bool) (m' : sharedMem),
    readable m rs we = (d, eof) :: readable m' (rs + 1) we
    /\ (let n := Nat.min (length q) (length d) in
        Read rw q m
        = Ret (n, if eof then Some EOF else None, take n d ++ drop n q) m')
    /\ ring_inv m' (rs + 1) (rs + 1) we ws
    /\ BlockCount m' = BlockCount m /\ BlockSize m' = BlockSize m.
Proof. apply Read_message. Qed.

(** ** First in, first out *)

(** The messages of a run of [Write] calls. *)
Lemma Write_each_messages (rw : ReadWriteCloser) (ps : list (list byte)) :
  forall (m : sharedMem) (re rs ws : N),
    closed rw = 0 ->
    ring_inv m re rs ws ws ->
    ws + N.of_nat (length ps) < re + BlockCount m ->
    exists m' : sharedMem,
      Write_each rw ps m
      = Ret (map (fun p => (Nat.min (N.to_nat (BlockSize m)) (length p), None)) ps) m'
      /\ ring_inv m' re rs (ws + N.of_nat (length ps)) (ws + N.of_nat (length ps))
      /\ BlockCount m' = BlockCount m /\ BlockSize m' = BlockSize m
      /\ readable m' rs (ws + N.of_nat (length ps))
         = readable m rs ws ++ map (written (BlockSize m)) ps.
Proof.
  induction ps as [|p ps IH]; intros m re rs ws Hopen Hinv Hfit.
  - exists m. cbn [Write_each map length N.of_nat]. rewrite N.add_0_r, app_nil_r.
    split; [done|]. split; [exact Hinv|]. by split.
  - cbn [length] in Hfit.
    destruct (Write_message rw p m re rs ws Hopen Hinv)
      as (m1 & Hw & Hinv1 & Hbc1 & Hbs1 & Hq1); [lia|].
    destruct (IH m1 re rs (ws + 1) Hopen Hinv1) as (m' & Hws & Hinv' & Hbc & Hbs & Hq);
      [rewrite Hbc1; lia|].
    replace (ws + N.of_nat (length (p :: ps))) with (ws + 1 + N.of_nat (length ps))
      by (cbn [length]; lia).
    exists m'. split; [|split; [exact Hinv'|split; [congruence|split; [congruence|]]]].
    + cbn [Write_each map]. rewrite Hw. cbn [bind]. rewrite Hws. cbn [bind].
      by rewrite Hbs1.
    + rewrite Hq, Hq1, Hbs1, <- app_assoc. done.
Qed.

(** X7. A run of [Write] calls appends its messages in order.  On a ring
    that satisfies the invariant and on which the writer holds no block,
    if the slices of [ps] are fewer than the free blocks allow, writing
    them one after the other returns for each its count
    [min(len(p), BlockSize)] and no error, and the readable arc has gained
    their messages at its end, in the order of the calls. *)
Theorem Write_each_enqueue (rw : ReadWriteCloser) (ps : list (list byte)) :
  forall (m : sharedMem) (re rs ws : N),
    closed rw = 0 ->
    ring_inv m re rs ws ws ->
    ws + N.of_nat (length ps) < re + BlockCount m ->
    exists m' : sharedMem,
      Write_each rw ps m
      = Ret (map (fun p => (Nat.min (N.to_nat (BlockSize m)) (length p), None)) ps) m'
      /\ ring_inv m' re rs (ws + N.of_nat (length ps)) (ws + N.of_nat (length ps))
      /\ BlockCount m' = BlockCount m /\ BlockSize m' = BlockSize m
      /\ readable m' rs (ws + N.of_nat (length ps))
         = readable m rs ws ++ map (written (BlockSize m)) ps.
Proof. apply Write_each_messages. Qed.

(** The messages of a run of [Read] calls. *)
Lemma Read_each_messages (rw : ReadWriteCloser) (qs : list (list byte)) :
  forall (m : sharedMem) (rs we ws : N),
    closed rw = 0 ->
    ring_inv m rs rs we ws ->
    rs + N.of_nat (length qs) <= we ->
    exists (msgs : list (list byte * bool)) (m' : sharedMem),
      readable m rs we = msgs ++ readable m' (rs + N.of_nat (length qs)) we
      /\ length msgs = length qs
      /\ Read_each rw qs m = Ret (zip_with deliver qs msgs) m'
      /\ ring_inv m' (rs + N.of_nat (length qs)) (rs + N.of_nat (length qs)) we ws
      /\ BlockCount m' = BlockCount m /\ BlockSize m' = BlockSize m.
Proof.
  induction qs as [|q qs IH]; intros m rs we ws Hopen Hinv Hfit.
  - exists [], m. cbn [Read_each length N.of_nat zip_with]. rewrite N.add_0_r.
    split; [done|]. split; [done|]. split; [done|]. split; [exact Hinv|]. by split.
  - cbn [length] in Hfit.
    destruct (Read_message rw q m rs we ws Hopen Hinv)
      as (d & eof & m1 & Hq1 & Hr & Hinv1 & Hbc1 & Hbs1); [lia|].
    destruct (IH m1 (rs + 1) we ws Hopen Hinv1)
      as (msgs & m' & Hq & Hlen & Hrs & Hinv' & Hbc & Hbs); [lia|].
    replace (rs + N.of_nat (length (q :: qs))) with (rs + 1 + N.of_nat (length qs))
      by (cbn [length]; lia).
    exists ((d, eof) :: msgs), m'.
    split; [by rewrite Hq1, Hq|]. split; [cbn [length]; by rewrite Hlen|].
    split; [|split; [exact Hinv'|split; congruence]].
    cbn [Read_each zip_with]. cbn zeta in Hr. rewrite Hr. cbn [bind].
    rewrite Hrs. done.
Qed.

(** X8. A run of [Read] calls takes the messages in order.  On a ring that
    satisfies the invariant and on which the reader holds no block, if
    the readable arc has at least as many messages as there are slices in
    [qs], reading into them one after the other delivers the oldest
    messages in order, one per call, and leaves the rest readable. *)
Theorem Read_each_dequeue (rw : ReadWriteCloser) (qs : list (list byte)) :
  forall (m : sharedMem) (rs we ws : N),
    closed rw = 0 ->
    ring_inv m rs rs we ws ->
    rs + N.of_nat (length qs) <= we ->
    exists (msgs : list (list byte * bool)) (m' : sharedMem),
      readable m rs we = msgs ++ readable m' (rs + N.of_nat (length qs)) we
      /\ length msgs = length qs
      /\ Read_each rw qs m = Ret (zip_with deliver qs msgs) m'
      /\ ring_inv m' (rs + N.of_nat (length qs)) (rs + N.of_nat (length qs)) we ws
      /\ BlockCount m' = BlockCount m /\ BlockSize m' = BlockSize m.
Proof. apply Read_each_messages. Qed.

Lemma deliver_written (bs : N) (ps qs : list (list byte)) :
  Forall (fun p => (length p <= N.to_nat bs)%nat) ps ->
  Forall2 (fun p q => (length p <= length q)%nat) ps qs ->
  zip_with deliver qs (map (written bs) ps)
  = zip_with (fun p q => (length p, Some EOF, p ++ drop (length p) q)) ps qs.
Proof.
  intros Hfit Hle. revert Hfit.
  induction Hle as [|p q ps qs Hpq Hle IH]; intros Hfit; [done|].
  inversion_clear Hfit as [|? ? Hp Hfit'].
  cbn [map zip_with]. rewrite IH by done. f_equal.
  unfold deliver, written. cbn [fst snd].
  replace (Nat.min (N.to_nat bs) (length p)) with (length p) by lia.
  rewrite firstn_all.
  replace (Nat.min (length q) (length p)) with (length p) by lia.
  by rewrite firstn_all.
Qed.

(** X9. Round trip of a sequence of messages.  On a ring at rest that
    satisfies the invariant (all four counters equal, as in a new
    segment), for fewer slices than [BlockCount], each of at most
    [BlockSize] bytes: writing them one after the other with [Write] and
    then reading as many times with [Read], into slices at least as long,
    returns them in the order written, each whole, each with [io.EOF], and
    leaves the ring at rest. *)
Theorem Write_each_Read_each
    (wr rd : ReadWriteCloser) (ps qs : list (list byte)) (m : sharedMem) (c : N) :
  closed wr = 0 ->
  closed rd = 0 ->
  ring_inv m c c c c ->
  N.of_nat (length ps) < BlockCount m ->
  Forall (fun p => (length p <= N.to_nat (BlockSize m))%nat) ps ->
  Forall2 (fun p q => (length p <= length q)%nat) ps qs ->
  exists m1 m2 : sharedMem,
    Write_each wr ps m = Ret (map (fun p => (length p, None)) ps) m1
    /\ Read_each rd qs m1
       = Ret (zip_with (fun p q => (length p, Some EOF, p ++ drop (length p) q))
                       ps qs) m2
    /\ (let c' := c + N.of_nat (length ps) in ring_inv m2 c' c' c' c').
Proof.
  intros Hwr Hrd Hinv Hcount Hfit Hle.
  destruct (Write_each_messages wr ps m c c c Hwr Hinv)
    as (m1 & Hw & Hinv1 & Hbc1 & Hbs1 & Hq1); [lia|].
  assert (Hlen : length ps = length qs) by (by eapply Forall2_length).
  destruct (Read_each_messages rd qs m1 c (c + N.of_nat (length ps))
              (c + N.of_nat (length ps)) Hrd Hinv1)
    as (msgs & m2 & Hq2 & Hlm & Hr & Hinv2 & _); [rewrite Hlen; lia|].
  rewrite <- Hlen in Hq2, Hinv2.
  assert (msgs = map (written (BlockSize m)) ps) as ->.
  { assert (Hnil : forall x k, readable x k k = []).
    { intros x k. unfold readable. by rewrite N.sub_diag. }
    rewrite Hnil in Hq1. rewrite Hnil, app_nil_r in Hq2. cbn [app] in Hq1.
    congruence. }
  exists m1, m2. split; [|split; [|exact Hinv2]].
  - rewrite Hw. f_equal. clear -Hfit.
    induction Hfit as [|p ps Hp Hfit IH]; [done|].
    cbn [map]. rewrite IH. do 2 f_equal. lia.
  - rewrite Hr. f_equal. by apply deliver_written.
Qed.

(** ** A new segment satisfies the invariant *)

Lemma initShared_block_at (blockCount blockSize : N) (nflags : nat) (i : N)
    (b : sharedBlock) :
  block_at i (initShared blockCount blockSize nflags) = Some b ->
  b = initBlock blockCount blockSize nflags (N.to_nat i).
Proof.
  unfold block_at, initShared. cbn [blocks].
  rewrite list_lookup_fmap. intros Hb.
  destruct (seq 0 (N.to_nat blockCount) !! N.to_nat i) as [k|] eqn:Hk; [|done].
  apply lookup_seq in Hk as [-> _]. by injection Hb as <-.
Qed.

Lemma initShared_inv (blockCount blockSize : N) (nflags : nat) :
  0 < blockCount -> blockSize <= maxData -> (0 < nflags)%nat ->
  ring_inv (initShared blockCount blockSize nflags) 0 0 0 0.
Proof.
  intros Hbc Hbs Hnf.
  split; [|split].
  - constructor; cbn [initShared BlockCount BlockSize ReadEnd ReadStart WriteEnd
                      WriteStart SemSignal SemAvail sem_fault]; try done.
    + unfold initShared; cbn [blocks]. rewrite length_map, length_seq. lia.
    + intros i b Hb. apply initShared_block_at in Hb as ->.
      cbn [initShared BlockCount initBlock Next Prev]. rewrite N2Nat.id. done.
    + intros i b Hb. apply initShared_block_at in Hb as ->. simpl. lia.
    + intros i b Hb. apply initShared_block_at in Hb as ->. simpl.
      by destruct nflags; [lia|].
    + intros i b Hb. apply initShared_block_at in Hb as ->. simpl.
      by rewrite length_replicate.
    + intros i b Hb. by apply initShared_block_at in Hb as ->.
    + intros i b Hb. by apply initShared_block_at in Hb as ->.
  - intros b Hb. by apply initShared_block_at in Hb as ->.
  - intros b Hb. by apply initShared_block_at in Hb as ->.
Qed.

(** ** [ReadFrom] on the queue *)

Lemma is_eof_flag_choice (err : option error) (b : sharedBlock) :
  Flags b <> [] ->
  is_eof ((if decide (err = Some EOF) then set_eof else clear_eof) b)
  = bool_decide (err = Some EOF).
Proof.
  intros Hfl. destruct (decide (err = Some EOF)) as [He|He].
  - rewrite bool_decide_eq_true_2 by done. by apply is_eof_set_eof.
  - rewrite bool_decide_eq_false_2 by done.
    unfold is_eof, clear_eof, flag_byte. cbn [Flags set_Flags].
    destruct (Flags b) as [|a l]; [done|]. simpl. by destruct a as [|[p|p|]].
Qed.

Lemma flag_update_choice (err : option error) :
  flag_update (if decide (err = Some EOF) then set_eof else clear_eof).
Proof.
  destruct (decide (err = Some EOF));
    [apply flag_update_set_eof|apply flag_update_clear_eof].
Qed.

(** The messages of [ReadFrom]. *)
Lemma ReadFrom_messages {R : Type} `{Reader R} (rw : ReadWriteCloser) (fuel : nat) :
  forall (r r' : R) (n : Z) (m : sharedMem) (re rs ws : N)
         (chunks : list (list byte * option error)),
    closed rw = 0 ->
    ring_inv m re rs ws ws ->
    drain fuel r (N.to_nat (BlockSize m)) = Some (chunks, r') ->
    Forall (fun c => (length (fst c) <= N.to_nat (BlockSize m))%nat) chunks ->
    ws + N.of_nat (length chunks) < re + BlockCount m ->
    exists m' : sharedMem,
      ReadFrom_loop fuel rw r n m
      = Ret (count_all n (map (fun c => length (fst c)) chunks),
             final_error chunks, r') m'
      /\ (let ws' := ws + N.of_nat (length chunks) in
          ring_inv m' re rs ws' ws'
          /\ readable m' rs ws' = readable m rs ws ++ map chunk_message chunks)
      /\ BlockCount m' = BlockCount m /\ BlockSize m' = BlockSize m.
Proof.
  induction fuel as [|fuel IH];
    intros r r' n m re rs ws chunks Hopen Hinv Hdrain Hfit Hroom; [done|].
  cbn [drain] in Hdrain.
  destruct (reader_Read r (N.to_nat (BlockSize m))) as [[data err] r1] eqn:Hread.
  assert (Hstep : forall chunks', chunks = (data, err) :: chunks' ->
    exists m1, ws + 1 < re + BlockCount m
      /\ ReadFrom_loop (S fuel) rw r n m
         = (if decide (err = Some EOF)
            then Ret (int64_add n (length data), None, r1) m1
            else match err with
                 | Some e => Ret (int64_add n (length data), Some e, r1) m1
                 | None => ReadFrom_loop fuel rw r1 (int64_add n (length data)) m1
                 end)
      /\ ring_inv m1 re rs (ws + 1) (ws + 1)
      /\ BlockCount m1 = BlockCount m /\ BlockSize m1 = BlockSize m
      /\ readable m1 rs (ws + 1) = readable m rs ws ++ [chunk_message (data, err)]).
  { intros chunks' ->. cbn [length] in Hroom.
    inversion_clear Hfit as [|? ? Hd Hfit']. cbn [fst] in Hd.
    destruct (publish_block rw m re rs ws data
                (if decide (err = Some EOF) then set_eof else clear_eof) Hopen Hinv)
      as (bj & m2 & m1 & Hbj & Hget & Hfill & Hsend & Hinv1 & Hbc & Hbs & Hq & _);
      [lia|done|apply flag_update_choice|].
    exists m1. split; [lia|].
    split; [|split; [exact Hinv1|split; [exact Hbc|split; [exact Hbs|]]]].
    - cbn [ReadFrom_loop]. rewrite Hget. cbn [bind Data_cap block]. rewrite Hread.
      destruct (Nat.ltb_spec (N.to_nat (BlockSize m)) (length data)); [lia|].
      rewrite Hfill. unfold reslice. cbn [block write Data_cap].
      rewrite Hsend. cbn [bind snd]. done.
    - rewrite Hq. do 2 f_equal. unfold chunk_message. cbn [fst snd]. f_equal.
      apply is_eof_flag_choice. cbn [fill Flags set_payload].
      destruct Hinv as [[] _]. by eapply arcs_Flags0. }
  destruct err as [e|].
  - injection Hdrain as <- <-.
    destruct (Hstep [] eq_refl) as (m1 & _ & Hrun & Hinv1 & Hbc & Hbs & Hq).
    exists m1. split; [|split; [by split|by split]].
    rewrite Hrun. unfold count_all. cbn [final_error map fold_left fst].
    destruct (decide (Some e = Some EOF)) as [[= ->]|Hne].
    + by destruct (decide (EOF = EOF)).
    + destruct (decide (e = EOF)) as [->|_]; done.
  - destruct (drain fuel r1 (N.to_nat (BlockSize m))) as [[l r2]|] eqn:Hrest;
      [|done].
    injection Hdrain as <- <-.
    destruct (Hstep l eq_refl) as (m1 & Hfree & Hrun & Hinv1 & Hbc & Hbs & Hq).
    inversion_clear Hfit as [|? ? Hd Hfit'].
    destruct (IH r1 r2 (int64_add n (length data)) m1 re rs (ws + 1) l Hopen Hinv1)
      as (m' & Hrun' & [Hinv' Hq'] & Hbc' & Hbs'); try (by rewrite Hbs);
      [rewrite Hbc; cbn [length] in Hroom; lia|].
    replace (ws + N.of_nat (length ((data, None) :: l)))
      with (ws + 1 + N.of_nat (length l)) by (cbn [length]; lia).
    exists m'. split; [|split; [split; [exact Hinv'|]|split; congruence]].
    + rewrite Hrun. destruct (decide (None = Some EOF)); [done|].
      rewrite Hrun'. do 2 f_equal.
      destruct l as [|c l]; [by destruct fuel|done].
    + rewrite Hq', Hq, <- app_assoc. done.
Qed.

(** X10. [ReadFrom] in full.  On a ring that satisfies the invariant and on
    which the writer holds no block, let the source answer the calls
    [r.Read] with [chunks], the last of which is the first to report an
    error or the end of the data.  If every chunk fits a block and the
    ring has a free block for each, [ReadFrom] publishes one block per
    chunk, in order, each with the EOF bit exactly when the source
    reported [io.EOF] with it; it returns the number of bytes of all
    chunks and the source's last error, or nil when that was [io.EOF]. *)
Theorem ReadFrom_enqueue {R : Type} `{Reader R} (rw : ReadWriteCloser) (fuel : nat) :
  forall (r r' : R) (n : Z) (m : sharedMem) (re rs ws : N)
         (chunks : list (list byte * option error)),
    closed rw = 0 ->
    ring_inv m re rs ws ws ->
    drain fuel r (N.to_nat (BlockSize m)) = Some (chunks, r') ->
    Forall (fun c => (length (fst c) <= N.to_nat (BlockSize m))%nat) chunks ->
    ws + N.of_nat (length chunks) < re + BlockCount m ->
    exists m' : sharedMem,
      ReadFrom_loop fuel rw r n m
      = Ret (count_all n (map (fun c => length (fst c)) chunks),
             final_error chunks, r') m'
      /\ (let ws' := ws + N.of_nat (length chunks) in
          ring_inv m' re rs ws' ws'
          /\ readable m' rs ws' = readable m rs ws ++ map chunk_message chunks)
      /\ BlockCount m' = BlockCount m /\ BlockSize m' = BlockSize m.
Proof. apply ReadFrom_messages. Qed.

(** ** [WriteTo] on the queue *)

(** Acquire and release on the reader's side, when the reader holds no
    other block and something is readable. *)
Lemma consume_block
    (rw : ReadWriteCloser) (m : sharedMem) (rs we ws : N) :
  closed rw = 0 ->
  ring_inv m rs rs we ws ->
  rs < we ->
  let j := rs mod BlockCount m in
  exists (b : sharedBlock) (m' : sharedMem),
    block_at j m = Some b
    /\ (let buf := mkBuffer j false (N.to_nat (Size b)) (N.to_nat (BlockSize m)) in
        let m1 := set_ReadStart ((rs + 1) mod BlockCount m) m in
        GetReadBuffer rw m = Ret (inl buf) m1
        /\ SendReadBuffer rw buf m1 = Ret None m')
    /\ ring_inv m' (rs + 1) (rs + 1) we ws
    /\ BlockCount m' = BlockCount m /\ BlockSize m' = BlockSize m
    /\ readable m rs we = message b :: readable m' (rs + 1) we
    /\ sem_value (SemAvail m')
       = sem_value (SemAvail m)
         + (if decide (ws + 1 = rs + BlockCount m) then 1 else 0).
Proof.
  intros Hopen Hinv Hsome j.
  destruct (GetReadBuffer_inv rw m rs rs we ws Hopen Hinv) as [_ Hget].
  destruct (Hget Hsome) as (b & Hb & Hget1 & Hinv1). clear Hget.
  pose proof Hinv as (Harcs & Hqw & Hqr). pose proof Harcs as [].
  fold j in Hb, Hget1.
  set (m1 := set_ReadStart ((rs + 1) mod BlockCount m) m) in *.
  set (buf := mkBuffer j false (N.to_nat (Size b)) (N.to_nat (BlockSize m))) in *.
  destruct (SendReadBuffer_inv rw buf m1 rs (rs + 1) we ws rs b)
    as (re' & m' & Hsend & Hinv' & Hmoved & _ & Hpost & _); try done; try lia.
  { apply Hqr. rewrite arcs_ReadEnd0. exact Hb. }
  specialize (Hmoved eq_refl).
  assert (re' = rs + 1) as ->.
  { destruct Hinv' as [[] _]. lia. }
  destruct (SendReadBuffer_data rw buf m1 m' _ Hsend) as (Hbc & Hbs & Hdata).
  exists b, m'. split; [exact Hb|]. split; [by split|]. split; [exact Hinv'|].
  split; [exact Hbc|]. split; [exact Hbs|]. split.
  - unfold readable.
    replace (N.to_nat (we - rs)) with (S (N.to_nat (we - (rs + 1)))) by lia.
    rewrite messages_S. fold j. rewrite Hb. f_equal. symmetry.
    apply messages_ext; [exact Hbc|]. intros k Hk.
    destruct (arcs_lookup Harcs (rs + 1 + N.of_nat k)) as [c Hc].
    destruct (Hdata _ _ Hc) as (c' & Hc' & Hp & Hf & Hs).
    exists c, c'. split; [exact Hc|]. split; [exact Hc'|]. by apply message_ext.
  - rewrite Hpost. change (SemAvail m1) with (SemAvail m).
    change (BlockCount m1) with (BlockCount m). f_equal.
    destruct (decide (ws + 1 = rs + BlockCount m /\ rs = rs)) as [[? _]|Hn];
      destruct (decide (ws + 1 = rs + BlockCount m)) as [?|?]; try done.
    by destruct Hn.
Qed.

(** One iteration of [WriteTo] on the oldest readable block. *)
Lemma WriteTo_loop_step {W : Type} `{Writer W}
    (rw : ReadWriteCloser) (fuel : nat) (w : W) (n : Z)
    (m : sharedMem) (rs we ws : N) :
  closed rw = 0 ->
  ring_inv m rs rs we ws ->
  rs < we ->
  exists (d : list byte) (eof : bool) (m' : sharedMem),
    readable m rs we = (d, eof) :: readable m' (rs + 1) we
    /\ ring_inv m' (rs + 1) (rs + 1) we ws
    /\ BlockCount m' = BlockCount m /\ BlockSize m' = BlockSize m
    /\ WriteTo_loop (S fuel) rw w n m
       = (let '(nn, err, w') := writer_Write w d in
          if bool_decide (err <> None) || eof
          then Ret (int64_add n nn, err, w') m'
          else WriteTo_loop fuel rw w' (int64_add n nn) m').
Proof.
  intros Hopen Hinv Hsome.
  destruct (consume_block rw m rs we ws Hopen Hinv Hsome)
    as (b & m' & Hb & [Hget Hsend] & Hinv' & Hbc & Hbs & Hq & _).
  exists (take (N.to_nat (Size b)) (payload b)), (is_eof b), m'.
  split; [exact Hq|]. split; [exact Hinv'|]. split; [exact Hbc|].
  split; [exact Hbs|].
  cbn [WriteTo_loop]. rewrite Hget. cbn [bind].
  unfold Data. cbn [block Data_len].
  change (block_at (rs mod BlockCount m)
            (set_ReadStart ((rs + 1) mod BlockCount m) m))
    with (block_at (rs mod BlockCount m) m).
  rewrite Hb.
  destruct (writer_Write w (take (N.to_nat (Size b)) (payload b)))
    as [[nn err] w'].
  rewrite Hsend. done.
Qed.

(** The messages of [WriteTo]. *)
Lemma WriteTo_messages {W : Type} `{Writer W} (rw : ReadWriteCloser) (fuel : nat) :
  forall (w w' : W) (n n' : Z) (m : sharedMem) (rs we ws : N)
         (k : nat) (err : option error),
    closed rw = 0 ->
    ring_inv m rs rs we ws ->
    feed w (readable m rs we) n = Some (k, n', err, w') ->
    (k <= fuel)%nat ->
    exists m' : sharedMem,
      WriteTo_loop fuel rw w n m = Ret (n', err, w') m'
      /\ ring_inv m' (rs + N.of_nat k) (rs + N.of_nat k) we ws
      /\ readable m rs we
         = take k (readable m rs we) ++ readable m' (rs + N.of_nat k) we.
Proof.
  induction fuel as [|fuel IH];
    intros w w' n n' m rs we ws k err Hopen Hinv Hfeed Hk.
  { destruct (readable m rs we) as [|[d eof] l]; [done|].
    cbn [feed] in Hfeed. destruct (writer_Write w d) as [[nn e] w1].
    destruct (bool_decide (e <> None) || eof); [injection Hfeed as <-; lia|].
    destruct (feed w1 l (int64_add n nn)) as [[[[k0 ?] ?] ?]|]; [|done].
    injection Hfeed as <-. lia. }
  assert (Hsome : rs < we).
  { destruct (decide (rs < we)) as [|Hge]; [done|].
    unfold readable in Hfeed. replace (we - rs) with 0 in Hfeed by lia. done. }
  destruct (WriteTo_loop_step rw fuel w n m rs we ws Hopen Hinv Hsome)
    as (d & eof & m1 & Hq & Hinv1 & Hbc & Hbs & Hrun).
  rewrite Hq in Hfeed |- *. cbn [feed] in Hfeed.
  rewrite Hrun. destruct (writer_Write w d) as [[nn e] w1].
  destruct (bool_decide (e <> None) || eof).
  - injection Hfeed as <- <- <- <-. exists m1.
    split; [done|]. split; [exact Hinv1|]. done.
  - destruct (feed w1 (readable m1 (rs + 1) we) (int64_add n nn))
      as [[[[k0 n0] e0] w0]|] eqn:Hrest; [|done].
    injection Hfeed as <- <- <- <-.
    destruct (IH w1 w0 (int64_add n nn) n0 m1 (rs + 1) we ws k0 e0 Hopen Hinv1 Hrest)
      as (m' & Hrun' & Hinv' & Hq'); [lia|].
    replace (rs + N.of_nat (S k0)) with (rs + 1 + N.of_nat k0) by lia.
    exists m'. split; [exact Hrun'|]. split; [exact Hinv'|].
    cbn [take]. by rewrite <- app_comm_cons, <- Hq'.
Qed.

(** X11. [WriteTo] in full.  On a ring that satisfies the invariant and on
    which the reader holds no block, if the readable messages, given to
    the sink in order, reach a message with the EOF bit or an error of
    the sink at the [k]-th, then [WriteTo] takes exactly these [k]
    messages, gives each payload to the sink, returns the number of bytes
    the sink accepted and the sink's error (nil after an EOF block), and
    leaves the later messages readable. *)
Theorem WriteTo_dequeue {W : Type} `{Writer W} (rw : ReadWriteCloser) (fuel : nat) :
  forall (w w' : W) (n n' : Z) (m : sharedMem) (rs we ws : N)
         (k : nat) (err : option error),
    closed rw = 0 ->
    ring_inv m rs rs we ws ->
    feed w (readable m rs we) n = Some (k, n', err, w') ->
    (k <= fuel)%nat ->
    exists m' : sharedMem,
      WriteTo_loop fuel rw w n m = Ret (n', err, w') m'
      /\ ring_inv m' (rs + N.of_nat k) (rs + N.of_nat k) we ws
      /\ readable m rs we
         = take k (readable m rs we) ++ readable m' (rs + N.of_nat k) we.
Proof. apply WriteTo_messages. Qed.

(** X12. [WriteTo] without an end.  If the readable messages run out before
    one carries the EOF bit or the sink fails, [WriteTo] takes them all
    and then sleeps on [SemSignal]: nothing is returned to the caller. *)
Theorem WriteTo_drains_and_parks {W : Type} `{Writer W}
    (rw : ReadWriteCloser) (fuel : nat) :
  forall (w : W) (n : Z) (m : sharedMem) (rs we ws : N),
    closed rw = 0 ->
    ring_inv m rs rs we ws ->
    feed w (readable m rs we) n = None ->
    (N.to_nat (we - rs) < fuel)%nat ->
    exists m' : sharedMem,
      WriteTo_loop fuel rw w n m = Park sSignal m'
      /\ ring_inv m' we we we ws.
Proof.
  induction fuel as [|fuel IH]; intros w n m rs we ws Hopen Hinv Hfeed Hfuel; [lia|].
  destruct (decide (rs < we)) as [Hsome|Hempty].
  - destruct (WriteTo_loop_step rw fuel w n m rs we ws Hopen Hinv Hsome)
      as (d & eof & m1 & Hq & Hinv1 & Hbc & Hbs & Hrun).
    rewrite Hq in Hfeed. cbn [feed] in Hfeed. rewrite Hrun.
    destruct (writer_Write w d) as [[nn e] w1].
    destruct (bool_decide (e <> None) || eof); [done|].
    destruct (feed w1 (readable m1 (rs + 1) we) (int64_add n nn))
      as [[[[k0 n0] e0] w0]|] eqn:Hrest; [done|].
    apply (IH w1 _ m1 (rs + 1) we ws Hopen Hinv1 Hrest). lia.
  - assert (rs = we) as -> by (destruct Hinv as [[] _]; lia).
    destruct (GetReadBuffer_inv rw m we we we ws Hopen Hinv) as [Hget _].
    destruct (Hget eq_refl) as [Hpark Hinv'].
    exists (set_SemSignal (mkSem 0 None) m). split; [|exact Hinv'].
    cbn [WriteTo_loop]. by rewrite Hpark.
Qed.

(** ** A stream through the ring *)

Lemma drain_length {R : Type} `{Reader R} (fuel : nat) :
  forall (r r' : R) (cap : nat) (chunks : list (list byte * option error)),
    drain fuel r cap = Some (chunks, r') -> (length chunks <= fuel)%nat.
Proof.
  induction fuel as [|fuel IH]; intros r r' cap chunks; [done|].
  cbn [drain]. destruct (reader_Read r cap) as [[data [e|]] r1].
  - intros [= <- <-]. simpl. lia.
  - destruct (drain fuel r1 cap) as [[l r2]|] eqn:Hrest; [|done].
    intros [= <- <-]. apply IH in Hrest. simpl. lia.
Qed.

Lemma count_all_app (n : Z) (l1 l2 : list nat) :
  count_all n (l1 ++ l2) = count_all (count_all n l1) l2.
Proof. unfold count_all. by rewrite fold_left_app. Qed.

(** A sink that keeps all it is given takes every message up to the
    first with the EOF bit. *)
Lemma feed_bytes_Writer (init : list (list byte)) :
  forall (w d : list byte) (n : Z),
    feed w (map (fun x => (x, false)) init ++ [(d, true)]) n
    = Some (S (length init), count_all n (map length (init ++ [d])), None,
            w ++ concat (init ++ [d])).
Proof.
  induction init as [|x init IH]; intros w d n.
  - cbn [map app feed length concat]. unfold writer_Write, bytes_Writer.
    cbn. by rewrite app_nil_r.
  - cbn [map app feed]. unfold writer_Write at 1, bytes_Writer at 1. cbn beta iota.
    rewrite bool_decide_eq_false_2 by (by intros ?). cbn [orb].
    rewrite IH. cbn [length concat map app]. rewrite <- app_assoc. done.
Qed.

(** X13. Round trip of a stream.  On a ring at rest that satisfies the
    invariant, let the source answer [ReadFrom] with the chunks [init],
    each with a nil error, and then with [d] and [io.EOF], all of at most
    [BlockSize] bytes and fewer than [BlockCount] in number.  Then
    [ReadFrom] returns the number of bytes of all chunks and nil, and the
    [WriteTo] that follows gives a sink that keeps what it gets exactly
    these bytes, in order, and returns the same count and nil; the ring
    is at rest again. *)
Theorem ReadFrom_WriteTo_round_trip {R : Type} `{Reader R}
    (wr rd : ReadWriteCloser) (fuel : nat) (r r' : R) (m : sharedMem) (c : N)
    (init : list (list byte)) (d w : list byte) :
  closed wr = 0 ->
  closed rd = 0 ->
  ring_inv m c c c c ->
  drain fuel r (N.to_nat (BlockSize m))
  = Some (map (fun x => (x, None)) init ++ [(d, Some EOF)], r') ->
  Forall (fun x => (length x <= N.to_nat (BlockSize m))%nat) (init ++ [d]) ->
  N.of_nat (length init) + 1 < BlockCount m ->
  let total := count_all 0 (map length (init ++ [d])) in
  exists m1 m2 : sharedMem,
    ReadFrom fuel wr r m = Ret (total, None, r') m1
    /\ WriteTo fuel rd w m1 = Ret (total, None, w ++ concat (init ++ [d])) m2
    /\ (let c' := c + N.of_nat (length init) + 1 in ring_inv m2 c' c' c' c').
Proof.
  intros Hwr Hrd Hinv Hdrain Hfit Hroom total.
  set (chunks := map (fun x => (x, None)) init ++ [(d, Some EOF)]) in *.
  assert (Hlen : length chunks = S (length init)).
  { unfold chunks. rewrite length_app, length_map. simpl. lia. }
  assert (Hfst : map (fun c => length (fst c)) chunks = map length (init ++ [d])).
  { unfold chunks. rewrite !map_app, map_map. done. }
  assert (Hmsg : map chunk_message chunks
                 = map (fun x => (x, false)) init ++ [(d, true)]).
  { unfold chunks. rewrite map_app, map_map. done. }
  assert (Hfin : final_error chunks = None).
  { unfold chunks. clear. induction init as [|x init IH]; [done|].
    cbn [map app]. destruct (map _ init ++ _) eqn:E; [|exact IH].
    by destruct init. }
  destruct (ReadFrom_messages wr fuel r r' 0%Z m c c c chunks Hwr Hinv Hdrain)
    as (m1 & Hrf & [Hinv1 Hq1] & Hbc1 & Hbs1).
  { unfold chunks. clear -Hfit.
    induction init as [|x init IH]; cbn [map app] in *;
      inversion_clear Hfit; constructor; auto. }
  { rewrite Hlen. lia. }
  rewrite Hfst, Hfin in Hrf. rewrite Hlen in Hinv1, Hq1.
  destruct (WriteTo_messages rd fuel w (w ++ concat (init ++ [d])) 0%Z total m1
              c (c + N.of_nat (S (length init))) (c + N.of_nat (S (length init)))
              (S (length init)) None Hrd Hinv1)
    as (m2 & Hwt & Hinv2 & _).
  { rewrite Hq1. unfold readable at 1. rewrite N.sub_diag. cbn [N.to_nat messages app].
    rewrite Hmsg. apply feed_bytes_Writer. }
  { rewrite <- Hlen. by eapply drain_length. }
  exists m1, m2. split; [exact Hrf|]. split; [exact Hwt|].
  cbn zeta. by replace (c + N.of_nat (length init) + 1)
    with (c + N.of_nat (S (length init))) by lia.
Qed.

(** ** How far a release moves the end pointer *)





(** ** Progress *)

(** X16. No deadlock at rest.  On a ring of at least two blocks that satisfies
    the invariant, when neither side holds a block, at least one of the
    two acquire operations returns a lease at once: the ring is not both
    full for the writer and empty for the reader. *)
Theorem no_deadlock_at_rest
    (wr rd : ReadWriteCloser) (m : sharedMem) (rs ws : N) :
  closed wr = 0 ->
  closed rd = 0 ->
  ring_inv m rs rs ws ws ->
  2 <= BlockCount m ->
  (exists buf m', GetWriteBuffer wr m = Ret (inl buf) m')
  \/ (exists buf m', GetReadBuffer rd m = Ret (inl buf) m').
Proof.
  intros Hwr Hrd Hinv Hbc.
  destruct (decide (rs < ws)) as [Hsome|Hempty].
  - right. destruct (GetReadBuffer_inv rd m rs rs ws ws Hrd Hinv) as [_ Hget].
    destruct (Hget Hsome) as (b & _ & Hget1 & _). eauto.
  - left. destruct (GetWriteBuffer_inv wr m rs rs ws ws Hwr Hinv) as [_ Hget].
    destruct Hget as [Hget1 _]; [|eauto].
    destruct Hinv as [[] _]. lia.
Qed.

(** X17. A ring of one block cannot be written: under the invariant the ring
    is always full for the writer, and [GetWriteBuffer] sleeps. *)
Theorem one_block_ring_is_full
    (rw : ReadWriteCloser) (m : sharedMem) (re rs we ws : N) :
  closed rw = 0 ->
  ring_inv m re rs we ws ->
  BlockCount m = 1 ->
  GetWriteBuffer rw m = Park sAvail (set_SemAvail (mkSem 0 None) m).
Proof.
  intros Hopen Hinv Hbc.
  destruct (GetWriteBuffer_inv rw m re rs we ws Hopen Hinv) as [Hget _].
  apply Hget. destruct Hinv as [[] _]. lia.
Qed.

(** X18. The wake-up of the reader.  On a ring at rest with nothing to read,
    a [Write] leaves one more token in [SemSignal], and the reader's
    [GetReadBuffer] then returns a lease on the block written, with the
    length the writer stored. *)
Theorem Write_wakes_reader
    (wr rd : ReadWriteCloser) (p : list byte) (m : sharedMem) (c : N) :
  closed wr = 0 ->
  closed rd = 0 ->
  ring_inv m c c c c ->
  2 <= BlockCount m ->
  let n := Nat.min (N.to_nat (BlockSize m)) (length p) in
  exists m1 m2 : sharedMem,
    Write wr p m = Ret (n, None) m1
    /\ sem_value (SemSignal m1) = sem_value (SemSignal m) + 1
    /\ GetReadBuffer rd m1
       = Ret (inl (mkBuffer (c mod BlockCount m) false n (N.to_nat (BlockSize m)))) m2.
Proof.
  intros Hwr Hrd Hinv Hbc n.
  assert (Hn : length (take n p) = n) by (rewrite length_take; lia).
  destruct (publish_block wr m c c c (take n p) set_eof Hwr Hinv)
    as (bj & m2 & m1 & Hbj & Hget & Hfill & Hsend & Hinv1 & Hbc1 & Hbs1 & Hq & Hpost);
    [lia|lia|apply flag_update_set_eof|].
  rewrite Hn in Hsend.
  destruct (decide (c = c)); [|done].
  destruct (GetReadBuffer_inv rd m1 c c (c + 1) (c + 1) Hrd Hinv1) as [_ Hgr].
  destruct Hgr as (b & Hb & Hgr & _); [lia|]. cbn zeta in Hgr.
  destruct (SendWriteBuffer_data wr
              (mkBuffer (c mod BlockCount m) true n (N.to_nat (BlockSize m)))
              m2 m1 _ Hwr eq_refl Hsend) as (_ & _ & Hdata).
  apply with_block_Some in Hfill as (b0 & Hb0 & ->).
  destruct (Hdata (c mod BlockCount m) (set_eof (fill (take n p) b0)))
    as (b' & Hb' & _ & _ & Hsz).
  { by apply (block_at_store_eq _ _ b0). }
  cbn [block Data_len] in Hsz.
  destruct (decide (c mod BlockCount m = c mod BlockCount m)); [|done].
  rewrite Hbc1 in Hb. assert (b = b') as -> by congruence.
  eexists m1, _. split; [|split; [exact Hpost|]].
  - unfold Write. rewrite Hget. cbn [bind block Data_cap]. fold n.
    unfold with_block. rewrite Hb0. unfold reslice. cbn [block write Data_cap].
    by rewrite Hsend.
  - rewrite Hgr, Hsz, Nat2N.id, Hbc1, Hbs1. done.
Qed.

(** X19. The wake-up of the writer.  On a full ring on which neither side
    holds a block, [GetWriteBuffer] sleeps; a [Read] then leaves one more
    token in [SemAvail], and the writer's [GetWriteBuffer] returns a lease
    on the block at [WriteStart], the one block of the ring that was kept
    unused while the ring was full. *)
Theorem Read_wakes_writer
    (wr rd : ReadWriteCloser) (q : list byte) (m : sharedMem) (rs ws : N) :
  closed wr = 0 ->
  closed rd = 0 ->
  ring_inv m rs rs ws ws ->
  ws + 1 = rs + BlockCount m ->
  2 <= BlockCount m ->
  exists (r : nat * option error * list byte) (m1 m2 : sharedMem),
    GetWriteBuffer wr m = Park sAvail (set_SemAvail (mkSem 0 None) m)
    /\ Read rd q m = Ret r m1
    /\ sem_value (SemAvail m1) = sem_value (SemAvail m) + 1
    /\ GetWriteBuffer wr m1
       = Ret (inl (mkBuffer (WriteStart m) true 0 (N.to_nat (BlockSize m)))) m2.
Proof.
  intros Hwr Hrd Hinv Hfull Hbc.
  destruct (GetWriteBuffer_inv wr m rs rs ws ws Hwr Hinv) as [Hpark _].
  destruct (Hpark Hfull) as [Hpark1 _].
  destruct (consume_block rd m rs ws ws Hrd Hinv)
    as (b & m1 & Hb & [Hget Hsend] & Hinv1 & Hbc1 & Hbs1 & Hq & Hpost); [lia|].
  destruct (decide (ws + 1 = rs + BlockCount m)); [|done].
  destruct (GetWriteBuffer_inv wr m1 (rs + 1) (rs + 1) ws ws Hwr Hinv1) as [_ Hgw].
  destruct Hgw as [Hgw _]; [rewrite Hbc1; lia|]. cbn zeta in Hgw.
  assert (Hread : exists r, Read rd q m = Ret r m1).
  { unfold Read. rewrite Hget. cbn [bind block Data_len].
    change (block_at (rs mod BlockCount m)
              (set_ReadStart ((rs + 1) mod BlockCount m) m))
      with (block_at (rs mod BlockCount m) m).
    rewrite Hb, Hsend. cbn [bind].
    destruct (is_eof b); eauto. }
  destruct Hread as [r Hread].
  eexists r, m1, _. split; [exact Hpark1|]. split; [exact Hread|].
  split; [exact Hpost|].
  rewrite Hgw, Hbc1, Hbs1.
  destruct Hinv as [[] _]. by rewrite arcs_WriteStart0.
Qed.

(** ** Closing twice, and leases of the wrong direction *)

(** X20. [Close] unmaps at most once: on an endpoint that [Close] has already
    run on, a second [Close] returns [nil] whatever [unix.Munmap] would
    answer, and leaves the endpoint as the first call left it. *)
Theorem Close_twice (mu1 mu2 : option error) (rw : ReadWriteCloser) :
  Close mu2 (snd (Close mu1 rw)) = (None, snd (Close mu1 rw)).
Proof.
  unfold Close at 1. by rewrite Close_closed.
Qed.

(** X21. The direction of a lease is checked.  A lease that [GetWriteBuffer]
    returned is refused by [SendReadBuffer] with [ErrInvalidBuffer], and a
    lease that [GetReadBuffer] returned is refused by [SendWriteBuffer]
    with [ErrInvalidBuffer] and a count of 0; in both cases the segment is
    left as the acquire left it, so the block stays leased. *)
Theorem lease_direction_checked
    (rw : ReadWriteCloser) (m m' : sharedMem) (buf : Buffer) :
  (GetWriteBuffer rw m = Ret (inl buf) m' ->
   SendReadBuffer rw buf m' = Ret (Some ErrInvalidBuffer) m')
  /\ (GetReadBuffer rw m = Ret (inl buf) m' ->
      SendWriteBuffer rw buf m' = Ret (O, Some ErrInvalidBuffer) m').
Proof.
  split; intros Hget.
  - pose proof (GetWriteBuffer_shape _ _ _ _ Hget) as (Hw & _).
    unfold GetWriteBuffer in Hget. unfold SendReadBuffer.
    destruct (negb (closed rw =? 0)); [done|]. by rewrite Hw.
  - pose proof (GetReadBuffer_shape _ _ _ _ Hget) as (b & _ & Hw & _).
    unfold GetReadBuffer in Hget. unfold SendWriteBuffer.
    destruct (negb (closed rw =? 0)); [done|]. by rewrite Hw.
Qed.

(** ** The counter of the demonstration program *)

Lemma le_value_bound (ctr : list N) :
  Forall (fun b => b < 256) ctr ->
  le_value ctr < 256 ^ N.of_nat (length ctr).
Proof.
  induction 1 as [|b rest Hb _ IH]; [simpl; lia|].
  cbn [le_value length]. rewrite Nat2N.inj_succ, N.pow_succ_r'. lia.
Qed.

(** X22. The loop of the counter mode adds one to the number the array holds,
    least significant byte first, and wraps to 0 after the largest number
    the array can hold; the array keeps its length and its elements stay
    bytes. *)
Theorem ctr_incr_adds_one (ctr : list N) :
  Forall (fun b => b < 256) ctr ->
  le_value (ctr_incr ctr) = (le_value ctr + 1) mod 256 ^ N.of_nat (length ctr)
  /\ length (ctr_incr ctr) = length ctr
  /\ Forall (fun b => b < 256) (ctr_incr ctr).
Proof.
  induction 1 as [|b rest Hb Hrest (IHv & IHl & IHb)].
  - by cbn.
  - pose proof (le_value_bound rest Hrest) as Hbound.
    cbn [ctr_incr]. cbn zeta.
    destruct (N.eqb_spec ((b + 1) mod 256) 0) as [Hz|Hnz].
    + assert (b = 255) as ->.
      { destruct (decide (b = 255)) as [|Hne]; [done|].
        rewrite N.mod_small in Hz; lia. }
      cbn [le_value length]. rewrite IHv, IHl, Nat2N.inj_succ, N.pow_succ_r'.
      split; [|split; [done|by constructor]].
      change ((255 + 1) mod 256) with 0.
      replace (255 + 256 * le_value rest + 1) with (256 * (le_value rest + 1)) by lia.
      rewrite N.Div0.mul_mod_distr_l. lia.
    + assert (Hlt : b + 1 < 256).
      { destruct (decide (b = 255)) as [->|Hne]; [done|lia]. }
      rewrite N.mod_small in * by done.
      cbn [le_value length]. rewrite Nat2N.inj_succ, N.pow_succ_r'.
      split; [|split; [done|by constructor]].
      rewrite N.mod_small; lia.
Qed.

(** ** The sample segments satisfy the invariant *)

Lemma ring4_inv : ring_inv ring4 0 0 0 0.
Proof. apply initShared_inv; [lia|by vm_compute|lia]. Qed.

Lemma ring1_inv : ring_inv ring1 0 0 0 0.
Proof. apply initShared_inv; [lia|by vm_compute|lia]. Qed.

Lemma ring4_leased_inv : ring_inv ring4_leased 0 0 0 1.
Proof.
  destruct (GetWriteBuffer_inv rw_open ring4 0 0 0 0 eq_refl ring4_inv) as [_ Hget].
  destruct Hget as [Hget Hinv]; [by vm_compute|].
  unfold ring4_leased. rewrite Hget. exact Hinv.
Qed.

Lemma ring4_hello_inv : ring_inv ring4_hello 0 0 1 1.
Proof.
  destruct (Write_message rw_open hello ring4 0 0 0 eq_refl ring4_inv)
    as (m' & Hw & Hinv & _); [by vm_compute|].
  unfold ring4_hello. rewrite Hw. exact Hinv.
Qed.

Lemma ring4_full_inv : ring_inv ring4_full 0 0 3 3.
Proof.
  destruct (Write_each_messages rw_open [hello; hello; hello] ring4 0 0 0 eq_refl
              ring4_inv) as (m' & Hw & Hinv & _); [by vm_compute|].
  unfold ring4_full. rewrite Hw. exact Hinv.
Qed.

Lemma ring4_reading_inv : ring_inv ring4_reading 0 1 1 1.
Proof.
  destruct (GetReadBuffer_inv rw_open ring4_hello 0 0 1 1 eq_refl ring4_hello_inv)
    as [_ Hget].
  destruct Hget as (b & _ & Hget & Hinv); [lia|].
  unfold ring4_reading. rewrite Hget. exact Hinv.
Qed.

Lemma ring4_partial_inv : ring_inv ring4_partial 0 0 1 1.
Proof.
  destruct (ReadFrom_messages rw_open 1 FailingSource FailingSource 0%Z ring4 0 0 0
              [(hello, Some (Errno 5))] eq_refl ring4_inv)
    as (m' & Hr & [Hinv _] & _).
  - reflexivity.
  - repeat constructor; vm_compute; lia.
  - by vm_compute.
  - unfold ring4_partial, ReadFrom. rewrite Hr. exact Hinv.
Qed.

(** ** The invariant theorems at sample inputs *)

Lemma GetWriteBuffer_arcs_witness :
  (GetWriteBuffer rw_open ring4
   = Ret (inl (mkBuffer 0 true 0 64)) (set_WriteStart 1 ring4)
   /\ ring_inv (set_WriteStart 1 ring4) 0 0 0 1)
  /\ (GetWriteBuffer rw_open ring4_full
      = Park sAvail (set_SemAvail (mkSem 0 None) ring4_full)
      /\ ring_inv (set_SemAvail (mkSem 0 None) ring4_full) 0 0 3 3).
Proof.
  split.
  - destruct (GetWriteBuffer_arcs rw_open ring4 0 0 0 0 eq_refl ring4_inv)
      as [_ Hlease].
    destruct Hlease as [Hget Hinv]; [by vm_compute|]. by split.
  - destruct (GetWriteBuffer_arcs rw_open ring4_full 0 0 3 3 eq_refl ring4_full_inv)
      as [Hfull _].
    destruct Hfull as [Hget Hinv]; [by vm_compute|]. by split.
Defined.

Lemma GetReadBuffer_arcs_witness :
  (GetReadBuffer rw_open ring4
   = Park sSignal (set_SemSignal (mkSem 0 None) ring4)
   /\ ring_inv (set_SemSignal (mkSem 0 None) ring4) 0 0 0 0)
  /\ (exists b,
        block_at 0 ring4_hello = Some b
        /\ GetReadBuffer rw_open ring4_hello
           = Ret (inl (mkBuffer 0 false (N.to_nat (Size b)) 64))
                 (set_ReadStart 1 ring4_hello)
           /\ ring_inv (set_ReadStart 1 ring4_hello) 0 1 1 1).
Proof.
  split.
  - destruct (GetReadBuffer_arcs rw_open ring4 0 0 0 0 eq_refl ring4_inv)
      as [Hempty _].
    destruct Hempty as [Hget Hinv]; [done|]. by split.
  - destruct (GetReadBuffer_arcs rw_open ring4_hello 0 0 1 1 eq_refl ring4_hello_inv)
      as [_ Hlease].
    destruct Hlease as (b & Hb & Hget & Hinv); [lia|].
    exists b. split; [exact Hb|]. split; [exact Hget|exact Hinv].
Defined.

Lemma SendWriteBuffer_arcs_witness :
  let buf := mkBuffer 0 true 5 64 in
  exists (we' : N) (m' : sharedMem),
    SendWriteBuffer rw_open buf ring4_leased = Ret (5%nat, None) m'
    /\ ring_inv m' 0 0 we' 1
    /\ (0 = 0 -> 0 < we')
    /\ (0 <> 0 -> we' = 0)
    /\ sem_value (SemSignal m')
       = sem_value (SemSignal ring4_leased)
         + (if decide (0 = 0 /\ 0 = 0) then 1 else 0)
    /\ SemAvail m' = SemAvail ring4_leased.
Proof.
  intros buf.
  apply (SendWriteBuffer_arcs rw_open buf ring4_leased 0 0 0 1 0
           (initBlock 4 64 1 0) eq_refl eq_refl ring4_leased_inv);
    [lia|lia|reflexivity|reflexivity|by vm_compute|by vm_compute].
Defined.

Lemma SendReadBuffer_arcs_witness :
  let buf := mkBuffer 0 false 5 64 in
  exists (re' : N) (m' : sharedMem),
    SendReadBuffer rw_open buf ring4_reading = Ret None m'
    /\ ring_inv m' re' 1 1 1
    /\ (0 = 0 -> 0 < re')
    /\ (0 <> 0 -> re' = 0)
    /\ sem_value (SemAvail m')
       = sem_value (SemAvail ring4_reading)
         + (if decide (1 + 1 = 0 + BlockCount ring4_reading /\ 0 = 0) then 1 else 0)
    /\ SemSignal m' = SemSignal ring4_reading.
Proof.
  intros buf.
  assert (Hb : exists b, block_at 0 ring4_reading = Some b /\ DoneRead b = 0)
    by (eexists; split; [vm_compute; reflexivity|reflexivity]).
  destruct Hb as (b & Hb & Hd).
  apply (SendReadBuffer_arcs rw_open buf ring4_reading 0 1 1 1 0 b
           eq_refl eq_refl ring4_reading_inv);
    [lia|lia|reflexivity|exact Hb|by rewrite Hd].
Defined.



Lemma Write_enqueue_witness :
  let n := Nat.min (N.to_nat (BlockSize ring4)) (length hello) in
  exists m' : sharedMem,
    Write rw_open hello ring4 = Ret (n, None) m'
    /\ ring_inv m' 0 0 (0 + 1) (0 + 1)
    /\ BlockCount m' = BlockCount ring4 /\ BlockSize m' = BlockSize ring4
    /\ readable m' 0 (0 + 1) = readable ring4 0 0 ++ [(take n hello, true)].
Proof.
  apply (Write_enqueue rw_open hello ring4 0 0 0 eq_refl ring4_inv).
  by vm_compute.
Defined.

Lemma Read_dequeue_witness :
  exists (d : list byte) (eof : bool) (m' : sharedMem),
    readable ring4_hello 0 1 = (d, eof) :: readable m' (0 + 1) 1
    /\ (let n := Nat.min (length slice8) (length d) in
        Read rw_open slice8 ring4_hello
        = Ret (n, if eof then Some EOF else None, take n d ++ drop n slice8) m')
    /\ ring_inv m' (0 + 1) (0 + 1) 1 1
    /\ BlockCount m' = BlockCount ring4_hello
    /\ BlockSize m' = BlockSize ring4_hello.
Proof.
  apply (Read_dequeue rw_open slice8 ring4_hello 0 1 1 eq_refl ring4_hello_inv).
  lia.
Defined.

Lemma Write_each_enqueue_witness :
  let ps := [hello; hello; hello] in
  exists m' : sharedMem,
    Write_each rw_open ps ring4
    = Ret (map (fun p => (Nat.min (N.to_nat (BlockSize ring4)) (length p), None)) ps) m'
    /\ ring_inv m' 0 0 (0 + N.of_nat (length ps)) (0 + N.of_nat (length ps))
    /\ BlockCount m' = BlockCount ring4 /\ BlockSize m' = BlockSize ring4
    /\ readable m' 0 (0 + N.of_nat (length ps))
       = readable ring4 0 0 ++ map (written (BlockSize ring4)) ps.
Proof.
  intros ps.
  apply (Write_each_enqueue rw_open ps ring4 0 0 0 eq_refl ring4_inv).
  by vm_compute.
Defined.

Lemma Read_each_dequeue_witness :
  let qs := [slice8; slice8] in
  exists (msgs : list (list byte * bool)) (m' : sharedMem),
    readable ring4_full 0 3 = msgs ++ readable m' (0 + N.of_nat (length qs)) 3
    /\ length msgs = length qs
    /\ Read_each rw_open qs ring4_full = Ret (zip_with deliver qs msgs) m'
    /\ ring_inv m' (0 + N.of_nat (length qs)) (0 + N.of_nat (length qs)) 3 3
    /\ BlockCount m' = BlockCount ring4_full
    /\ BlockSize m' = BlockSize ring4_full.
Proof.
  intros qs.
  apply (Read_each_dequeue rw_open qs ring4_full 0 3 3 eq_refl ring4_full_inv).
  by vm_compute.
Defined.

Lemma Write_each_Read_each_witness :
  let ps := [hello; hello] in
  let qs := [slice8; slice8] in
  exists m1 m2 : sharedMem,
    Write_each rw_open ps ring4 = Ret (map (fun p => (length p, None)) ps) m1
    /\ Read_each rw_open qs m1
       = Ret (zip_with (fun p q => (length p, Some EOF, p ++ drop (length p) q))
                       ps qs) m2
    /\ (let c' := 0 + N.of_nat (length ps) in ring_inv m2 c' c' c' c').
Proof.
  intros ps qs.
  apply (Write_each_Read_each rw_open rw_open ps qs ring4 0 eq_refl eq_refl
           ring4_inv).
  - by vm_compute.
  - repeat constructor; vm_compute; lia.
  - repeat constructor; vm_compute; lia.
Defined.

Lemma ReadFrom_enqueue_witness :
  let chunks := [(hello, None); ([], Some EOF)] in
  exists m' : sharedMem,
    ReadFrom_loop 2 rw_open hello 0%Z ring4
    = Ret (count_all 0%Z (map (fun c => length (fst c)) chunks),
           final_error chunks, []) m'
    /\ (let ws' := 0 + N.of_nat (length chunks) in
        ring_inv m' 0 0 ws' ws'
        /\ readable m' 0 ws' = readable ring4 0 0 ++ map chunk_message chunks)
    /\ BlockCount m' = BlockCount ring4 /\ BlockSize m' = BlockSize ring4.
Proof.
  intros chunks.
  apply (ReadFrom_enqueue rw_open 2 hello [] 0%Z ring4 0 0 0 chunks eq_refl
           ring4_inv).
  - reflexivity.
  - repeat constructor; vm_compute; lia.
  - by vm_compute.
Defined.

Lemma WriteTo_dequeue_witness :
  exists m' : sharedMem,
    WriteTo_loop 1 rw_open ([] : list byte) 0%Z ring4_hello
    = Ret (5%Z, None, hello) m'
    /\ ring_inv m' (0 + N.of_nat 1) (0 + N.of_nat 1) 1 1
    /\ readable ring4_hello 0 1
       = take 1 (readable ring4_hello 0 1) ++ readable m' (0 + N.of_nat 1) 1.
Proof.
  apply (WriteTo_dequeue rw_open 1 ([] : list byte) hello 0%Z 5%Z ring4_hello
           0 1 1 1%nat None eq_refl ring4_hello_inv).
  - by vm_compute.
  - lia.
Defined.

Lemma WriteTo_drains_and_parks_witness :
  exists m' : sharedMem,
    WriteTo_loop 2 rw_open ([] : list byte) 0%Z ring4_partial = Park sSignal m'
    /\ ring_inv m' 1 1 1 1.
Proof.
  apply (WriteTo_drains_and_parks rw_open 2 ([] : list byte) 0%Z ring4_partial
           0 1 1 eq_refl ring4_partial_inv).
  - by vm_compute.
  - vm_compute. lia.
Defined.

Lemma ReadFrom_WriteTo_round_trip_witness :
  let total := count_all 0 (map length ([hello] ++ [[]])) in
  exists m1 m2 : sharedMem,
    ReadFrom 2 rw_open hello ring4 = Ret (total, None, []) m1
    /\ WriteTo 2 rw_open [] m1 = Ret (total, None, [] ++ concat ([hello] ++ [[]])) m2
    /\ (let c' := 0 + N.of_nat (length [hello]) + 1 in ring_inv m2 c' c' c' c').
Proof.
  apply (ReadFrom_WriteTo_round_trip rw_open rw_open 2 hello [] ring4 0 [hello] [] []
           eq_refl eq_refl ring4_inv).
  - reflexivity.
  - repeat constructor; vm_compute; lia.
  - by vm_compute.
Defined.

Lemma no_deadlock_at_rest_witness :
  (exists buf m', GetWriteBuffer rw_open ring4_full = Ret (inl buf) m')
  \/ (exists buf m', GetReadBuffer rw_open ring4_full = Ret (inl buf) m').
Proof.
  apply (no_deadlock_at_rest rw_open rw_open ring4_full 0 3 eq_refl eq_refl
           ring4_full_inv).
  by vm_compute.
Defined.

Lemma one_block_ring_is_full_witness :
  GetWriteBuffer rw_open ring1 = Park sAvail (set_SemAvail (mkSem 0 None) ring1).
Proof.
  apply (one_block_ring_is_full rw_open ring1 0 0 0 0 eq_refl ring1_inv).
  reflexivity.
Defined.

Lemma Write_wakes_reader_witness :
  let n := Nat.min (N.to_nat (BlockSize ring4)) (length hello) in
  exists m1 m2 : sharedMem,
    Write rw_open hello ring4 = Ret (n, None) m1
    /\ sem_value (SemSignal m1) = sem_value (SemSignal ring4) + 1
    /\ GetReadBuffer rw_open m1
       = Ret (inl (mkBuffer (0 mod BlockCount ring4) false n
                            (N.to_nat (BlockSize ring4)))) m2.
Proof.
  apply (Write_wakes_reader rw_open rw_open hello ring4 0 eq_refl eq_refl ring4_inv).
  by vm_compute.
Defined.

Lemma Read_wakes_writer_witness :
  exists (r : nat * option error * list byte) (m1 m2 : sharedMem),
    GetWriteBuffer rw_open ring4_full
    = Park sAvail (set_SemAvail (mkSem 0 None) ring4_full)
    /\ Read rw_open slice8 ring4_full = Ret r m1
    /\ sem_value (SemAvail m1) = sem_value (SemAvail ring4_full) + 1
    /\ GetWriteBuffer rw_open m1
       = Ret (inl (mkBuffer (WriteStart ring4_full) true 0
                            (N.to_nat (BlockSize ring4_full)))) m2.
Proof.
  apply (Read_wakes_writer rw_open rw_open slice8 ring4_full 0 3 eq_refl eq_refl
           ring4_full_inv).
  - by vm_compute.
  - by vm_compute.
Defined.

Lemma lease_direction_checked_witness :
  SendReadBuffer rw_open (mkBuffer 0 true 0 64) ring4_leased
  = Ret (Some ErrInvalidBuffer) ring4_leased
  /\ SendWriteBuffer rw_open (mkBuffer 0 false 5 64) ring4_reading
     = Ret (O, Some ErrInvalidBuffer) ring4_reading.
Proof.
  split.
  - apply (lease_direction_checked rw_open ring4 ring4_leased (mkBuffer 0 true 0 64)).
    by vm_compute.
  - apply (lease_direction_checked rw_open ring4_hello ring4_reading
             (mkBuffer 0 false 5 64)).
    by vm_compute.
Defined.

Lemma ctr_incr_adds_one_witness :
  let ctr := [255; 255; 7] in
  le_value (ctr_incr ctr) = (le_value ctr + 1) mod 256 ^ N.of_nat (length ctr)
  /\ length (ctr_incr ctr) = length ctr
  /\ Forall (fun b => b < 256) (ctr_incr ctr).
Proof.
  intros ctr. apply (ctr_incr_adds_one ctr).
  repeat constructor.
Defined.
